(** * karl2d web audio engine (box2d-platformer/audio.js)

    A shallow embedding of the [karl2dAudio] object: the source registry,
    the bus graph, the instance table with its pause/resume reconstruction,
    the deferred play queue and the finished-callback queue.

    Conventions of the embedding.
    - JavaScript numbers (times in seconds, volumes, pans, pitches,
      positions, handles) are exact integers of [Z] counting a fixed unit
      (a clock tick for times); [+], [-], [Math.min] and [%] are exact:
      rounding, NaN and infinities of binary64 are outside the model.
    - The Web Audio context is part of the state: a store of nodes indexed
      by identifiers, the connections between them and the clock
      [currentTime].  Node references held by instances and buses are
      identifiers into that store, so two references to one node alias.
    - Instance objects live in a store of their own ([heap]); the instance
      table maps handles to references, and an [onended] closure keeps the
      reference and the handle it captured.
    - Operations are total functions on the state; an early [return] leaves
      the state as it is.
    - A call the host refuses raises an exception at that call.  Inside a
      [try] the function returns the state reached at the raise (the
      [catch] only logs); the [RangeError] that [resumeAudio] lets through
      likewise leaves the state reached at the raise, and
      [resumeAudioRaises] tells when it is raised.  The host refuses a
      negative [refDistance], a [maxDistance] that is not positive, and a
      negative [when] or [offset] of [start]. *)

From Stdlib Require Import ZArith Lia Bool List.
From stdpp Require Import base option list gmap fin_maps.

Local Open Scope Z_scope.

(** ** Web Audio nodes *)

(** [AudioBufferSourceNode]: the decoded buffer it plays, its settable
    fields, the arguments of [start(when, offset)] once called, whether
    [stop()] was called, whether the one-shot [ended] notification was
    delivered, and the [onended] closure (captured instance reference and
    captured handle). *)
Record BufferSource := mkBufferSource {
  bs_buffer : option Z;
  bs_loop : bool;
  bs_playbackRate : Z;
  bs_started : option (Z * Z);
  bs_stopped : bool;
  bs_ended : bool;
  bs_onended : option (Z * Z)
}.

Inductive PanningModel := EqualPower | HRTF.
Inductive DistanceModel := LinearDistance | InverseDistance | ExponentialDistance.

(** [PannerNode] (the distance panner of spatial instances). *)
Record Panner := mkPanner {
  pn_panningModel : PanningModel;
  pn_distanceModel : DistanceModel;
  pn_refDistance : Z;
  pn_maxDistance : Z;
  pn_rolloffFactor : Z;
  pn_positionX : Z;
  pn_positionY : Z;
  pn_positionZ : Z
}.

Inductive AudioNode :=
| NSource (bs : BufferSource)
| NGain (gain : Z)
| NStereoPanner (pan : Z)
| NPanner (p : Panner)
| NDestination.

(** The audio context: clock, node store, connections (the set of nodes
    each node outputs to: [connect] adds one, connecting twice changes
    nothing, [disconnect()] drops all outputs of a node), the next fresh
    node identifier and the listener position. Node 0 is [destination]. *)
Record AudioContext := mkAudioContext {
  currentTime : Z;
  nodes : gmap Z AudioNode;
  edges : gmap Z (gset Z);
  nextNode : Z;
  listenerPos : Z * Z * Z
}.

Definition destination : Z := 0.

Definition set_nodes (f : gmap Z AudioNode → gmap Z AudioNode) (c : AudioContext) : AudioContext :=
  {| currentTime := currentTime c; nodes := f (nodes c); edges := edges c;
     nextNode := nextNode c; listenerPos := listenerPos c |}.

Definition set_edges (f : gmap Z (gset Z) → gmap Z (gset Z)) (c : AudioContext) : AudioContext :=
  {| currentTime := currentTime c; nodes := nodes c; edges := f (edges c);
     nextNode := nextNode c; listenerPos := listenerPos c |}.

Definition set_currentTime (t : Z) (c : AudioContext) : AudioContext :=
  {| currentTime := t; nodes := nodes c; edges := edges c;
     nextNode := nextNode c; listenerPos := listenerPos c |}.

Definition set_listenerPos (p : Z * Z * Z) (c : AudioContext) : AudioContext :=
  {| currentTime := currentTime c; nodes := nodes c; edges := edges c;
     nextNode := nextNode c; listenerPos := p |}.

Definition newContext : AudioContext :=
  {| currentTime := 0; nodes := {[ destination := NDestination ]}; edges := ∅;
     nextNode := 1; listenerPos := (0, 0, 0) |}.

(** Allocation of a node: the identifier is the counter, which advances;
    a new node has no connection. *)
Definition createNode (nd : AudioNode) (c : AudioContext) : Z * AudioContext :=
  (nextNode c,
   {| currentTime := currentTime c; nodes := <[nextNode c := nd]> (nodes c);
      edges := delete (nextNode c) (edges c); nextNode := nextNode c + 1;
      listenerPos := listenerPos c |}).

Definition createBufferSource : AudioContext → Z * AudioContext :=
  createNode (NSource (mkBufferSource None false 1 None false false None)).
Definition createGain : AudioContext → Z * AudioContext :=
  createNode (NGain 1).
Definition createStereoPanner : AudioContext → Z * AudioContext :=
  createNode (NStereoPanner 0).
Definition createPanner : AudioContext → Z * AudioContext :=
  createNode (NPanner (mkPanner EqualPower InverseDistance 1 10000 1 0 0 0)).

(** Field writes reach the node through its identifier; a write of a field
    a node kind does not have leaves the node as it is. *)
Definition onSource (f : BufferSource → BufferSource) (nd : AudioNode) : AudioNode :=
  match nd with NSource bs => NSource (f bs) | _ => nd end.
Definition onGain (f : Z → Z) (nd : AudioNode) : AudioNode :=
  match nd with NGain g => NGain (f g) | _ => nd end.
Definition onStereo (f : Z → Z) (nd : AudioNode) : AudioNode :=
  match nd with NStereoPanner p => NStereoPanner (f p) | _ => nd end.
Definition onPanner (f : Panner → Panner) (nd : AudioNode) : AudioNode :=
  match nd with NPanner p => NPanner (f p) | _ => nd end.

Definition updSource (f : BufferSource → BufferSource) (n : Z) : AudioContext → AudioContext :=
  set_nodes (alter (onSource f) n).

Definition setBuffer (n b : Z) : AudioContext → AudioContext :=
  updSource (λ bs, mkBufferSource (Some b) (bs_loop bs) (bs_playbackRate bs)
    (bs_started bs) (bs_stopped bs) (bs_ended bs) (bs_onended bs)) n.
Definition setLoop (n : Z) (b : bool) : AudioContext → AudioContext :=
  updSource (λ bs, mkBufferSource (bs_buffer bs) b (bs_playbackRate bs)
    (bs_started bs) (bs_stopped bs) (bs_ended bs) (bs_onended bs)) n.
Definition setPlaybackRate (n r : Z) : AudioContext → AudioContext :=
  updSource (λ bs, mkBufferSource (bs_buffer bs) (bs_loop bs) r
    (bs_started bs) (bs_stopped bs) (bs_ended bs) (bs_onended bs)) n.
Definition setOnended (n : Z) (h : Z * Z) : AudioContext → AudioContext :=
  updSource (λ bs, mkBufferSource (bs_buffer bs) (bs_loop bs) (bs_playbackRate bs)
    (bs_started bs) (bs_stopped bs) (bs_ended bs) (Some h)) n.
(** [start(when, offset)]. *)
Definition startNode (n when offset : Z) : AudioContext → AudioContext :=
  updSource (λ bs, mkBufferSource (bs_buffer bs) (bs_loop bs) (bs_playbackRate bs)
    (Some (when, offset)) (bs_stopped bs) (bs_ended bs) (bs_onended bs)) n.
(** [stop()] inside [try { } catch]: on a node never started the call
    throws, the exception is swallowed and the node is left as it is. *)
Definition stopNode (n : Z) : AudioContext → AudioContext :=
  updSource (λ bs, mkBufferSource (bs_buffer bs) (bs_loop bs) (bs_playbackRate bs)
    (bs_started bs) (match bs_started bs with Some _ => true | None => bs_stopped bs end)
    (bs_ended bs) (bs_onended bs)) n.
Definition markEnded (n : Z) : AudioContext → AudioContext :=
  updSource (λ bs, mkBufferSource (bs_buffer bs) (bs_loop bs) (bs_playbackRate bs)
    (bs_started bs) (bs_stopped bs) true (bs_onended bs)) n.

Definition setGain (n v : Z) : AudioContext → AudioContext :=
  set_nodes (alter (onGain (λ _, v)) n).
Definition setPanValue (n v : Z) : AudioContext → AudioContext :=
  set_nodes (alter (onStereo (λ _, v)) n).
Definition setPannerConfig (n : Z) (minDistance maxDistance : Z) : AudioContext → AudioContext :=
  set_nodes (alter (onPanner (λ p, mkPanner HRTF LinearDistance minDistance maxDistance 1
    (pn_positionX p) (pn_positionY p) (pn_positionZ p))) n).
(** The writes of [panningModel], [distanceModel] and [refDistance] alone:
    what is done of the configuration when a later write is refused. *)
Definition setPannerModels (n : Z) : AudioContext → AudioContext :=
  set_nodes (alter (onPanner (λ p, mkPanner HRTF LinearDistance (pn_refDistance p)
    (pn_maxDistance p) (pn_rolloffFactor p)
    (pn_positionX p) (pn_positionY p) (pn_positionZ p))) n).
Definition setRefDistance (n : Z) (v : Z) : AudioContext → AudioContext :=
  set_nodes (alter (onPanner (λ p, mkPanner (pn_panningModel p) (pn_distanceModel p) v
    (pn_maxDistance p) (pn_rolloffFactor p)
    (pn_positionX p) (pn_positionY p) (pn_positionZ p))) n).
Definition setPannerPosition (n : Z) (x y z : Z) : AudioContext → AudioContext :=
  set_nodes (alter (onPanner (λ p, mkPanner (pn_panningModel p) (pn_distanceModel p)
    (pn_refDistance p) (pn_maxDistance p) (pn_rolloffFactor p) x y z)) n).

Definition connect (a b : Z) : AudioContext → AudioContext :=
  set_edges (λ e, <[a := {[b]} ∪ default ∅ (e !! a)]> e).
Definition disconnect (a : Z) : AudioContext → AudioContext :=
  set_edges (delete a).
Definition disconnectOpt (a : option Z) (c : AudioContext) : AudioContext :=
  match a with Some n => disconnect n c | None => c end.

Definition outputs (c : AudioContext) (n : Z) : gset Z := default ∅ (edges c !! n).

(** ** Engine data *)

(** An entry of [sources]: the decoded buffer (opaque) and its duration. *)
Record Source := mkSource { src_buffer : Z; src_duration : Z }.

(** An entry of [buses]. *)
Record Bus := mkBus { bus_gainNode : Z; bus_volume : Z; bus_muted : bool }.

(** The instance object built by [playAudioInternal]. *)
Record Instance := mkInstance {
  inst_sourceHandle : Z;
  inst_sourceNode : Z;
  inst_gainNode : Z;
  inst_pannerNode : option Z;
  inst_spatialPanner : option Z;
  inst_outputNode : Z;
  inst_busHandle : Z;
  inst_startTime : Z;
  inst_pauseTime : Z;
  inst_paused : bool;
  inst_stopped : bool;
  inst_loop : bool;
  inst_volume : Z;
  inst_pitch : Z;
  inst_hasCallback : bool
}.

(** The arguments of [playAudio], in its order. *)
Record PlayArgs := mkPlayArgs {
  pa_sourceHandle : Z;
  pa_busHandle : Z;
  pa_volume : Z;
  pa_pan : Z;
  pa_pitch : Z;
  pa_loop : bool;
  pa_delay : Z;
  pa_isSpatial : bool;
  pa_posX : Z;
  pa_posY : Z;
  pa_minDistance : Z;
  pa_maxDistance : Z;
  pa_hasCallback : bool
}.

(** An element of [pendingPlays]: the handle given out, the snapshot of the
    arguments and the retry counter. *)
Record PendingPlay := mkPendingPlay {
  pp_handle : Z;
  pp_args : PlayArgs;
  pp_retries : Z
}.

(** The [karl2dAudio] object.  [heap] holds the instance objects and
    [nextObj] the next fresh reference; [timers] counts the scheduled
    [processPendingPlays] timeouts not fired yet; [decoding] holds the source
    handles whose [decodeAudioData] promise is not settled yet. *)
Record state := mkState {
  audioContext : AudioContext;
  masterGain : Z;
  initialized : bool;
  nextSourceHandle : Z;
  nextInstanceHandle : Z;
  nextBusHandle : Z;
  sources : gmap Z Source;
  instances : gmap Z Z;
  buses : gmap Z Bus;
  finishedCallbacks : list Z;
  pendingPlays : list PendingPlay;
  listenerX : Z;
  listenerY : Z;
  heap : gmap Z Instance;
  nextObj : Z;
  timers : nat;
  decoding : gset Z
}.

Definition set_audioContext (f : AudioContext → AudioContext) (s : state) : state :=
  mkState (f (audioContext s)) (masterGain s) (initialized s) (nextSourceHandle s)
    (nextInstanceHandle s) (nextBusHandle s) (sources s) (instances s) (buses s)
    (finishedCallbacks s) (pendingPlays s) (listenerX s) (listenerY s) (heap s)
    (nextObj s) (timers s) (decoding s).
Definition set_nextSourceHandle (v : Z) (s : state) : state :=
  mkState (audioContext s) (masterGain s) (initialized s) v
    (nextInstanceHandle s) (nextBusHandle s) (sources s) (instances s) (buses s)
    (finishedCallbacks s) (pendingPlays s) (listenerX s) (listenerY s) (heap s)
    (nextObj s) (timers s) (decoding s).
Definition set_nextInstanceHandle (v : Z) (s : state) : state :=
  mkState (audioContext s) (masterGain s) (initialized s) (nextSourceHandle s)
    v (nextBusHandle s) (sources s) (instances s) (buses s)
    (finishedCallbacks s) (pendingPlays s) (listenerX s) (listenerY s) (heap s)
    (nextObj s) (timers s) (decoding s).
Definition set_nextBusHandle (v : Z) (s : state) : state :=
  mkState (audioContext s) (masterGain s) (initialized s) (nextSourceHandle s)
    (nextInstanceHandle s) v (sources s) (instances s) (buses s)
    (finishedCallbacks s) (pendingPlays s) (listenerX s) (listenerY s) (heap s)
    (nextObj s) (timers s) (decoding s).
Definition set_sources (f : gmap Z Source → gmap Z Source) (s : state) : state :=
  mkState (audioContext s) (masterGain s) (initialized s) (nextSourceHandle s)
    (nextInstanceHandle s) (nextBusHandle s) (f (sources s)) (instances s) (buses s)
    (finishedCallbacks s) (pendingPlays s) (listenerX s) (listenerY s) (heap s)
    (nextObj s) (timers s) (decoding s).
Definition set_instances (f : gmap Z Z → gmap Z Z) (s : state) : state :=
  mkState (audioContext s) (masterGain s) (initialized s) (nextSourceHandle s)
    (nextInstanceHandle s) (nextBusHandle s) (sources s) (f (instances s)) (buses s)
    (finishedCallbacks s) (pendingPlays s) (listenerX s) (listenerY s) (heap s)
    (nextObj s) (timers s) (decoding s).
Definition set_buses (f : gmap Z Bus → gmap Z Bus) (s : state) : state :=
  mkState (audioContext s) (masterGain s) (initialized s) (nextSourceHandle s)
    (nextInstanceHandle s) (nextBusHandle s) (sources s) (instances s) (f (buses s))
    (finishedCallbacks s) (pendingPlays s) (listenerX s) (listenerY s) (heap s)
    (nextObj s) (timers s) (decoding s).
Definition set_finishedCallbacks (v : list Z) (s : state) : state :=
  mkState (audioContext s) (masterGain s) (initialized s) (nextSourceHandle s)
    (nextInstanceHandle s) (nextBusHandle s) (sources s) (instances s) (buses s)
    v (pendingPlays s) (listenerX s) (listenerY s) (heap s)
    (nextObj s) (timers s) (decoding s).
Definition set_pendingPlays (v : list PendingPlay) (s : state) : state :=
  mkState (audioContext s) (masterGain s) (initialized s) (nextSourceHandle s)
    (nextInstanceHandle s) (nextBusHandle s) (sources s) (instances s) (buses s)
    (finishedCallbacks s) v (listenerX s) (listenerY s) (heap s)
    (nextObj s) (timers s) (decoding s).
Definition set_listenerXY (x y : Z) (s : state) : state :=
  mkState (audioContext s) (masterGain s) (initialized s) (nextSourceHandle s)
    (nextInstanceHandle s) (nextBusHandle s) (sources s) (instances s) (buses s)
    (finishedCallbacks s) (pendingPlays s) x y (heap s)
    (nextObj s) (timers s) (decoding s).
Definition set_heap (f : gmap Z Instance → gmap Z Instance) (s : state) : state :=
  mkState (audioContext s) (masterGain s) (initialized s) (nextSourceHandle s)
    (nextInstanceHandle s) (nextBusHandle s) (sources s) (instances s) (buses s)
    (finishedCallbacks s) (pendingPlays s) (listenerX s) (listenerY s) (f (heap s))
    (nextObj s) (timers s) (decoding s).
Definition set_nextObj (v : Z) (s : state) : state :=
  mkState (audioContext s) (masterGain s) (initialized s) (nextSourceHandle s)
    (nextInstanceHandle s) (nextBusHandle s) (sources s) (instances s) (buses s)
    (finishedCallbacks s) (pendingPlays s) (listenerX s) (listenerY s) (heap s)
    v (timers s) (decoding s).
Definition set_timers (v : nat) (s : state) : state :=
  mkState (audioContext s) (masterGain s) (initialized s) (nextSourceHandle s)
    (nextInstanceHandle s) (nextBusHandle s) (sources s) (instances s) (buses s)
    (finishedCallbacks s) (pendingPlays s) (listenerX s) (listenerY s) (heap s)
    (nextObj s) v (decoding s).
Definition set_decoding (f : gset Z → gset Z) (s : state) : state :=
  mkState (audioContext s) (masterGain s) (initialized s) (nextSourceHandle s)
    (nextInstanceHandle s) (nextBusHandle s) (sources s) (instances s) (buses s)
    (finishedCallbacks s) (pendingPlays s) (listenerX s) (listenerY s) (heap s)
    (nextObj s) (timers s) (f (decoding s)).

(** Updates of single fields of an instance object. *)
Definition inst_set_sourceNode (n : Z) (i : Instance) : Instance :=
  mkInstance (inst_sourceHandle i) n (inst_gainNode i) (inst_pannerNode i)
    (inst_spatialPanner i) (inst_outputNode i) (inst_busHandle i) (inst_startTime i)
    (inst_pauseTime i) (inst_paused i) (inst_stopped i) (inst_loop i) (inst_volume i)
    (inst_pitch i) (inst_hasCallback i).
Definition inst_set_startTime (t : Z) (i : Instance) : Instance :=
  mkInstance (inst_sourceHandle i) (inst_sourceNode i) (inst_gainNode i) (inst_pannerNode i)
    (inst_spatialPanner i) (inst_outputNode i) (inst_busHandle i) t
    (inst_pauseTime i) (inst_paused i) (inst_stopped i) (inst_loop i) (inst_volume i)
    (inst_pitch i) (inst_hasCallback i).
Definition inst_set_pauseTime (t : Z) (i : Instance) : Instance :=
  mkInstance (inst_sourceHandle i) (inst_sourceNode i) (inst_gainNode i) (inst_pannerNode i)
    (inst_spatialPanner i) (inst_outputNode i) (inst_busHandle i) (inst_startTime i)
    t (inst_paused i) (inst_stopped i) (inst_loop i) (inst_volume i)
    (inst_pitch i) (inst_hasCallback i).
Definition inst_set_paused (b : bool) (i : Instance) : Instance :=
  mkInstance (inst_sourceHandle i) (inst_sourceNode i) (inst_gainNode i) (inst_pannerNode i)
    (inst_spatialPanner i) (inst_outputNode i) (inst_busHandle i) (inst_startTime i)
    (inst_pauseTime i) b (inst_stopped i) (inst_loop i) (inst_volume i)
    (inst_pitch i) (inst_hasCallback i).
Definition inst_set_stopped (b : bool) (i : Instance) : Instance :=
  mkInstance (inst_sourceHandle i) (inst_sourceNode i) (inst_gainNode i) (inst_pannerNode i)
    (inst_spatialPanner i) (inst_outputNode i) (inst_busHandle i) (inst_startTime i)
    (inst_pauseTime i) (inst_paused i) b (inst_loop i) (inst_volume i)
    (inst_pitch i) (inst_hasCallback i).
Definition inst_set_loop (b : bool) (i : Instance) : Instance :=
  mkInstance (inst_sourceHandle i) (inst_sourceNode i) (inst_gainNode i) (inst_pannerNode i)
    (inst_spatialPanner i) (inst_outputNode i) (inst_busHandle i) (inst_startTime i)
    (inst_pauseTime i) (inst_paused i) (inst_stopped i) b (inst_volume i)
    (inst_pitch i) (inst_hasCallback i).
Definition inst_set_volume (v : Z) (i : Instance) : Instance :=
  mkInstance (inst_sourceHandle i) (inst_sourceNode i) (inst_gainNode i) (inst_pannerNode i)
    (inst_spatialPanner i) (inst_outputNode i) (inst_busHandle i) (inst_startTime i)
    (inst_pauseTime i) (inst_paused i) (inst_stopped i) (inst_loop i) v
    (inst_pitch i) (inst_hasCallback i).
Definition inst_set_pitch (v : Z) (i : Instance) : Instance :=
  mkInstance (inst_sourceHandle i) (inst_sourceNode i) (inst_gainNode i) (inst_pannerNode i)
    (inst_spatialPanner i) (inst_outputNode i) (inst_busHandle i) (inst_startTime i)
    (inst_pauseTime i) (inst_paused i) (inst_stopped i) (inst_loop i) (inst_volume i)
    v (inst_hasCallback i).

(** [this.instances.get(handle)]: the instance object behind a handle. *)
Definition getInstance (s : state) (instanceHandle : Z) : option (Z * Instance) :=
  match instances s !! instanceHandle with
  | Some l => match heap s !! l with Some i => Some (l, i) | None => None end
  | None => None
  end.

(** The object literal [karl2dAudio] before [init]; the context and the
    master gain, [null] there, are the empty context and its destination. *)
Definition initial : state :=
  mkState newContext destination false 1 1 2 ∅ ∅ ∅ [] [] 0 0 ∅ 0 0%nat ∅.

(** ** Lifecycle *)

(** [init]: does nothing when already initialized; otherwise builds the
    context, the master gain connected to the destination and bus 1.  The
    constructor of the context is a call to the host: [hostAudio] tells
    whether the host builds the context; when the constructor raises, the
    [catch] logs, [false] is returned and the engine is left as it is.
    The field [audioContext] is [null] exactly when [initialized] is
    false.  [init] is the call on a host that builds the context. *)
Definition init_in (hostAudio : bool) (s : state) : bool * state :=
  if initialized s then (true, s)
  else if negb hostAudio then (false, s)
  else
    let '(mg, c) := createGain newContext in
    let c := connect mg destination c in
    let c := set_listenerPos (0, 0, 0) c in
    (true,
     mkState c mg true (nextSourceHandle s) (nextInstanceHandle s) (nextBusHandle s)
       (sources s) (instances s) (<[1 := mkBus mg 1 false]> (buses s))
       (finishedCallbacks s) (pendingPlays s) (listenerX s) (listenerY s) (heap s)
       (nextObj s) (timers s) (decoding s)).

Definition init (s : state) : bool * state := init_in true s.

(** ** Source management *)

(** [_js_load_audio]: it returns 0 without the memory of the module
    ([wasmMemory]), initializes the engine if need be, returns 0 when there
    is still no context (the host refused to build one), and otherwise
    reserves the handle at once, the decode running in the background.
    [js_load_audio] is the call once the memory of the module was set, on
    a host that builds the context. *)
Definition js_load_audio_in (wasmMemory hostAudio : bool) (s : state) : Z * state :=
  if negb wasmMemory then (0, s)
  else
    let s := if negb (initialized s) then (init_in hostAudio s).2 else s in
    if negb (initialized s) then (0, s)
    else
      let handle := nextSourceHandle s in
      (handle, set_decoding (λ d, {[handle]} ∪ d) (set_nextSourceHandle (handle + 1) s)).

Definition js_load_audio (s : state) : Z * state := js_load_audio_in true true s.

(** The [then] callback of the decode promise of [handle]. *)
Definition decodeResolved (s : state) (handle buffer duration : Z) : state :=
  set_decoding (λ d, d ∖ {[handle]})
    (set_sources (<[handle := mkSource buffer duration]>) s).

(** The [catch] callback: the failure is logged. *)
Definition decodeRejected (s : state) (handle : Z) : state :=
  set_decoding (λ d, d ∖ {[handle]}) s.

Definition destroyAudio (s : state) (sourceHandle : Z) : state :=
  set_sources (delete sourceHandle) s.

Definition getAudioDuration (s : state) (sourceHandle : Z) : Z :=
  match sources s !! sourceHandle with
  | None => 0
  | Some source => src_duration source
  end.

(** ** Playback *)

(** The panner stage of [playAudioInternal]: the last node of the chain
    before the gain node, the two panner fields of the instance and the
    context. *)
Record Chain := mkChain {
  ch_lastNode : Z;
  ch_pannerNode : option Z;
  ch_spatialPanner : option Z;
  ch_context : AudioContext
}.

Definition buildPanner (sourceNode : Z) (a : PlayArgs) (c : AudioContext) : Chain :=
  if pa_isSpatial a then
    let '(spatialPanner, c) := createPanner c in
    let c := setPannerConfig spatialPanner (pa_minDistance a) (pa_maxDistance a) c in
    let c := setPannerPosition spatialPanner (pa_posX a) (pa_posY a) 0 c in
    let c := connect sourceNode spatialPanner c in
    mkChain spatialPanner None (Some spatialPanner) c
  else if negb (pa_pan a =? 0) then
    let '(pannerNode, c) := createStereoPanner c in
    let c := setPanValue pannerNode (pa_pan a) c in
    let c := connect sourceNode pannerNode c in
    mkChain pannerNode (Some pannerNode) None c
  else mkChain sourceNode None None c.

(** The output node of an instance: the gain node of its bus, or the
    master gain when the bus handle is at most 1 or unknown. *)
Definition resolveOutput (s : state) (busHandle : Z) : Z :=
  if 1 <? busHandle then
    match buses s !! busHandle with
    | Some bus => bus_gainNode bus
    | None => masterGain s
    end
  else masterGain s.

(** The arguments for which the configuration of the distance panner is
    refused by the host. *)
Definition pannerRejected (a : PlayArgs) : bool :=
  pa_isSpatial a && ((pa_minDistance a <? 0) || (pa_maxDistance a <=? 0)).

(** The context at the raise of that configuration: the panner exists,
    its models are written, and [refDistance] too when [maxDistance] is the
    write refused. *)
Definition rejectedPanner (a : PlayArgs) (c : AudioContext) : AudioContext :=
  let '(spatialPanner, c) := createPanner c in
  let c := setPannerModels spatialPanner c in
  if pa_minDistance a <? 0 then c else setRefDistance spatialPanner (pa_minDistance a) c.

(** [playAudioInternal(params, source)], used for both immediate and
    deferred plays; [params] is the handle with the arguments.  The body is
    a [try]: without a context the first call raises; a refused panner
    configuration raises before the nodes are connected and the instance
    built; a refused start time raises at [start], the last call, with the
    instance registered and its node never started. *)
Definition playAudioInternal (s : state) (handle : Z) (a : PlayArgs) (source : Source) : state :=
  if negb (initialized s) then s
  else
    let c := audioContext s in
    let '(sourceNode, c) := createBufferSource c in
    let c := setBuffer sourceNode (src_buffer source) c in
    let c := setLoop sourceNode (pa_loop a) c in
    let c := setPlaybackRate sourceNode (pa_pitch a) c in
    let '(gainNode, c) := createGain c in
    let c := setGain gainNode (pa_volume a) c in
    let outputNode := resolveOutput s (pa_busHandle a) in
    if pannerRejected a then set_audioContext (λ _, rejectedPanner a c) s
    else
      let chain := buildPanner sourceNode a c in
      let c := connect (ch_lastNode chain) gainNode (ch_context chain) in
      let c := connect gainNode outputNode c in
      let instance :=
        mkInstance (pa_sourceHandle a) sourceNode gainNode
          (ch_pannerNode chain) (ch_spatialPanner chain)
          outputNode (pa_busHandle a) (currentTime c + pa_delay a) 0 false false
          (pa_loop a) (pa_volume a) (pa_pitch a) (pa_hasCallback a) in
      let l := nextObj s in
      let c := setOnended sourceNode (l, handle) c in
      let startTime := currentTime c + pa_delay a in
      let c := if startTime <? 0 then c else startNode sourceNode startTime 0 c in
      set_audioContext (λ _, c)
        (set_instances (<[handle := l]>)
          (set_nextObj (l + 1) (set_heap (<[l := instance]>) s))).

(** The [onended] closure installed on a source node: [l] is the instance
    object and [handle] the handle it captured. *)
Definition onended (s : state) (l handle : Z) : state :=
  match heap s !! l with
  | None => s
  | Some instance =>
      if negb (inst_stopped instance) && negb (inst_loop instance) then
        let s := if inst_hasCallback instance
                 then set_finishedCallbacks (finishedCallbacks s ++ [handle]) s
                 else s in
        set_instances (delete handle) s
      else s
  end.

Definition playAudio (s : state) (a : PlayArgs) : Z * state :=
  if negb (initialized s) then (0, s)
  else
    match sources s !! pa_sourceHandle a with
    | None =>
        let handle := nextInstanceHandle s in
        let s := set_nextInstanceHandle (handle + 1) s in
        let s := set_pendingPlays (pendingPlays s ++ [mkPendingPlay handle a 0]) s in
        let s := if (length (pendingPlays s) =? 1)%nat then set_timers (S (timers s)) s else s in
        (handle, s)
    | Some source =>
        let handle := nextInstanceHandle s in
        let s := set_nextInstanceHandle (handle + 1) s in
        (handle, playAudioInternal s handle a source)
    end.

(** [stopInstance(instance)] on the instance object [l]. *)
Definition stopInstance (s : state) (l : Z) : state :=
  match heap s !! l with
  | None => s
  | Some instance =>
      if inst_stopped instance then s
      else
        let s := set_heap (<[l := inst_set_stopped true instance]>) s in
        set_audioContext (λ c,
          disconnectOpt (inst_spatialPanner instance)
            (disconnectOpt (inst_pannerNode instance)
              (disconnect (inst_gainNode instance)
                (disconnect (inst_sourceNode instance)
                  (stopNode (inst_sourceNode instance) c))))) s
  end.

Definition stopAudio (s : state) (instanceHandle : Z) : state :=
  match instances s !! instanceHandle with
  | None => s
  | Some l => set_instances (delete instanceHandle) (stopInstance s l)
  end.

Definition pauseAudio (s : state) (instanceHandle : Z) : state :=
  match getInstance s instanceHandle with
  | None => s
  | Some (l, instance) =>
      if inst_paused instance || inst_stopped instance then s
      else
        let now := currentTime (audioContext s) in
        let instance' :=
          inst_set_pauseTime (now - inst_startTime instance) (inst_set_paused true instance) in
        set_audioContext (stopNode (inst_sourceNode instance))
          (set_heap (<[l := instance']>) s)
  end.

(** The reconnection of [resumeAudio]: the new source node goes into the
    panner the instance kept, if any; [resumeLast] is the last node before
    the gain node.  The instance is updated and the closure installed
    before [start(0, pauseTime)], which the host refuses when the offset is
    negative: the node is then left unstarted and the exception reaches the
    caller. *)
Definition resumeConnect (newSourceNode : Z) (instance : Instance) (c : AudioContext)
  : AudioContext :=
  match inst_spatialPanner instance, inst_pannerNode instance with
  | Some sp, _ => connect newSourceNode sp c
  | None, Some pn => connect newSourceNode pn c
  | None, None => c
  end.
Definition resumeLast (newSourceNode : Z) (instance : Instance) : Z :=
  match inst_spatialPanner instance, inst_pannerNode instance with
  | Some sp, _ => sp
  | None, Some pn => pn
  | None, None => newSourceNode
  end.

Definition resumeAudio (s : state) (instanceHandle : Z) : state :=
  match getInstance s instanceHandle with
  | None => s
  | Some (l, instance) =>
      if negb (inst_paused instance) || inst_stopped instance then s
      else
        match sources s !! inst_sourceHandle instance with
        | None => s
        | Some source =>
            let '(newSourceNode, c) := createBufferSource (audioContext s) in
            let c := setBuffer newSourceNode (src_buffer source) c in
            let c := setLoop newSourceNode (inst_loop instance) c in
            let c := setPlaybackRate newSourceNode (inst_pitch instance) c in
            let c := connect (resumeLast newSourceNode instance) (inst_gainNode instance)
                       (resumeConnect newSourceNode instance c) in
            let instance' :=
              inst_set_startTime (currentTime c - inst_pauseTime instance)
                (inst_set_paused false (inst_set_sourceNode newSourceNode instance)) in
            let c := setOnended newSourceNode (l, instanceHandle) c in
            let c := if inst_pauseTime instance <? 0 then c
                     else startNode newSourceNode 0 (inst_pauseTime instance) c in
            set_audioContext (λ _, c) (set_heap (<[l := instance']>) s)
        end
  end.

(** Whether the call [resumeAudio] ends in the [RangeError] of its
    [start(0, pauseTime)]: the instance is rebuilt and its offset is
    negative. *)
Definition resumeAudioRaises (s : state) (instanceHandle : Z) : bool :=
  match getInstance s instanceHandle with
  | None => false
  | Some (l, instance) =>
      if negb (inst_paused instance) || inst_stopped instance then false
      else
        match sources s !! inst_sourceHandle instance with
        | None => false
        | Some source => inst_pauseTime instance <? 0
        end
  end.

(** The test of the loop of [stopAllAudio]: [busHandle === 0] or the
    bus handle the instance was played with is [busHandle]. *)
Definition stopAllMatch (busHandle : Z) (instance : Instance) : bool :=
  (busHandle =? 0) || (inst_busHandle instance =? busHandle).

(** One turn of the loop of [stopAllAudio] on the entry [(handle, l)]. *)
Definition stopAllStep (busHandle : Z) (s : state) (entry : Z * Z) : state :=
  match heap s !! entry.2 with
  | None => s
  | Some instance =>
      if stopAllMatch busHandle instance
      then set_instances (delete entry.1) (stopInstance s entry.2)
      else s
  end.

Definition stopAllAudio (s : state) (busHandle : Z) : state :=
  foldl (stopAllStep busHandle) s (map_to_list (instances s)).

(** [shutdown]: stops all instances, clears the registries and the
    finished queue, resets the handle counters and closes the context. It
    leaves [pendingPlays], the scheduled timeout and the outstanding
    decodes alone.  The [null] it stores in [audioContext] is the empty
    context here, as in [initial]: the functions that would dereference it
    test [initialized] or find the instance table empty. *)
Definition shutdown (s : state) : state :=
  if negb (initialized s) then s
  else
    let s := foldl (λ s (entry : Z * Z), stopInstance s entry.2) s (map_to_list (instances s)) in
    mkState newContext (masterGain s) false 1 1 2 ∅ ∅ ∅ [] (pendingPlays s)
      (listenerX s) (listenerY s) (heap s) (nextObj s) (timers s) (decoding s).

(** ** Live control *)

Definition setAudioVolume (s : state) (instanceHandle volume : Z) : state :=
  match getInstance s instanceHandle with
  | None => s
  | Some (l, instance) =>
      set_audioContext (setGain (inst_gainNode instance) volume)
        (set_heap (<[l := inst_set_volume volume instance]>) s)
  end.

Definition setAudioPan (s : state) (instanceHandle pan : Z) : state :=
  match getInstance s instanceHandle with
  | None => s
  | Some (l, instance) =>
      match inst_pannerNode instance with
      | None => s
      | Some pannerNode => set_audioContext (setPanValue pannerNode pan) s
      end
  end.

Definition setAudioPitch (s : state) (instanceHandle pitch : Z) : state :=
  match getInstance s instanceHandle with
  | None => s
  | Some (l, instance) =>
      set_audioContext (setPlaybackRate (inst_sourceNode instance) pitch)
        (set_heap (<[l := inst_set_pitch pitch instance]>) s)
  end.

Definition setAudioLooping (s : state) (instanceHandle : Z) (loop : bool) : state :=
  match getInstance s instanceHandle with
  | None => s
  | Some (l, instance) =>
      set_audioContext (setLoop (inst_sourceNode instance) loop)
        (set_heap (<[l := inst_set_loop loop instance]>) s)
  end.

(** The panner has [positionX]: the x and y parameters are written, z stays. *)
Definition setAudioPosition (s : state) (instanceHandle x y : Z) : state :=
  match getInstance s instanceHandle with
  | None => s
  | Some (l, instance) =>
      match inst_spatialPanner instance with
      | None => s
      | Some spatialPanner =>
          set_audioContext (set_nodes (alter (onPanner (λ p,
            mkPanner (pn_panningModel p) (pn_distanceModel p) (pn_refDistance p)
              (pn_maxDistance p) (pn_rolloffFactor p) x y (pn_positionZ p))) spatialPanner)) s
      end
  end.

(** ** Queries *)

Definition isAudioPlaying (s : state) (instanceHandle : Z) : bool :=
  match getInstance s instanceHandle with
  | None => false
  | Some (_, instance) => negb (inst_paused instance) && negb (inst_stopped instance)
  end.

Definition isAudioPaused (s : state) (instanceHandle : Z) : bool :=
  match getInstance s instanceHandle with
  | None => false
  | Some (_, instance) => inst_paused instance
  end.

(** The remainder operator [%] of JavaScript: the sign follows the
    dividend. *)
Definition js_rem (a b : Z) : Z := Z.rem a b.

Definition getAudioTime (s : state) (instanceHandle : Z) : Z :=
  match getInstance s instanceHandle with
  | None => 0
  | Some (_, instance) =>
      if inst_paused instance then inst_pauseTime instance
      else if inst_stopped instance then 0
      else
        let elapsed := currentTime (audioContext s) - inst_startTime instance in
        match sources s !! inst_sourceHandle instance with
        | Some source =>
            if inst_loop instance then js_rem elapsed (src_duration source)
            else Z.min elapsed (src_duration source)
        | None => Z.min elapsed elapsed
        end
  end.

(** ** Buses *)

Definition createAudioBus (s : state) : Z * state :=
  if negb (initialized s) then (0, s)
  else
    let handle := nextBusHandle s in
    let '(gainNode, c) := createGain (audioContext s) in
    let c := connect gainNode (masterGain s) c in
    (handle,
     set_buses (<[handle := mkBus gainNode 1 false]>)
       (set_audioContext (λ _, c) (set_nextBusHandle (handle + 1) s))).

Definition destroyAudioBus (s : state) (busHandle : Z) : state :=
  if busHandle <=? 1 then s
  else
    match buses s !! busHandle with
    | None => s
    | Some bus =>
        set_buses (delete busHandle) (set_audioContext (disconnect (bus_gainNode bus)) s)
    end.

Definition setAudioBusVolume (s : state) (busHandle volume : Z) : state :=
  match buses s !! busHandle with
  | None => s
  | Some bus =>
      let s := set_buses (<[busHandle := mkBus (bus_gainNode bus) volume (bus_muted bus)]>) s in
      if negb (bus_muted bus) then set_audioContext (setGain (bus_gainNode bus) volume) s else s
  end.

Definition getAudioBusVolume (s : state) (busHandle : Z) : Z :=
  match buses s !! busHandle with
  | None => 1
  | Some bus => bus_volume bus
  end.

Definition setAudioBusMuted (s : state) (busHandle : Z) (muted : bool) : state :=
  match buses s !! busHandle with
  | None => s
  | Some bus =>
      set_audioContext (setGain (bus_gainNode bus) (if muted then 0 else bus_volume bus))
        (set_buses (<[busHandle := mkBus (bus_gainNode bus) (bus_volume bus) muted]>) s)
  end.

Definition isAudioBusMuted (s : state) (busHandle : Z) : bool :=
  match buses s !! busHandle with
  | None => false
  | Some bus => bus_muted bus
  end.

(** ** Listener, polling, deferred plays *)

Definition setListenerPosition (s : state) (x y : Z) : state :=
  if negb (initialized s) then s
  else set_audioContext (set_listenerPos (x, y, 0)) (set_listenerXY x y s).

Definition pollFinishedCallback (s : state) : Z * state :=
  match finishedCallbacks s with
  | [] => (0, s)
  | h :: rest => (h, set_finishedCallbacks rest s)
  end.

(** One turn of the loop of [processPendingPlays]: the state and the
    [stillPending] array so far. *)
Definition processPending (acc : state * list PendingPlay) (pending : PendingPlay)
  : state * list PendingPlay :=
  match sources acc.1 !! pa_sourceHandle (pp_args pending) with
  | Some source =>
      (playAudioInternal acc.1 (pp_handle pending) (pp_args pending) source, acc.2)
  | None =>
      let retries := pp_retries pending + 1 in
      if retries <? 10
      then (acc.1, acc.2 ++ [mkPendingPlay (pp_handle pending) (pp_args pending) retries])
      else acc
  end.

Definition processPendingPlays (s : state) : state :=
  let r := foldl processPending (s, []) (pendingPlays s) in
  let s := set_pendingPlays r.2 r.1 in
  if (0 <? length r.2)%nat then set_timers (S (timers s)) s else s.

(** ** The engine as a transition system *)

(** What can happen in one session of the engine, from its [init] to its
    [shutdown]: the calls of the host module, and the callbacks run by the
    browser (a decode promise settling, a scheduled [processPendingPlays]
    firing, an [ended] notification delivered to a source node, the clock
    moving on).  [shutdown] and an [init] after it are not events: they are
    studied as functions. *)
Inductive event :=
| LoadAudio
| DecodeResolved (handle buffer duration : Z)
| DecodeRejected (handle : Z)
| DestroyAudio (sourceHandle : Z)
| PlayAudio (a : PlayArgs)
| StopAudio (instanceHandle : Z)
| PauseAudio (instanceHandle : Z)
| ResumeAudio (instanceHandle : Z)
| StopAllAudio (busHandle : Z)
| SetAudioVolume (instanceHandle volume : Z)
| SetAudioPan (instanceHandle pan : Z)
| SetAudioPitch (instanceHandle pitch : Z)
| SetAudioLooping (instanceHandle : Z) (loop : bool)
| SetAudioPosition (instanceHandle x y : Z)
| CreateAudioBus
| DestroyAudioBus (busHandle : Z)
| SetAudioBusVolume (busHandle volume : Z)
| SetAudioBusMuted (busHandle : Z) (muted : bool)
| SetListenerPosition (x y : Z)
| PollFinishedCallback
| TimerFired
| Ended (node : Z)
| Advance (dt : N).

(** Delivery of [ended] to node [n]: the notification is one-shot, and the
    [onended] closure of the node, if any, runs. *)
Definition deliverEnded (s : state) (n : Z) : state :=
  match nodes (audioContext s) !! n with
  | Some (NSource bs) =>
      let s := set_audioContext (markEnded n) s in
      match bs_onended bs with
      | Some (l, handle) => onended s l handle
      | None => s
      end
  | _ => s
  end.

Definition step (s : state) (e : event) : state :=
  match e with
  | LoadAudio => (js_load_audio s).2
  | DecodeResolved handle buffer duration => decodeResolved s handle buffer duration
  | DecodeRejected handle => decodeRejected s handle
  | DestroyAudio h => destroyAudio s h
  | PlayAudio a => (playAudio s a).2
  | StopAudio h => stopAudio s h
  | PauseAudio h => pauseAudio s h
  | ResumeAudio h => resumeAudio s h
  | StopAllAudio b => stopAllAudio s b
  | SetAudioVolume h v => setAudioVolume s h v
  | SetAudioPan h v => setAudioPan s h v
  | SetAudioPitch h v => setAudioPitch s h v
  | SetAudioLooping h b => setAudioLooping s h b
  | SetAudioPosition h x y => setAudioPosition s h x y
  | CreateAudioBus => (createAudioBus s).2
  | DestroyAudioBus b => destroyAudioBus s b
  | SetAudioBusVolume b v => setAudioBusVolume s b v
  | SetAudioBusMuted b m => setAudioBusMuted s b m
  | SetListenerPosition x y => setListenerPosition s x y
  | PollFinishedCallback => (pollFinishedCallback s).2
  | TimerFired => processPendingPlays (set_timers (Nat.pred (timers s)) s)
  | Ended n => deliverEnded s n
  | Advance dt => set_audioContext (λ c, set_currentTime (currentTime c + Z.of_N dt) c) s
  end.

Definition run (s : state) (t : list event) : state := foldl step s t.

(** The host audio engine and [ended]: the notification is fired once
    per node, to a node that was started, when its playback stops: at the
    end of its buffer, which a looping node never reaches ([naturalEnd]),
    or after its [stop()] was called ([stoppedEnd]), as [pauseAudio] and
    [stopInstance] do. *)
Definition isStarted (bs : BufferSource) : bool :=
  match bs_started bs with Some _ => true | None => false end.

Definition naturalEnd (s : state) (n : Z) : bool :=
  match nodes (audioContext s) !! n with
  | Some (NSource bs) =>
      isStarted bs && negb (bs_stopped bs) && negb (bs_loop bs) && negb (bs_ended bs)
  | _ => false
  end.

Definition stoppedEnd (s : state) (n : Z) : bool :=
  match nodes (audioContext s) !! n with
  | Some (NSource bs) => isStarted bs && bs_stopped bs && negb (bs_ended bs)
  | _ => false
  end.

(** The runs studied.  The browser runs a callback when it may: a decode
    promise settles once, for a handle whose decode is outstanding, with
    the positive duration of a decoded buffer; a timeout fires only if
    scheduled; [ended] is delivered as said above.  The calls of the host
    module are all possible, but for the two on which [start] is refused
    and an entry is left with a node that never plays: a [playAudio] whose
    start time [currentTime + delay] is negative, and a [resumeAudio] of an
    instance paused before its start time (these are studied on the
    functions). *)
Definition hostOk (s : state) (e : event) : bool :=
  match e with
  | DecodeResolved handle _ duration => bool_decide (handle ∈ decoding s) && (0 <? duration)
  | DecodeRejected handle => bool_decide (handle ∈ decoding s)
  | TimerFired => negb (Nat.eqb (timers s) 0)
  | Ended n => naturalEnd s n || stoppedEnd s n
  | PlayAudio a => 0 <=? currentTime (audioContext s) + pa_delay a
  | ResumeAudio h => negb (resumeAudioRaises s h)
  | _ => true
  end.

Fixpoint traceOk (s : state) (t : list event) : bool :=
  match t with
  | [] => true
  | e :: t => hostOk s e && traceOk (step s e) t
  end.

(** The engine right after a successful [init]. *)
Definition started : state := (init initial).2.

(** ** Views of the node store and well-formed states *)

Inductive NodeKind := KSource | KGain | KStereoPanner | KPanner | KDestination.

Definition kindOf (nd : AudioNode) : NodeKind :=
  match nd with
  | NSource _ => KSource
  | NGain _ => KGain
  | NStereoPanner _ => KStereoPanner
  | NPanner _ => KPanner
  | NDestination => KDestination
  end.

Definition kindAt (c : AudioContext) (n : Z) : option NodeKind :=
  kindOf <$> nodes c !! n.

(** The node [n] read as a source node, a gain node, a stereo panner. *)
Definition sourceOf (c : AudioContext) (n : Z) : option BufferSource :=
  match nodes c !! n with Some (NSource bs) => Some bs | _ => None end.
Definition gainOf (c : AudioContext) (n : Z) : option Z :=
  match nodes c !! n with Some (NGain g) => Some g | _ => None end.
Definition panOf (c : AudioContext) (n : Z) : option Z :=
  match nodes c !! n with Some (NStereoPanner p) => Some p | _ => None end.
Definition pannerOf (c : AudioContext) (n : Z) : option Panner :=
  match nodes c !! n with Some (NPanner p) => Some p | _ => None end.

(** Identifiers from the counter on are not allocated yet. *)
Definition ctxOk (c : AudioContext) : Prop :=
  ∀ n, nextNode c ≤ n → nodes c !! n = None.

(** The fields of an instance object and of a source node the invariant
    speaks about. *)
Definition instCore (i : Instance) : Z * Z * option Z * option Z * bool * bool * bool :=
  (inst_sourceNode i, inst_gainNode i, inst_pannerNode i, inst_spatialPanner i,
   inst_paused i, inst_stopped i, inst_loop i).
Definition sourceCore (bs : BufferSource) : option (Z * Z) * bool * bool * bool * bool :=
  (bs_onended bs, bs_loop bs, bs_stopped bs, bs_ended bs, isStarted bs).

(** The nodes an instance object refers to have the kinds
    [playAudioInternal] gave them. *)
Definition instNodesOk (c : AudioContext) (i : Instance) : Prop :=
  kindAt c (inst_gainNode i) = Some KGain
  ∧ (∀ pn, inst_pannerNode i = Some pn → kindAt c pn = Some KStereoPanner)
  ∧ (∀ sp, inst_spatialPanner i = Some sp → kindAt c sp = Some KPanner).

(** An entry [handle ↦ l] of the instance table: the object is not
    stopped, and its current source node carries the closure over [l] and
    [handle], agrees with the object on [loop], was started, is stopped
    exactly when the object is paused, and has not ended unless the object
    is paused. *)
Definition entryOk (s : state) (handle l : Z) : Prop :=
  ∃ i bs,
    heap s !! l = Some i
    ∧ inst_stopped i = false
    ∧ sourceOf (audioContext s) (inst_sourceNode i) = Some bs
    ∧ bs_onended bs = Some (l, handle)
    ∧ bs_loop bs = inst_loop i
    ∧ bs_stopped bs = inst_paused i
    ∧ (bs_ended bs = true → inst_paused i = true)
    ∧ isStarted bs = true
    ∧ instNodesOk (audioContext s) i.

(** The closure of a source node: its handle was given out, its object
    is allocated, and the entry of its handle, if there is one, is its
    object. *)
Definition closureOk (s : state) (bs : BufferSource) : Prop :=
  ∀ l handle, bs_onended bs = Some (l, handle) →
    1 ≤ handle < nextInstanceHandle s
    ∧ is_Some (heap s !! l)
    ∧ (∀ l', instances s !! handle = Some l' → l' = l).

(** The handle [handle] is captured by the closure of a source node. *)
Definition captured (s : state) (handle : Z) : Prop :=
  ∃ n bs l, sourceOf (audioContext s) n = Some bs ∧ bs_onended bs = Some (l, handle).

(** The part of the invariant that does not mention the deferred queue. *)
Record wfCore (s : state) : Prop := mkWfCore {
  wf_init : initialized s = true;
  wf_next : 1 ≤ nextInstanceHandle s;
  wf_inst_lt : ∀ h l, instances s !! h = Some l → h < nextInstanceHandle s;
  wf_fin_lt : ∀ h, h ∈ finishedCallbacks s → h < nextInstanceHandle s;
  wf_entry : ∀ h l, instances s !! h = Some l → entryOk s h l;
  wf_closure : ∀ n bs, sourceOf (audioContext s) n = Some bs → closureOk s bs;
  wf_nodes : ctxOk (audioContext s);
  wf_heap : ∀ l, nextObj s ≤ l → heap s !! l = None;
  wf_src : ∀ h src, sources s !! h = Some src → h < nextSourceHandle s ∧ 0 < src_duration src;
  wf_dec : ∀ h, h ∈ decoding s → h < nextSourceHandle s ∧ sources s !! h = None;
  wf_bus : ∀ b bus, buses s !! b = Some bus → kindAt (audioContext s) (bus_gainNode bus) = Some KGain;
  wf_master : kindAt (audioContext s) (masterGain s) = Some KGain
}.

(** The deferred queue: handles given out, pairwise distinct, not in the
    instance table and captured by no closure; start times the host
    accepts; one timeout is scheduled exactly when the queue is not
    empty. *)
Record wfPending (s : state) : Prop := mkWfPending {
  wf_pend_lt : ∀ p, p ∈ pendingPlays s → pp_handle p < nextInstanceHandle s;
  wf_pend_nodup : NoDup (pp_handle <$> pendingPlays s);
  wf_pend_inst : ∀ p, p ∈ pendingPlays s → instances s !! pp_handle p = None;
  wf_pend_fin : ∀ p, p ∈ pendingPlays s → pp_handle p ∉ finishedCallbacks s;
  wf_pend_retries : ∀ p, p ∈ pendingPlays s → 0 ≤ pp_retries p < 10;
  wf_pend_pos : ∀ p, p ∈ pendingPlays s → 1 ≤ pp_handle p;
  wf_pend_closure : ∀ p, p ∈ pendingPlays s → ¬ captured s (pp_handle p);
  wf_pend_start : ∀ p, p ∈ pendingPlays s →
    0 ≤ currentTime (audioContext s) + pa_delay (pp_args p);
  wf_timers : timers s = match pendingPlays s with [] => 0%nat | _ => 1%nat end
}.

Definition wf (s : state) : Prop := wfCore s ∧ wfPending s.

(** ** Definitions used by the statements *)

(** The context and the instance object [resumeAudio] builds. *)
Definition resumeContext (s : state) (h l : Z) (i : Instance) (source : Source) : AudioContext :=
  let n := nextNode (audioContext s) in
  let c := (createBufferSource (audioContext s)).2 in
  let c := setBuffer n (src_buffer source) c in
  let c := setLoop n (inst_loop i) c in
  let c := setPlaybackRate n (inst_pitch i) c in
  let c := connect (resumeLast n i) (inst_gainNode i) (resumeConnect n i c) in
  let c := setOnended n (l, h) c in
  if inst_pauseTime i <? 0 then c else startNode n 0 (inst_pauseTime i) c.

(** The instance object after the resume: new source node, new start
    time, not paused. *)
Definition resumeInstance (s : state) (i : Instance) : Instance :=
  inst_set_startTime (currentTime (audioContext s) - inst_pauseTime i)
    (inst_set_paused false (inst_set_sourceNode (nextNode (audioContext s)) i)).

(** What [stopInstance] and [playAudioInternal] leave alone: everything
    but the table, the instance objects and the nodes. *)
Record sameOutside (s s' : state) : Prop := mkSameOutside {
  so_finished : finishedCallbacks s' = finishedCallbacks s;
  so_pending : pendingPlays s' = pendingPlays s;
  so_timers : timers s' = timers s;
  so_next : nextInstanceHandle s' = nextInstanceHandle s;
  so_sources : sources s' = sources s;
  so_nextSource : nextSourceHandle s' = nextSourceHandle s;
  so_decoding : decoding s' = decoding s;
  so_buses : buses s' = buses s;
  so_nextBus : nextBusHandle s' = nextBusHandle s;
  so_init : initialized s' = initialized s;
  so_master : masterGain s' = masterGain s;
  so_time : currentTime (audioContext s') = currentTime (audioContext s)
}.

(** What a sweep does with a pending request whose source is absent or
    present. *)
Definition sweepKeep (s : state) (p : PendingPlay) : option PendingPlay :=
  match sources s !! pa_sourceHandle (pp_args p) with
  | Some _ => None
  | None =>
      if pp_retries p + 1 <? 10
      then Some (mkPendingPlay (pp_handle p) (pp_args p) (pp_retries p + 1))
      else None
  end.

(** The instance object [playAudioInternal] builds from the arguments [a]
    at clock [now]: its fields, and which panner it has. *)
Definition builtFrom (a : PlayArgs) (now : Z) (i : Instance) : Prop :=
  inst_sourceHandle i = pa_sourceHandle a
  ∧ inst_busHandle i = pa_busHandle a
  ∧ inst_startTime i = now + pa_delay a
  ∧ inst_pauseTime i = 0
  ∧ inst_paused i = false
  ∧ inst_stopped i = false
  ∧ inst_loop i = pa_loop a
  ∧ inst_volume i = pa_volume a
  ∧ inst_pitch i = pa_pitch a
  ∧ inst_hasCallback i = pa_hasCallback a
  ∧ (inst_spatialPanner i = None ↔ pa_isSpatial a = false)
  ∧ (inst_pannerNode i = None ↔ pa_isSpatial a = true ∨ pa_pan a = 0).

(** What the sweep needs of a request waiting: a handle given out,
    naming no entry, captured by no closure, and a start time the host
    accepts. *)
Definition waitingOk (s : state) (p : PendingPlay) : Prop :=
  1 ≤ pp_handle p < nextInstanceHandle s
  ∧ instances s !! pp_handle p = None
  ∧ ¬ captured s (pp_handle p)
  ∧ 0 ≤ currentTime (audioContext s) + pa_delay (pp_args p).

(** The requests of a list that the sweep promotes. *)
Definition promoted (s : state) (ps : list PendingPlay) (h : Z) : Prop :=
  ∃ p, p ∈ ps ∧ pp_handle p = h
    ∧ is_Some (sources s !! pa_sourceHandle (pp_args p))
    ∧ pannerRejected (pp_args p) = false.

(** The state after the handler of the node [n], a closure over the handle
    [h] and an instance [i] neither stopped nor looping, has run: the node
    is marked, the handle is queued when the instance has a callback, and
    the entry of the handle is deleted. *)
Definition endedState (s : state) (n h : Z) (i : Instance) : state :=
  set_instances (delete h)
    ((if inst_hasCallback i
      then set_finishedCallbacks (finishedCallbacks s ++ [h])
      else id) (set_audioContext (markEnded n) s)).

(** The closure of the node [n], if it is a source node with one. *)
Definition closureOf (c : AudioContext) (n : Z) : option (Z * Z) :=
  match sourceOf c n with Some bs => bs_onended bs | None => None end.

(** The steps other than [playAudio] and the sweep keep the deferred
    queue, give out no instance handle, create no entry and capture no new
    handle; a handle they push on the finished queue is captured by a
    closure; the clock does not go back. *)
Record quiet (s s' : state) : Prop := mkQuiet {
  q_pending : pendingPlays s' = pendingPlays s;
  q_timers : timers s' = timers s;
  q_next : nextInstanceHandle s' = nextInstanceHandle s;
  q_inst : ∀ h, instances s !! h = None → instances s' !! h = None;
  q_fin : ∀ x, x ∈ finishedCallbacks s' → x ∈ finishedCallbacks s ∨ captured s x;
  q_captured : ∀ h, captured s' h → captured s h;
  q_time : currentTime (audioContext s) ≤ currentTime (audioContext s')
}.

(** The events that change the deferred queue. *)
Definition touchesQueue (e : event) : bool :=
  match e with PlayAudio _ | TimerFired => true | _ => false end.

(** Example states: source 1 holds a buffer (7) of duration 10; it is
    played once, resp. looping, as instance 1 on the master bus. *)
Definition exArgs : PlayArgs := mkPlayArgs 1 0 1 0 1 false 0 false 0 0 1 100 true.
Definition exLoopArgs : PlayArgs := mkPlayArgs 1 0 1 0 1 true 0 false 0 0 1 100 true.
Definition exLoaded : state := run started [LoadAudio; DecodeResolved 1 7 10].
Definition exPlaying : state := run exLoaded [PlayAudio exArgs; Advance 3].
Definition exLooping : state := run exLoaded [PlayAudio exLoopArgs; Advance 13].

(** The same plays, the source being destroyed right after the call. *)
Definition exDestroyed : state :=
  run exLoaded [PlayAudio exArgs; DestroyAudio 1; Advance 3].
Definition exLoopDestroyed : state :=
  run exLoaded [PlayAudio exLoopArgs; DestroyAudio 1; Advance 13].

(** Plays with a delay before the start. *)
Definition exDelayArgs : PlayArgs := mkPlayArgs 1 0 1 0 1 false 5 false 0 0 1 100 true.
Definition exLoopDelayArgs : PlayArgs := mkPlayArgs 1 0 1 0 1 true 10 false 0 0 1 100 true.
Definition exDelayed : state := run exLoaded [PlayAudio exDelayArgs; Advance 2].
Definition exLoopDelayed : state := run exLoaded [PlayAudio exLoopDelayArgs].

(** A bus of volume 40. *)
Definition exBus : state :=
  run started [CreateAudioBus; SetAudioBusVolume 2 40].



(** A non-spatial play with pan 3. *)
Definition exPanArgs : PlayArgs := mkPlayArgs 1 0 1 3 1 false 0 false 0 0 1 100 true.



(** A play of a buffer of ten with its callback, paused four ticks into
    the buffer: node 2 is the source node of the instance, node 4 the one a
    resume creates. *)
Definition exPausedTrace : list event :=
  [LoadAudio; DecodeResolved 1 7 10; PlayAudio exArgs; Advance 4; PauseAudio 1].





(** A play of source handle 9, never loaded. *)
Definition exGhostArgs : PlayArgs := mkPlayArgs 9 0 1 0 1 false 0 false 0 0 1 100 true.












(** The bus registry along the steps: handles come from the counter, which
    starts at 2, and bus 1 is the master bus. *)
Definition busesOk (s : state) : Prop :=
  2 ≤ nextBusHandle s
  ∧ (∀ b bus, buses s !! b = Some bus → 1 ≤ b < nextBusHandle s)
  ∧ (∃ bus, buses s !! 1 = Some bus ∧ bus_gainNode bus = masterGain s).

(** Instance handles are positive wherever they are held. *)
Definition handlesPos (s : state) : Prop :=
  (∀ h l, instances s !! h = Some l → 1 ≤ h)
  ∧ (∀ h, h ∈ finishedCallbacks s → 1 ≤ h)
  ∧ (∀ p, p ∈ pendingPlays s → 1 ≤ pp_handle p).

(** [b ? 1 : 0] and [x | 0] (the conversion to a 32-bit signed integer). *)
Definition boolToInt (b : bool) : Z := if b then 1 else 0.
Definition toInt32 (x : Z) : Z := (x + 2 ^ 31) mod 2 ^ 32 - 2 ^ 31.

Definition js_audio_init (s : state) : Z * state :=
  (boolToInt (init s).1, (init s).2).

Definition js_is_audio_playing (s : state) (instance : Z) : Z :=
  boolToInt (isAudioPlaying s instance).

Definition js_is_audio_paused (s : state) (instance : Z) : Z :=
  boolToInt (isAudioPaused s instance).

Definition js_poll_finished_callback (s : state) : Z * state :=
  (toInt32 (pollFinishedCallback s).1, (pollFinishedCallback s).2).

(** [n] calls of [pollFinishedCallback] in a row: the values returned, in
    the order of the calls, and the state after the last one. *)
Fixpoint pollMany (n : nat) (s : state) : list Z * state :=
  match n with
  | O => ([], s)
  | S n =>
      let r := pollFinishedCallback s in
      let rs := pollMany n r.2 in
      (r.1 :: rs.1, rs.2)
  end.

(** Example traces. *)
Definition exTwoFinished : list event :=
  [LoadAudio; DecodeResolved 1 7 10; PlayAudio exArgs; PlayAudio exArgs; Advance 10;
   Ended 4; Ended 2].

(** A trace with an instance playing, one paused and a request waiting for
    its source. *)
Definition exMixed : list event :=
  [LoadAudio; DecodeResolved 1 7 10; PlayAudio exArgs; PlayAudio exArgs; PauseAudio 2;
   PlayAudio exGhostArgs].

(** A play of the loaded source on bus 2. *)
Definition exBusArgs : PlayArgs := mkPlayArgs 1 2 1 0 1 false 0 false 0 0 1 100 true.

(** A trace with an instance on the master bus and one on bus 2. *)
Definition exTwoBuses : list event :=
  [LoadAudio; DecodeResolved 1 7 10; CreateAudioBus; PlayAudio exArgs; PlayAudio exBusArgs].

(** [loadAudio(data, isStream)], an [async] function, in its two parts.
    At the call it gives up with 0 when the engine is not initialized
    ([loadAudioCall] is the value returned then).  When [decodeAudioData]
    has settled it goes on, on the state of that moment: a rejected decode
    is logged and gives 0, a decoded buffer ([decoded] holds the buffer and
    its duration) is registered under the next source handle. *)
Definition loadAudioCall (s : state) : option Z :=
  if negb (initialized s) then Some 0 else None.

Definition loadAudioSettled (s : state) (decoded : option (Z * Z)) : Z * state :=
  match decoded with
  | None => (0, s)
  | Some (buffer, duration) =>
      let handle := nextSourceHandle s in
      (handle, set_sources (<[handle := mkSource buffer duration]>)
                 (set_nextSourceHandle (handle + 1) s))
  end.

(** A looping play of the loaded source, fourteen ticks on. *)
Definition exLoopTrace : list event :=
  [LoadAudio; DecodeResolved 1 7 10; PlayAudio exLoopArgs; Advance 14].

(** A looping play with its callback, twenty-five ticks on. *)
Definition exLoopCallback : list event :=
  [LoadAudio; DecodeResolved 1 7 10; PlayAudio exLoopArgs; Advance 25].

(** [_js_audio_init] on a host that builds the context ([hostAudio]) or
    whose constructor raises. *)
Definition js_audio_init_in (hostAudio : bool) (s : state) : Z * state :=
  (boolToInt (init_in hostAudio s).1, (init_in hostAudio s).2).

(** A spatial play of the loaded source. *)
Definition exSpatialArgs : PlayArgs := mkPlayArgs 1 0 1 0 1 false 0 true 3 4 1 100 true.
Definition exSpatialTrace : list event :=
  [LoadAudio; DecodeResolved 1 7 10; PlayAudio exArgs; PlayAudio exSpatialArgs; Advance 2].

(** Two requests waiting, the source of the second one being loaded
    meanwhile. *)
Definition exLateArgs : PlayArgs := mkPlayArgs 2 0 1 0 1 false 0 false 0 0 1 100 true.
Definition exTwoWaiting : list event :=
  [PlayAudio exGhostArgs; LoadAudio; LoadAudio; PlayAudio exLateArgs; PlayAudio exGhostArgs;
   DecodeResolved 2 7 10].

(** The engine restarted: [shutdown], then [init] on a host that builds the
    context. *)
Definition restart (s : state) : state := (init (shutdown s)).2.

(** A play of source 1 before it is loaded, a restart, the load of a
    source, which gets handle 1 again, and a play of it. *)
Definition exRestarted : state :=
  run (restart (run started [PlayAudio exArgs]))
    [LoadAudio; DecodeResolved 1 7 10; PlayAudio exArgs].

(** * Properties *)

Lemma init_eq s : initialized s = true → init s = (true, s).
Proof. intros E. unfold init, init_in. by rewrite E. Qed.

Lemma js_load_audio_eq s :
  initialized s = true →
  js_load_audio s
  = (nextSourceHandle s,
     set_decoding (λ d, {[nextSourceHandle s]} ∪ d)
       (set_nextSourceHandle (nextSourceHandle s + 1) s)).
Proof. intros E. unfold js_load_audio, js_load_audio_in. cbn [negb]. rewrite E. cbn. by rewrite E. Qed.

(** ** The node store under the primitives of the context *)

Section NodeStore.
Context (c : AudioContext) (n0 n : Z).

Lemma nodes_alter (g : AudioNode → AudioNode) :
  nodes (set_nodes (alter g n0) c) !! n
  = if decide (n0 = n) then g <$> nodes c !! n else nodes c !! n.
Proof. cbn. rewrite lookup_alter. by case_decide; subst. Qed.

Lemma sourceOf_updSource f :
  sourceOf (updSource f n0 c) n
  = if decide (n0 = n) then f <$> sourceOf c n else sourceOf c n.
Proof.
  unfold sourceOf, updSource. rewrite nodes_alter.
  case_decide; [|done]. by destruct (nodes c !! n) as [[]|].
Qed.

Lemma kindAt_alter g :
  (∀ nd, kindOf (g nd) = kindOf nd) →
  kindAt (set_nodes (alter g n0) c) n = kindAt c n.
Proof.
  intros Hg. unfold kindAt. rewrite nodes_alter.
  case_decide; [|done]. destruct (nodes c !! n); cbn; [|done]. by rewrite Hg.
Qed.

Lemma kindAt_updSource f : kindAt (updSource f n0 c) n = kindAt c n.
Proof. apply kindAt_alter. by intros []. Qed.
Lemma kindAt_onGain f : kindAt (set_nodes (alter (onGain f) n0) c) n = kindAt c n.
Proof. apply kindAt_alter. by intros []. Qed.
Lemma kindAt_onStereo f : kindAt (set_nodes (alter (onStereo f) n0) c) n = kindAt c n.
Proof. apply kindAt_alter. by intros []. Qed.
Lemma kindAt_onPanner f : kindAt (set_nodes (alter (onPanner f) n0) c) n = kindAt c n.
Proof. apply kindAt_alter. by intros []. Qed.

Lemma sourceOf_onGain f : sourceOf (set_nodes (alter (onGain f) n0) c) n = sourceOf c n.
Proof.
  unfold sourceOf. rewrite nodes_alter.
  case_decide; [|done]. by destruct (nodes c !! n) as [[]|].
Qed.
Lemma sourceOf_onStereo f : sourceOf (set_nodes (alter (onStereo f) n0) c) n = sourceOf c n.
Proof.
  unfold sourceOf. rewrite nodes_alter.
  case_decide; [|done]. by destruct (nodes c !! n) as [[]|].
Qed.
Lemma sourceOf_onPanner f : sourceOf (set_nodes (alter (onPanner f) n0) c) n = sourceOf c n.
Proof.
  unfold sourceOf. rewrite nodes_alter.
  case_decide; [|done]. by destruct (nodes c !! n) as [[]|].
Qed.

Lemma gainOf_onGain f :
  gainOf (set_nodes (alter (onGain f) n0) c) n
  = if decide (n0 = n) then f <$> gainOf c n else gainOf c n.
Proof.
  unfold gainOf. rewrite nodes_alter.
  case_decide; [|done]. by destruct (nodes c !! n) as [[]|].
Qed.

Lemma sourceOf_nodes bs : sourceOf c n = Some bs ↔ nodes c !! n = Some (NSource bs).
Proof.
  unfold sourceOf. destruct (nodes c !! n) as [[]|]; split; try done; by intros [= ->].
Qed.

Lemma ctxOk_alter g : ctxOk c → ctxOk (set_nodes (alter g n0) c).
Proof.
  intros H m Hm. cbn in *. rewrite lookup_alter_None. by apply H.
Qed.

Lemma ctxOk_edges f : ctxOk c → ctxOk (set_edges f c).
Proof. intros H m Hm. by apply H. Qed.

Lemma ctxOk_createNode nd : ctxOk c → ctxOk (createNode nd c).2.
Proof.
  intros H m Hm. cbn in *. rewrite lookup_insert_ne by lia. apply H. lia.
Qed.

Lemma nodes_createNode nd :
  nodes (createNode nd c).2 !! n
  = if decide (nextNode c = n) then Some nd else nodes c !! n.
Proof. cbn. apply lookup_insert. Qed.

Lemma ctxOk_lt nd : ctxOk c → nodes c !! n = Some nd → n < nextNode c.
Proof.
  intros H Hn. destruct (Z_lt_le_dec n (nextNode c)) as [|Hle]; [done|].
  rewrite (H _ Hle) in Hn. done.
Qed.

Lemma kindAt_lt k : ctxOk c → kindAt c n = Some k → n < nextNode c.
Proof.
  unfold kindAt. intros H Hn. destruct (nodes c !! n) eqn:E; [|done].
  by eapply ctxOk_lt.
Qed.

Lemma sourceOf_lt bs : ctxOk c → sourceOf c n = Some bs → n < nextNode c.
Proof.
  unfold sourceOf. intros H Hn. destruct (nodes c !! n) eqn:E; [|done].
  by eapply ctxOk_lt.
Qed.
End NodeStore.

(** ** [playAudioInternal] *)

Ltac map_simp :=
  repeat first
    [ rewrite lookup_insert_eq
    | rewrite lookup_alter_eq
    | rewrite lookup_delete_eq
    | rewrite lookup_insert_ne by lia
    | rewrite lookup_alter_ne by lia
    | rewrite lookup_delete_ne by lia ].

Ltac st_simpl :=
  cbn [audioContext masterGain initialized nextSourceHandle nextInstanceHandle
       nextBusHandle sources instances buses finishedCallbacks pendingPlays
       listenerX listenerY heap nextObj timers decoding
       set_audioContext set_nextSourceHandle set_nextInstanceHandle set_nextBusHandle
       set_sources set_instances set_buses set_finishedCallbacks set_pendingPlays
       set_listenerXY set_heap set_nextObj set_timers set_decoding fst snd].

Ltac st_simpl_in H :=
  cbn [audioContext masterGain initialized nextSourceHandle nextInstanceHandle
       nextBusHandle sources instances buses finishedCallbacks pendingPlays
       listenerX listenerY heap nextObj timers decoding
       set_audioContext set_nextSourceHandle set_nextInstanceHandle set_nextBusHandle
       set_sources set_instances set_buses set_finishedCallbacks set_pendingPlays
       set_listenerXY set_heap set_nextObj set_timers set_decoding fst snd] in H.

(** The paths of [playAudioInternal]: no context, a panner configuration
    refused, and the three shapes of the chain, each with the start time
    refused or accepted. *)
Ltac play_split a :=
  destruct (pa_isSpatial a) eqn:?; [|destruct (negb (pa_pan a =? 0)) eqn:?]; cbn;
  repeat match goal with
         | |- context [if ?x <? 0 then _ else _] => destruct (x <? 0) eqn:?; cbn
         end.

Ltac play_all s a :=
  unfold playAudioInternal, buildPanner, rejectedPanner;
  destruct (initialized s) eqn:?; cbn [negb];
  [destruct (pannerRejected a) eqn:?;
   [destruct (pa_minDistance a <? 0) eqn:?; cbn|play_split a]|].

Ltac play_cases a Hinit Hacc :=
  unfold playAudioInternal, buildPanner; rewrite Hinit, Hacc; cbn [negb];
  play_split a.

Section PlayAny.
Context (s : state) (h : Z) (a : PlayArgs) (src : Source).
Let c := audioContext s.
Let s' := playAudioInternal s h a src.
Let c' := audioContext s'.

Lemma playAudioInternal_currentTime : currentTime c' = currentTime c.
Proof.
  subst c' s' c. by play_all s a.
Qed.

Lemma playAudioInternal_nodes n : n < nextNode c → nodes c' !! n = nodes c !! n.
Proof.
  intros Hn. subst c' s' c. play_all s a; by map_simp.
Qed.

Lemma playAudioInternal_nextNode : nextNode c ≤ nextNode c'.
Proof.
  subst c' s' c. play_all s a; lia.
Qed.

Lemma playAudioInternal_ctxOk : ctxOk c → ctxOk c'.
Proof.
  intros Hok n. subst c' s' c. play_all s a; intros Hn; map_simp.
  all: rewrite ?lookup_alter_None; map_simp; apply Hok; lia.
Qed.

Lemma playAudioInternal_sourceOf_old n bs :
  ctxOk c → sourceOf c n = Some bs → sourceOf c' n = Some bs.
Proof.
  intros Hok Hn. pose proof (sourceOf_lt _ _ _ Hok Hn) as Hlt.
  unfold sourceOf in *. by rewrite playAudioInternal_nodes.
Qed.

Lemma playAudioInternal_kindAt_old n k :
  ctxOk c → kindAt c n = Some k → kindAt c' n = Some k.
Proof.
  intros Hok Hn. pose proof (kindAt_lt _ _ _ Hok Hn) as Hlt.
  unfold kindAt in *. by rewrite playAudioInternal_nodes.
Qed.

(** Without a context, and when the panner configuration is refused,
    nothing of the engine but the node store changes, and the nodes left
    behind carry no closure. *)
Lemma playAudioInternal_refused :
  initialized s = false ∨ pannerRejected a = true →
  ∃ c1, s' = set_audioContext (λ _, c1) s
    ∧ (∀ n bs, ctxOk c → sourceOf c1 n = Some bs →
         sourceOf c n = Some bs ∨ bs_onended bs = None).
Proof.
  intros Hr. subst s' c. unfold playAudioInternal.
  destruct (initialized s) eqn:Hi; cbn [negb].
  2: { exists (audioContext s). split; [by destruct s|]. intros; by left. }
  destruct Hr as [|Hr]; [done|]. rewrite Hr. eexists. split; [reflexivity|].
  intros n bs Hok. unfold rejectedPanner, sourceOf. cbn.
  destruct (pa_minDistance a <? 0); cbn.
  all: repeat (rewrite lookup_alter; case_decide; subst; map_simp; cbn).
  all: repeat (rewrite lookup_insert; case_decide; subst; map_simp; cbn); try done.
  all: try (intros [= <-]; by right).
  all: try (intros ?; by left).
  all: try (rewrite Hok by lia; done).
Qed.
End PlayAny.

Section PlayInternal.
Context (s : state) (h : Z) (a : PlayArgs) (src : Source).
Context (Hinit : initialized s = true) (Hacc : pannerRejected a = false).
Let c := audioContext s.
Let s' := playAudioInternal s h a src.
Let c' := audioContext s'.

Lemma playAudioInternal_nextNode_lt : nextNode c < nextNode c'.
Proof. subst c' s' c. play_cases a Hinit Hacc; lia. Qed.

Lemma playAudioInternal_source :
  sourceOf c' (nextNode c)
  = Some (mkBufferSource (Some (src_buffer src)) (pa_loop a) (pa_pitch a)
            (if currentTime c + pa_delay a <? 0 then None
             else Some (currentTime c + pa_delay a, 0))
            false false (Some (nextObj s, h))).
Proof. subst c' s' c. unfold sourceOf. play_cases a Hinit Hacc; by map_simp. Qed.

Lemma playAudioInternal_source_new n :
  ctxOk c → nextNode c < n → sourceOf c' n = None.
Proof.
  intros Hok Hn. subst c' s' c. unfold sourceOf. play_cases a Hinit Hacc; map_simp.
  all: repeat (rewrite lookup_alter; case_decide; subst; map_simp; cbn).
  all: repeat (rewrite lookup_insert; case_decide; subst; map_simp; cbn); try done.
  all: by rewrite Hok by lia.
Qed.

Lemma playAudioInternal_heap :
  ∃ i, heap s' = <[nextObj s := i]> (heap s)
    ∧ inst_sourceHandle i = pa_sourceHandle a
    ∧ inst_sourceNode i = nextNode c
    ∧ inst_gainNode i = nextNode c + 1
    ∧ inst_outputNode i = resolveOutput s (pa_busHandle a)
    ∧ inst_busHandle i = pa_busHandle a
    ∧ inst_startTime i = currentTime c + pa_delay a
    ∧ inst_pauseTime i = 0
    ∧ inst_paused i = false
    ∧ inst_stopped i = false
    ∧ inst_loop i = pa_loop a
    ∧ inst_volume i = pa_volume a
    ∧ inst_pitch i = pa_pitch a
    ∧ inst_hasCallback i = pa_hasCallback a
    ∧ inst_pannerNode i
      = (if pa_isSpatial a then None
         else if negb (pa_pan a =? 0) then Some (nextNode c + 2) else None)
    ∧ inst_spatialPanner i
      = (if pa_isSpatial a then Some (nextNode c + 2) else None)
    ∧ instNodesOk c' i.
Proof.
  subst c' s' c. unfold instNodesOk, kindAt.
  play_cases a Hinit Hacc; eexists; (split; [reflexivity|]); cbn; map_simp; cbn.
  all: repeat split; try done; try (intros ? [= <-]; by map_simp).
  all: f_equal; lia.
Qed.

Lemma playAudioInternal_sourceOf_inv n bs :
  ctxOk c → sourceOf c' n = Some bs →
  (n < nextNode c ∧ sourceOf c n = Some bs)
  ∨ (n = nextNode c ∧ bs_onended bs = Some (nextObj s, h) ∧ bs_stopped bs = false).
Proof.
  intros Hok Hn. destruct (Z.lt_trichotomy n (nextNode c)) as [Hlt|[->|Hgt]].
  - left. split; [done|]. unfold sourceOf in *. subst c' s' c.
    by rewrite playAudioInternal_nodes in Hn.
  - right. rewrite playAudioInternal_source in Hn. by injection Hn as <-.
  - by rewrite playAudioInternal_source_new in Hn.
Qed.

Lemma playAudioInternal_instances : instances s' = <[h := nextObj s]> (instances s).
Proof. subst s'. by play_cases a Hinit Hacc. Qed.
End PlayInternal.

(** The table and the objects, on every path. *)
Lemma playAudioInternal_table s h a src :
  let s' := playAudioInternal s h a src in
  instances s' = (if initialized s && negb (pannerRejected a)
                  then <[h := nextObj s]> (instances s) else instances s)
  ∧ (∀ l, l ≠ nextObj s → heap s' !! l = heap s !! l)
  ∧ finishedCallbacks s' = finishedCallbacks s
  ∧ pendingPlays s' = pendingPlays s ∧ timers s' = timers s
  ∧ nextInstanceHandle s' = nextInstanceHandle s ∧ sources s' = sources s
  ∧ nextSourceHandle s' = nextSourceHandle s ∧ decoding s' = decoding s
  ∧ buses s' = buses s ∧ nextBusHandle s' = nextBusHandle s
  ∧ initialized s' = initialized s ∧ masterGain s' = masterGain s.
Proof.
  cbn zeta. play_all s a; split_and!; try done; intros l Hl; by rewrite lookup_insert_ne.
Qed.

(** The closures after [playAudioInternal]: those there were, and the one
    over the handle played. *)
Lemma playAudioInternal_captured s h a src h' :
  ctxOk (audioContext s) →
  captured (playAudioInternal s h a src) h' → captured s h' ∨ h' = h.
Proof.
  intros Hok (n & bs & l & Hs & Ho).
  destruct (initialized s) eqn:Hinit; [destruct (pannerRejected a) eqn:Hacc|].
  - destruct (playAudioInternal_refused s h a src (or_intror Hacc)) as (c1 & E & Hc1).
    rewrite E in Hs. st_simpl_in Hs.
    destruct (Hc1 n bs Hok Hs) as [Hs'|Hn]; [|congruence]. left. by exists n, bs, l.
  - destruct (playAudioInternal_sourceOf_inv _ _ _ _ Hinit Hacc _ _ Hok Hs)
      as [[? Hn']|(-> & Ho' & ?)].
    + left. by exists n, bs, l.
    + rewrite Ho' in Ho. injection Ho as <- <-. by right.
  - destruct (playAudioInternal_refused s h a src (or_introl Hinit)) as (c1 & E & Hc1).
    rewrite E in Hs. st_simpl_in Hs.
    destruct (Hc1 n bs Hok Hs) as [Hs'|Hn]; [|congruence]. left. by exists n, bs, l.
Qed.

Lemma captured_playAudioInternal s h a src h' :
  ctxOk (audioContext s) →
  captured s h' → captured (playAudioInternal s h a src) h'.
Proof.
  intros Hok (n & bs & l & Hs & Ho). exists n, bs, l. split; [|done].
  by apply playAudioInternal_sourceOf_old.
Qed.

Lemma instNodesOk_mono c c' i :
  (∀ n k, kindAt c n = Some k → kindAt c' n = Some k) →
  instNodesOk c i → instNodesOk c' i.
Proof. intros H (?&?&?). repeat split; eauto. Qed.

(** The invariant through [playAudioInternal]: the handle is given out,
    names no entry and is captured by no closure, and the start time is one
    the host accepts. *)
Lemma wfCore_playAudioInternal s h a src :
  wfCore s → 1 ≤ h < nextInstanceHandle s → instances s !! h = None →
  ¬ captured s h →
  0 ≤ currentTime (audioContext s) + pa_delay a →
  wfCore (playAudioInternal s h a src).
Proof.
  intros Hwf Hlt Hfresh Hnocl' Hstart.
  assert (∀ n bs l, sourceOf (audioContext s) n = Some bs → bs_onended bs ≠ Some (l, h))
    as Hnocl.
  { intros n bs l Hs Ho. apply Hnocl'. by exists n, bs, l. }
  pose proof (wf_nodes _ Hwf) as Hok. pose proof (wf_init _ Hwf) as Hinit.
  destruct (pannerRejected a) eqn:Hacc.
  { destruct (playAudioInternal_refused s h a src (or_intror Hacc)) as (c1 & E & Hc1).
    pose proof (playAudioInternal_ctxOk s h a src Hok) as Hok'.
    pose proof (playAudioInternal_sourceOf_old s h a src) as Hold.
    pose proof (playAudioInternal_kindAt_old s h a src) as Hkold.
    rewrite E in Hok', Hold, Hkold |- *. st_simpl_in Hok'. st_simpl_in Hold. st_simpl_in Hkold.
    split; try apply Hwf; st_simpl.
    - intros h' l' Hl.
      destruct (wf_entry _ Hwf _ _ Hl) as (i' & bs & Hh & ? & Hs & ? & ? & ? & ? & ? & Hk).
      exists i', bs. split_and!; try done; [by apply Hold|].
      eapply instNodesOk_mono; [|done]. intros. by apply Hkold.
    - intros n bs Hn l' h' Ho. destruct (Hc1 n bs Hok Hn) as [Hn'|Hn']; [|congruence].
      by apply (wf_closure _ Hwf _ _ Hn').
    - done.
    - intros. apply Hkold; [done|]. by eapply wf_bus.
    - apply Hkold; [done|]. apply Hwf. }
  destruct (playAudioInternal_heap s h a src Hinit Hacc)
    as (i & Hheap & _ & Hsn & _ & _ & _ & _ & _ & Hpaused & Hstopped & Hloop & _ & _ & _ & _ & _ & Hkinds).
  pose proof (playAudioInternal_instances s h a src Hinit Hacc) as Hinst.
  assert (∀ s1, nextInstanceHandle (playAudioInternal s1 h a src) = nextInstanceHandle s1)
    as Hnext.
  { intros s1. play_all s1 a; done. }
  split.
  - revert Hinit. clear. play_all s a; done.
  - rewrite Hnext. apply Hwf.
  - intros h' l'. rewrite Hinst, Hnext, lookup_insert_Some.
    intros [[<- <-]|[_ Hl]]; [lia|]. exact (wf_inst_lt _ Hwf _ _ Hl).
  - rewrite Hnext. assert (finishedCallbacks (playAudioInternal s h a src) = finishedCallbacks s)
      as -> by (play_all s a; done). apply Hwf.
  - intros h' l'. rewrite Hinst, lookup_insert_Some.
    intros [[<- <-]|[Hne Hl]].
    + exists i. eexists. rewrite Hheap, lookup_insert_eq, Hsn.
      split; [done|]. split; [done|]. split; [by apply playAudioInternal_source|].
      apply Z.ltb_ge in Hstart. rewrite Hstart.
      unfold isStarted. cbn. rewrite Hloop, Hpaused. by split_and!.
    + destruct (wf_entry _ Hwf _ _ Hl) as (i' & bs & Hh & ? & Hs & ? & ? & ? & ? & ? & Hk).
      exists i', bs. rewrite Hheap.
      rewrite lookup_insert_ne by (intros <-; by rewrite (wf_heap _ Hwf) in Hh).
      split_and!; try done.
      * by apply playAudioInternal_sourceOf_old.
      * eapply instNodesOk_mono; [|done]. intros. by apply playAudioInternal_kindAt_old.
  - intros n bs Hn l' h' Ho.
    destruct (playAudioInternal_sourceOf_inv _ _ _ _ Hinit Hacc _ _ Hok Hn)
      as [[? Hn']|(-> & Ho' & ?)].
    + destruct (wf_closure _ Hwf _ _ Hn' _ _ Ho) as (Hr & [i' Hh] & Hu).
      rewrite Hnext, Hinst, Hheap. split; [done|]. split.
      * rewrite lookup_insert_ne by (intros <-; by rewrite (wf_heap _ Hwf) in Hh). by exists i'.
      * intros l2. rewrite lookup_insert_Some. intros [[<- <-]|[_ Hl2]]; [|by apply Hu].
        by destruct (Hnocl _ _ _ Hn' Ho).
    + rewrite Ho' in Ho. injection Ho as <- <-. rewrite Hnext, Hinst, Hheap.
      split; [done|]. split; [rewrite lookup_insert_eq; by eexists|].
      intros l2. rewrite lookup_insert_eq. by intros [= <-].
  - by apply playAudioInternal_ctxOk.
  - intros l Hl. rewrite Hheap.
    assert (nextObj (playAudioInternal s h a src) = nextObj s + 1) as E
      by (revert Hinit Hacc; clear; intros; by play_cases a Hinit Hacc).
    rewrite E in Hl. rewrite lookup_insert_ne by lia.
    apply (wf_heap _ Hwf). lia.
  - assert (sources (playAudioInternal s h a src) = sources s
            ∧ nextSourceHandle (playAudioInternal s h a src) = nextSourceHandle s) as [-> ->]
      by (play_all s a; done). apply Hwf.
  - assert (sources (playAudioInternal s h a src) = sources s
            ∧ nextSourceHandle (playAudioInternal s h a src) = nextSourceHandle s
            ∧ decoding (playAudioInternal s h a src) = decoding s) as (-> & -> & ->)
      by (play_all s a; done). apply Hwf.
  - assert (buses (playAudioInternal s h a src) = buses s) as -> by (play_all s a; done).
    intros. apply playAudioInternal_kindAt_old; [done|]. by eapply wf_bus.
  - assert (masterGain (playAudioInternal s h a src) = masterGain s) as ->
      by (play_all s a; done).
    apply playAudioInternal_kindAt_old; [done|]. apply Hwf.
Qed.

(** ** Steps that leave the instance table alone *)

Lemma kindAt_None c n : kindAt c n = None ↔ nodes c !! n = None.
Proof. unfold kindAt. by destruct (nodes c !! n). Qed.

Lemma sourceOf_kindAt c n bs : sourceOf c n = Some bs → kindAt c n = Some KSource.
Proof. unfold sourceOf, kindAt. by destruct (nodes c !! n) as [[]|]. Qed.

(** An entry and a closure survive changes outside the fields the
    invariant speaks about. *)
Lemma entryOk_frame s s' h l :
  entryOk s h l →
  (∀ l, instCore <$> heap s' !! l = instCore <$> heap s !! l) →
  (∀ n, sourceCore <$> sourceOf (audioContext s') n
        = sourceCore <$> sourceOf (audioContext s) n) →
  (∀ n k, kindAt (audioContext s) n = Some k → kindAt (audioContext s') n = Some k) →
  entryOk s' h l.
Proof.
  intros (i & bs & Hh & Hst & Hs & Ho & Hlo & Hsp & He & Hsta & Hk) Hheap Hsrc Hkind.
  specialize (Hheap l). rewrite Hh in Hheap.
  destruct (heap s' !! l) as [i'|] eqn:Hh'; [|done].
  injection Hheap as Hsn Hg Hp Hsp' Hpa Hstp Hloop.
  specialize (Hsrc (inst_sourceNode i)). rewrite Hs in Hsrc.
  destruct (sourceOf (audioContext s') (inst_sourceNode i)) as [bs'|] eqn:Hs'; [|done].
  injection Hsrc as Ho' Hlo' Hsp'' He' Hsta'.
  exists i', bs'. rewrite Hsn. split_and!; try congruence.
  { rewrite He', Hpa. exact He. }
  destruct Hk as (Hk1 & Hk2 & Hk3). split_and!.
  - rewrite Hg. by apply Hkind.
  - intros pn. rewrite Hp. intros. by apply Hkind, Hk2.
  - intros sp. rewrite Hsp'. intros. by apply Hkind, Hk3.
Qed.

Lemma closureOk_frame s s' n bs' :
  (∀ n bs, sourceOf (audioContext s) n = Some bs → closureOk s bs) →
  sourceOf (audioContext s') n = Some bs' →
  instances s' = instances s →
  nextInstanceHandle s ≤ nextInstanceHandle s' →
  (∀ l, instCore <$> heap s' !! l = instCore <$> heap s !! l) →
  (∀ n, sourceCore <$> sourceOf (audioContext s') n
        = sourceCore <$> sourceOf (audioContext s) n) →
  closureOk s' bs'.
Proof.
  intros Hcl Hs' Hinst Hnext Hheap Hsrc l h Ho.
  specialize (Hsrc n). rewrite Hs' in Hsrc.
  destruct (sourceOf (audioContext s) n) as [bs|] eqn:Hs; [|done].
  injection Hsrc as Ho' Hlo' Hsp' He' Hsta'.
  destruct (Hcl _ _ Hs l h) as (Hr & [i Hh] & Hu); [congruence|].
  specialize (Hheap l). rewrite Hh in Hheap. rewrite Hinst.
  split; [lia|]. split; [|done]. by destruct (heap s' !! l).
Qed.

Lemma wfCore_frame s s' :
  wfCore s →
  initialized s' = initialized s →
  nextInstanceHandle s ≤ nextInstanceHandle s' →
  instances s' = instances s →
  (∀ h, h ∈ finishedCallbacks s' → h ∈ finishedCallbacks s) →
  (∀ l, instCore <$> heap s' !! l = instCore <$> heap s !! l) →
  nextObj s' = nextObj s →
  (∀ n, sourceCore <$> sourceOf (audioContext s') n
        = sourceCore <$> sourceOf (audioContext s) n) →
  (∀ n k, kindAt (audioContext s) n = Some k → kindAt (audioContext s') n = Some k) →
  ctxOk (audioContext s') →
  (∀ h src, sources s' !! h = Some src → h < nextSourceHandle s' ∧ 0 < src_duration src) →
  (∀ h, h ∈ decoding s' → h < nextSourceHandle s' ∧ sources s' !! h = None) →
  (∀ b bus', buses s' !! b = Some bus' →
     kindAt (audioContext s') (bus_gainNode bus') = Some KGain) →
  masterGain s' = masterGain s →
  wfCore s'.
Proof.
  intros Hwf Hinit Hnext Hinst Hfin Hheap Hobj Hsrc Hkind Hok Hsources Hdec Hbus Hmaster.
  split; try done.
  - rewrite Hinit. apply Hwf.
  - pose proof (wf_next _ Hwf). lia.
  - rewrite Hinst. intros h l Hl. pose proof (wf_inst_lt _ Hwf _ _ Hl). lia.
  - intros h Hh. pose proof (wf_fin_lt _ Hwf _ (Hfin _ Hh)). lia.
  - rewrite Hinst. intros h l Hl. eapply entryOk_frame; [|done..]. by apply Hwf.
  - intros n bs Hn. eapply closureOk_frame; [|done..]. apply Hwf.
  - rewrite Hobj. intros l Hl. specialize (Hheap l).
    rewrite (wf_heap _ Hwf _ Hl) in Hheap. by destruct (heap s' !! l).
  - rewrite Hmaster. apply Hkind, Hwf.
Qed.

Lemma getInstance_Some s h l i :
  getInstance s h = Some (l, i) ↔ instances s !! h = Some l ∧ heap s !! l = Some i.
Proof.
  unfold getInstance. destruct (instances s !! h) as [l'|]; [|by split; [|intros []]].
  destruct (heap s !! l') as [i'|] eqn:E.
  - split; [by intros [= <- <-]|]. intros [[= <-] ?]. congruence.
  - split; [done|]. intros [[= <-] ?]. congruence.
Qed.

Lemma getInstance_None s h :
  instances s !! h = None → getInstance s h = None.
Proof. unfold getInstance. by intros ->. Qed.

Lemma instCore_insert (m : gmap Z Instance) l i i' l' :
  m !! l = Some i → instCore i' = instCore i →
  instCore <$> <[l := i']> m !! l' = instCore <$> m !! l'.
Proof.
  intros Hl Hc. rewrite lookup_insert. case_decide; [subst|done].
  rewrite Hl. cbn. by rewrite Hc.
Qed.

Lemma sourceCore_updSource f n0 c n :
  (∀ bs, sourceCore (f bs) = sourceCore bs) →
  sourceCore <$> sourceOf (updSource f n0 c) n = sourceCore <$> sourceOf c n.
Proof.
  intros Hf. rewrite sourceOf_updSource. case_decide; [|done].
  destruct (sourceOf c n); cbn; [|done]. by rewrite Hf.
Qed.

Lemma ctxOk_kindAt c c' :
  nextNode c' = nextNode c → (∀ n, kindAt c' n = kindAt c n) → ctxOk c → ctxOk c'.
Proof.
  intros Hn Hk Hok n Hle. apply kindAt_None. rewrite Hk. apply kindAt_None, Hok. lia.
Qed.

Ltac ctx_unfold :=
  unfold setBuffer, setLoop, setPlaybackRate, setOnended, startNode, stopNode,
    markEnded, setGain, setPanValue, setPannerConfig, setPannerPosition,
    connect, disconnect.

Ltac frame_tac :=
  first
    [ done
    | lia
    | by (intros; st_simpl; ctx_unfold;
          rewrite ?kindAt_updSource, ?kindAt_onGain, ?kindAt_onStereo, ?kindAt_onPanner)
    | by (intros; st_simpl; ctx_unfold;
          rewrite ?sourceOf_onGain, ?sourceOf_onStereo, ?sourceOf_onPanner)
    | by (st_simpl; ctx_unfold; repeat first [apply ctxOk_alter | apply ctxOk_edges])
    | idtac ].

Section SimpleSteps.
Context (s : state) (Hwf : wfCore s).
Let Hok : ctxOk (audioContext s) := wf_nodes _ Hwf.

Lemma wfCore_js_load_audio : wfCore (js_load_audio s).2.
Proof.
  rewrite (js_load_audio_eq _ (wf_init _ Hwf)). cbn.
  apply (wfCore_frame s); try (frame_tac; fail); try apply Hwf.
  - cbn. intros h src Hh. destruct (wf_src _ Hwf _ _ Hh). split; [lia|done].
  - cbn. intros h [->%elem_of_singleton|Hh]%elem_of_union.
    + split; [lia|]. destruct (sources s !! nextSourceHandle s) as [src|] eqn:E; [|done].
      destruct (wf_src _ Hwf _ _ E). lia.
    + destruct (wf_dec _ Hwf _ Hh). split; [lia|done].
Qed.

Lemma wfCore_decodeResolved handle buffer duration :
  hostOk s (DecodeResolved handle buffer duration) = true →
  wfCore (decodeResolved s handle buffer duration).
Proof.
  cbn. intros [Hin Hd]%andb_prop. apply bool_decide_eq_true in Hin. apply Z.ltb_lt in Hd.
  apply (wfCore_frame s); try (frame_tac; fail); try apply Hwf.
  - cbn. intros h src. rewrite lookup_insert_Some. intros [[<- <-]|[_ Hh]].
    + split; [|done]. by apply (wf_dec _ Hwf).
    + by apply (wf_src _ Hwf).
  - cbn. intros h [Hh Hne]%elem_of_difference.
    rewrite lookup_insert_ne by set_solver. by apply (wf_dec _ Hwf).
Qed.

Lemma wfCore_decodeRejected handle : wfCore (decodeRejected s handle).
Proof.
  apply (wfCore_frame s); try (frame_tac; fail); try apply Hwf.
  cbn. intros h [Hh Hne]%elem_of_difference. by apply (wf_dec _ Hwf).
Qed.

Lemma wfCore_destroyAudio h : wfCore (destroyAudio s h).
Proof.
  apply (wfCore_frame s); try (frame_tac; fail); try apply Hwf.
  - cbn. intros h' src [_ Hh]%lookup_delete_Some. by apply (wf_src _ Hwf).
  - cbn. intros h' Hh. destruct (wf_dec _ Hwf _ Hh) as [? Hn]. split; [done|].
    rewrite lookup_delete. by case_decide.
Qed.

Lemma wfCore_setAudioVolume h v : wfCore (setAudioVolume s h v).
Proof.
  unfold setAudioVolume. destruct (getInstance s h) as [[l i]|] eqn:E; [|done].
  apply getInstance_Some in E as [Hl Hi].
  apply (wfCore_frame s); try (frame_tac; fail); try apply Hwf.
  - intros l'. cbn. by eapply instCore_insert.
  - intros. st_simpl. ctx_unfold. rewrite kindAt_onGain. by eapply wf_bus.
Qed.

Lemma wfCore_setAudioPan h v : wfCore (setAudioPan s h v).
Proof.
  unfold setAudioPan. destruct (getInstance s h) as [[l i]|] eqn:E; [|done].
  destruct (inst_pannerNode i); [|done].
  apply (wfCore_frame s); try (frame_tac; fail); try apply Hwf.
  intros. st_simpl. ctx_unfold. rewrite kindAt_onStereo. by eapply wf_bus.
Qed.

Lemma wfCore_setAudioPitch h v : wfCore (setAudioPitch s h v).
Proof.
  unfold setAudioPitch. destruct (getInstance s h) as [[l i]|] eqn:E; [|done].
  apply getInstance_Some in E as [Hl Hi].
  apply (wfCore_frame s); try (frame_tac; fail); try apply Hwf.
  - intros l'. cbn. by eapply instCore_insert.
  - intros n. st_simpl. ctx_unfold. by apply sourceCore_updSource.
  - intros. st_simpl. ctx_unfold. rewrite kindAt_updSource. by eapply wf_bus.
Qed.

Lemma wfCore_setAudioPosition h x y : wfCore (setAudioPosition s h x y).
Proof.
  unfold setAudioPosition. destruct (getInstance s h) as [[l i]|] eqn:E; [|done].
  destruct (inst_spatialPanner i); [|done].
  apply (wfCore_frame s); try (frame_tac; fail); try apply Hwf.
  intros. st_simpl. ctx_unfold. rewrite kindAt_onPanner. by eapply wf_bus.
Qed.

Lemma wfCore_setListenerPosition x y : wfCore (setListenerPosition s x y).
Proof.
  unfold setListenerPosition. destruct (negb (initialized s)); [done|].
  apply (wfCore_frame s); try (frame_tac; fail); apply Hwf.
Qed.

Lemma wfCore_pollFinishedCallback : wfCore (pollFinishedCallback s).2.
Proof.
  unfold pollFinishedCallback. destruct (finishedCallbacks s) as [|h rest] eqn:E; [done|].
  apply (wfCore_frame s); try (frame_tac; fail); try apply Hwf.
  cbn. intros h' Hh. rewrite E. by right.
Qed.

Lemma wfCore_advance dt :
  wfCore (set_audioContext (λ c, set_currentTime (currentTime c + Z.of_N dt) c) s).
Proof. apply (wfCore_frame s); try (frame_tac; fail); apply Hwf. Qed.

Lemma wfCore_setAudioBusVolume b v : wfCore (setAudioBusVolume s b v).
Proof.
  unfold setAudioBusVolume. destruct (buses s !! b) as [bus|] eqn:E; [|done].
  destruct (negb (bus_muted bus)).
  all: apply (wfCore_frame s); try (frame_tac; fail); try apply Hwf.
  all: st_simpl; ctx_unfold; intros b' bus'; rewrite ?kindAt_onGain, lookup_insert_Some.
  all: intros [[<- <-]|[_ Hb]]; cbn; by eapply wf_bus.
Qed.

Lemma wfCore_setAudioBusMuted b m : wfCore (setAudioBusMuted s b m).
Proof.
  unfold setAudioBusMuted. destruct (buses s !! b) as [bus|] eqn:E; [|done].
  apply (wfCore_frame s); try (frame_tac; fail); try apply Hwf.
  st_simpl; ctx_unfold; intros b' bus'; rewrite ?kindAt_onGain, lookup_insert_Some.
  intros [[<- <-]|[_ Hb]]; cbn; by eapply wf_bus.
Qed.

Lemma wfCore_destroyAudioBus b : wfCore (destroyAudioBus s b).
Proof.
  unfold destroyAudioBus. destruct (b <=? 1); [done|].
  destruct (buses s !! b) as [bus|] eqn:E; [|done].
  apply (wfCore_frame s); try (frame_tac; fail); try apply Hwf.
  cbn. intros b' bus' [_ Hb]%lookup_delete_Some. by eapply wf_bus.
Qed.

Lemma wfCore_createAudioBus : wfCore (createAudioBus s).2.
Proof.
  unfold createAudioBus. rewrite (wf_init _ Hwf). cbn.
  assert (∀ n k, kindAt (audioContext s) n = Some k →
    kindOf <$> <[nextNode (audioContext s) := NGain 1]> (nodes (audioContext s)) !! n = Some k)
    as Hk.
  { intros n k Hn. pose proof (kindAt_lt _ _ _ Hok Hn). by rewrite lookup_insert_ne by lia. }
  apply (wfCore_frame s); try (frame_tac; fail); try apply Hwf.
  - intros n. unfold sourceOf. cbn. rewrite lookup_insert. case_decide; [subst|done].
    by rewrite Hok.
  - intros n Hn. cbn in *. rewrite lookup_insert_ne by lia. apply Hok. lia.
  - cbn. intros b' bus'. unfold kindAt. cbn. rewrite lookup_insert_Some.
    intros [[<- <-]|[_ Hb]]; cbn; [by rewrite lookup_insert_eq|].
    apply Hk. by eapply (wf_bus _ Hwf).
Qed.
End SimpleSteps.

(** ** Steps confined to one entry of the table *)

(** Two entries of the table share neither their object nor their current
    source node. *)
Lemma entry_node_inj s h l i h' l' i' :
  wfCore s →
  instances s !! h = Some l → heap s !! l = Some i →
  instances s !! h' = Some l' → heap s !! l' = Some i' →
  inst_sourceNode i = inst_sourceNode i' → l = l' ∧ h = h'.
Proof.
  intros Hwf Hl Hi Hl' Hi' Hn.
  destruct (wf_entry _ Hwf _ _ Hl) as (j & bs & Hj & _ & Hs & Ho & _).
  destruct (wf_entry _ Hwf _ _ Hl') as (j' & bs' & Hj' & _ & Hs' & Ho' & _).
  assert (j = i) as -> by congruence. assert (j' = i') as -> by congruence.
  rewrite Hn, Hs' in Hs. injection Hs as ->. rewrite Ho' in Ho. by injection Ho as -> ->.
Qed.

Lemma entry_obj_inj s h h' l :
  wfCore s → instances s !! h = Some l → instances s !! h' = Some l → h = h'.
Proof.
  intros Hwf Hl Hl'.
  destruct (wf_entry _ Hwf _ _ Hl) as (i & bs & Hi & _).
  by destruct (entry_node_inj s h l i h' l i Hwf).
Qed.

(** A change confined to one entry of the table: its object and its
    current source node. The entry is kept, and then still well formed, or
    dropped. *)
Lemma wfCore_local s s' h l i i' bs' :
  wfCore s →
  instances s !! h = Some l → heap s !! l = Some i →
  heap s' = <[l := i']> (heap s) →
  inst_sourceNode i' = inst_sourceNode i →
  inst_gainNode i' = inst_gainNode i →
  inst_pannerNode i' = inst_pannerNode i →
  inst_spatialPanner i' = inst_spatialPanner i →
  (∀ n, sourceOf (audioContext s') n
        = if decide (n = inst_sourceNode i) then Some bs'
          else sourceOf (audioContext s) n) →
  bs_onended bs' = Some (l, h) →
  (∀ n k, kindAt (audioContext s) n = Some k → kindAt (audioContext s') n = Some k) →
  ctxOk (audioContext s') →
  initialized s' = initialized s →
  nextInstanceHandle s' = nextInstanceHandle s →
  (∀ x, x ∈ finishedCallbacks s' → x ∈ finishedCallbacks s ∨ x = h) →
  nextObj s' = nextObj s →
  sources s' = sources s → nextSourceHandle s' = nextSourceHandle s →
  decoding s' = decoding s → buses s' = buses s → masterGain s' = masterGain s →
  (instances s' = instances s
   ∧ inst_stopped i' = false ∧ bs_loop bs' = inst_loop i'
   ∧ bs_stopped bs' = inst_paused i' ∧ (bs_ended bs' = true → inst_paused i' = true)
   ∧ isStarted bs' = true)
  ∨ instances s' = delete h (instances s) →
  wfCore s'.
Proof.
  intros Hwf Hl Hi Hheap Hsn Hgn Hpn Hspn Hsrc Ho Hkind Hok Hinit Hnext Hfin Hobj
    Hsources Hnsrc Hdec Hbuses Hmaster Hcase.
  pose proof (wf_inst_lt _ Hwf _ _ Hl) as Hlt.
  assert (∀ h' l', instances s !! h' = Some l' → h' ≠ h → entryOk s' h' l') as Hother.
  { intros h' l' Hl' Hne.
    destruct (wf_entry _ Hwf _ _ Hl') as (j & bs & Hj & Hst & Hs & Hoj & Hrest).
    assert (l' ≠ l) as Hll.
    { intros ->. apply Hne. by eapply entry_obj_inj. }
    assert (inst_sourceNode j ≠ inst_sourceNode i) as Hnn.
    { intros E. by destruct (entry_node_inj s h' l' j h l i Hwf). }
    exists j, bs. rewrite Hheap, lookup_insert_ne by done. rewrite Hsrc.
    rewrite decide_False by done.
    destruct Hrest as (?&?&?&?&Hk). split_and!; try done.
    eapply instNodesOk_mono; [|done]. done. }
  assert (∀ h' l', instances s' !! h' = Some l' → instances s !! h' = Some l') as Hsub.
  { intros h' l'. destruct Hcase as [[E _]|E]; rewrite E; [done|].
    by intros [_ ?]%lookup_delete_Some. }
  split.
  - by rewrite Hinit; apply Hwf.
  - by rewrite Hnext; apply Hwf.
  - rewrite Hnext. intros h' l' Hl'. by apply (wf_inst_lt _ Hwf h' l'), Hsub.
  - rewrite Hnext. intros x [Hx| ->]%Hfin; [|done]. by apply (wf_fin_lt _ Hwf).
  - intros h' l'. destruct Hcase as [(E & Hst & Hlo & Hsp & He & Hsta)|E]; rewrite E.
    + intros Hl'. destruct (decide (h' = h)) as [->|Hne]; [|by apply Hother].
      assert (l' = l) as -> by congruence.
      exists i', bs'. rewrite Hheap, lookup_insert_eq, Hsrc, Hsn, decide_True by done.
      split_and!; try done.
      destruct (wf_entry _ Hwf _ _ Hl) as (j & ? & Hj & _ & _ & _ & _ & _ & _ & _ & Hk).
      assert (j = i) as -> by congruence. destruct Hk as (Hk1 & Hk2 & Hk3).
      rewrite <- Hgn, <- Hpn, <- Hspn in *. split_and!; eauto.
    + intros [Hne Hl']%lookup_delete_Some. by apply Hother.
  - intros n bs Hn l2 h2 Ho2. rewrite Hnext.
    assert (1 ≤ h2 < nextInstanceHandle s ∧ is_Some (heap s !! l2)
            ∧ (∀ l', instances s !! h2 = Some l' → l' = l2)) as (Hr & Hh2 & Hu).
    { destruct (decide (n = inst_sourceNode i)) as [->|Hne].
      - rewrite Hsrc, decide_True in Hn by done. injection Hn as <-.
        rewrite Ho in Ho2. injection Ho2 as <- <-.
        destruct (wf_entry _ Hwf _ _ Hl) as (j & bs & Hj & _ & Hs & Hoj & _).
        by apply (wf_closure _ Hwf _ _ Hs).
      - rewrite Hsrc, decide_False in Hn by done. by apply (wf_closure _ Hwf _ _ Hn). }
    split; [done|]. split.
    + rewrite Hheap. destruct (decide (l = l2)) as [->|];
        [rewrite lookup_insert_eq; by eexists|by rewrite lookup_insert_ne].
    + intros l' Hl'. by apply Hu, Hsub.
  - done.
  - rewrite Hobj, Hheap. intros l' Hl'.
    rewrite lookup_insert_ne; [by apply (wf_heap _ Hwf)|].
    intros <-. by rewrite (wf_heap _ Hwf) in Hi.
  - rewrite Hsources, Hnsrc. apply Hwf.
  - rewrite Hsources, Hnsrc, Hdec. apply Hwf.
  - rewrite Hbuses. intros. by eapply Hkind, wf_bus.
  - rewrite Hmaster. by eapply Hkind, wf_master.
Qed.

(** A change of a source node that is the current node of no entry, with
    the entry of one handle kept or dropped. *)
Lemma wfCore_aside s s' n bs bs' h :
  wfCore s →
  sourceOf (audioContext s) n = Some bs →
  (∀ h' l' i', instances s !! h' = Some l' → heap s !! l' = Some i' →
     inst_sourceNode i' ≠ n) →
  heap s' = heap s →
  (∀ m, sourceOf (audioContext s') m
        = if decide (m = n) then Some bs' else sourceOf (audioContext s) m) →
  bs_onended bs' = bs_onended bs →
  (∀ m k, kindAt (audioContext s) m = Some k → kindAt (audioContext s') m = Some k) →
  ctxOk (audioContext s') →
  initialized s' = initialized s →
  nextInstanceHandle s' = nextInstanceHandle s →
  h < nextInstanceHandle s →
  (∀ x, x ∈ finishedCallbacks s' → x ∈ finishedCallbacks s ∨ x = h) →
  nextObj s' = nextObj s →
  sources s' = sources s → nextSourceHandle s' = nextSourceHandle s →
  decoding s' = decoding s → buses s' = buses s → masterGain s' = masterGain s →
  instances s' = instances s ∨ instances s' = delete h (instances s) →
  wfCore s'.
Proof.
  intros Hwf Hs Hnot Hheap Hsrc Ho Hkind Hok Hinit Hnext Hlt Hfin Hobj
    Hsources Hnsrc Hdec Hbuses Hmaster Hcase.
  assert (∀ h' l', instances s' !! h' = Some l' → instances s !! h' = Some l') as Hsub.
  { intros h' l'. destruct Hcase as [E|E]; rewrite E; [done|].
    by intros [_ ?]%lookup_delete_Some. }
  split.
  - by rewrite Hinit; apply Hwf.
  - by rewrite Hnext; apply Hwf.
  - rewrite Hnext. intros h' l' Hl'. by apply (wf_inst_lt _ Hwf h' l'), Hsub.
  - rewrite Hnext. intros x [Hx| ->]%Hfin; [|done]. by apply (wf_fin_lt _ Hwf).
  - intros h' l' Hl'%Hsub.
    destruct (wf_entry _ Hwf _ _ Hl') as (j & bsj & Hj & Hst & Hsj & Hoj & Hrest).
    exists j, bsj. rewrite Hheap, Hsrc, decide_False by (by eapply Hnot).
    destruct Hrest as (?&?&?&?&Hk). split_and!; try done.
    eapply instNodesOk_mono; [|done]. done.
  - intros m bsm Hm l2 h2 Ho2. rewrite Hnext, Hheap.
    assert (1 ≤ h2 < nextInstanceHandle s ∧ is_Some (heap s !! l2)
            ∧ (∀ l', instances s !! h2 = Some l' → l' = l2)) as (Hr & Hh2 & Hu).
    { destruct (decide (m = n)) as [->|Hne].
      - rewrite Hsrc, decide_True in Hm by done. injection Hm as <-.
        rewrite Ho in Ho2. by apply (wf_closure _ Hwf _ _ Hs).
      - rewrite Hsrc, decide_False in Hm by done. by apply (wf_closure _ Hwf _ _ Hm). }
    split; [done|]. split; [done|]. intros l' Hl'. by apply Hu, Hsub.
  - done.
  - rewrite Hobj, Hheap. apply Hwf.
  - rewrite Hsources, Hnsrc. apply Hwf.
  - rewrite Hsources, Hnsrc, Hdec. apply Hwf.
  - rewrite Hbuses. intros. by eapply Hkind, wf_bus.
  - rewrite Hmaster. by eapply Hkind, wf_master.
Qed.

Lemma sourceOf_updSource_at f c n0 bs n :
  sourceOf c n0 = Some bs →
  sourceOf (updSource f n0 c) n
  = if decide (n = n0) then Some (f bs) else sourceOf c n.
Proof.
  intros Hs. rewrite sourceOf_updSource.
  destruct (decide (n0 = n)) as [<-|]; [|by rewrite decide_False].
  by rewrite decide_True, Hs.
Qed.

Lemma sourceOf_disconnectOpt o c n : sourceOf (disconnectOpt o c) n = sourceOf c n.
Proof. by destruct o. Qed.
Lemma kindAt_disconnectOpt o c n : kindAt (disconnectOpt o c) n = kindAt c n.
Proof. by destruct o. Qed.
Lemma ctxOk_disconnectOpt o c : ctxOk c → ctxOk (disconnectOpt o c).
Proof. by destruct o. Qed.

Ltac local_tac Hwf Hl Hi srctac :=
  eapply (wfCore_local _ _ _ _ _ _ _ Hwf Hl Hi);
  [ st_simpl; try reflexivity | done | done | done | done
  | intros ?; st_simpl; srctac | .. ].

Section LocalSteps.
Context (s : state) (Hwf : wfCore s).
Let Hok : ctxOk (audioContext s) := wf_nodes _ Hwf.

Lemma wfCore_setAudioLooping h b : wfCore (setAudioLooping s h b).
Proof.
  unfold setAudioLooping. destruct (getInstance s h) as [[l i]|] eqn:E; [|done].
  apply getInstance_Some in E as [Hl Hi].
  destruct (wf_entry _ Hwf _ _ Hl) as (j & bs & Hj & Hst & Hs & Ho & Hlo & Hsp & He & Hsta & Hk).
  assert (j = i) as -> by congruence.
  local_tac Hwf Hl Hi ltac:(unfold setLoop; by apply sourceOf_updSource_at); try done.
  all: try (intros n k; st_simpl; unfold setLoop; by rewrite kindAt_updSource).
  all: try (st_simpl; by apply ctxOk_alter).
  all: try (intros x; st_simpl; by left).
  left. by split_and!.
Qed.

Lemma wfCore_pauseAudio h : wfCore (pauseAudio s h).
Proof.
  unfold pauseAudio. destruct (getInstance s h) as [[l i]|] eqn:E; [|done].
  apply getInstance_Some in E as [Hl Hi].
  destruct (inst_paused i || inst_stopped i) eqn:Hps; [done|].
  apply orb_false_elim in Hps as [Hp Hstp].
  destruct (wf_entry _ Hwf _ _ Hl) as (j & bs & Hj & Hst & Hs & Ho & Hlo & Hsp & He & Hsta & Hk).
  assert (j = i) as -> by congruence.
  local_tac Hwf Hl Hi ltac:(unfold stopNode; by apply sourceOf_updSource_at); try done.
  all: try (intros n k; st_simpl; unfold stopNode; by rewrite kindAt_updSource).
  all: try (st_simpl; by apply ctxOk_alter).
  all: try (intros x; st_simpl; by left).
  left. unfold isStarted in *. cbn. by destruct (bs_started bs).
Qed.

Lemma stopInstance_stopped l i :
  heap s !! l = Some i → inst_stopped i = true → stopInstance s l = s.
Proof. unfold stopInstance. by intros -> ->. Qed.

Lemma wfCore_stopEntry h l :
  instances s !! h = Some l →
  wfCore (set_instances (delete h) (stopInstance s l)).
Proof.
  intros Hl.
  destruct (wf_entry _ Hwf _ _ Hl) as (i & bs & Hi & Hst & Hs & Ho & Hlo & Hsp & He & Hsta & Hk).
  unfold stopInstance. rewrite Hi, Hst.
  local_tac Hwf Hl Hi ltac:(
    rewrite !sourceOf_disconnectOpt; unfold disconnect, stopNode;
    change (sourceOf (set_edges ?f (set_edges ?g ?c)) ?n) with (sourceOf c n);
    by apply sourceOf_updSource_at); try done.
  all: try (intros n k; st_simpl; rewrite !kindAt_disconnectOpt;
    unfold disconnect, stopNode;
    change (kindAt (set_edges ?f (set_edges ?g ?c)) n) with (kindAt c n);
    by rewrite kindAt_updSource).
  all: try (st_simpl; do 2 apply ctxOk_disconnectOpt; do 2 apply ctxOk_edges;
    by apply ctxOk_alter).
  all: try (intros x; st_simpl; by left).
  by right.
Qed.

Lemma wfCore_stopAudio h : wfCore (stopAudio s h).
Proof.
  unfold stopAudio. destruct (instances s !! h) as [l|] eqn:Hl; [|done].
  by apply wfCore_stopEntry.
Qed.

(** What the handler of a node does to the state, once the node is
    marked ended. *)
Lemma deliverEnded_eq n bs :
  sourceOf (audioContext s) n = Some bs →
  deliverEnded s n
  = match bs_onended bs with
    | Some (l, h) => onended (set_audioContext (markEnded n) s) l h
    | None => set_audioContext (markEnded n) s
    end.
Proof.
  unfold sourceOf, deliverEnded.
  destruct (nodes (audioContext s) !! n) as [[]|]; try done. by intros [= ->].
Qed.

Lemma hostOk_ended n :
  hostOk s (Ended n) = true →
  ∃ bs, sourceOf (audioContext s) n = Some bs ∧ isStarted bs = true
    ∧ bs_ended bs = false ∧ (bs_stopped bs = true ∨ bs_loop bs = false).
Proof.
  cbn [hostOk]. unfold naturalEnd, stoppedEnd, sourceOf.
  destruct (nodes (audioContext s) !! n) as [[bs| | | |]|]; try done.
  intros H. exists bs. destruct (isStarted bs), (bs_ended bs), (bs_stopped bs), (bs_loop bs);
    cbn in H; try done; split_and!; auto.
Qed.

Lemma wfCore_deliverEnded n :
  hostOk s (Ended n) = true → wfCore (deliverEnded s n).
Proof.
  intros (bs & Hs & Hsta & He & Hcond)%hostOk_ended.
  rewrite (deliverEnded_eq n bs Hs).
  set (bs' := mkBufferSource (bs_buffer bs) (bs_loop bs) (bs_playbackRate bs)
                (bs_started bs) (bs_stopped bs) true (bs_onended bs)).
  assert (∀ m, sourceOf (markEnded n (audioContext s)) m
            = if decide (m = n) then Some bs' else sourceOf (audioContext s) m) as Hsrc.
  { intros m. unfold markEnded. by rewrite (sourceOf_updSource_at _ _ _ bs m Hs). }
  assert (∀ m k, kindAt (audioContext s) m = Some k →
            kindAt (markEnded n (audioContext s)) m = Some k) as Hkind.
  { intros m k. unfold markEnded. by rewrite kindAt_updSource. }
  assert (ctxOk (markEnded n (audioContext s))) as Hok' by (by apply ctxOk_alter).
  destruct (bs_onended bs) as [[l h]|] eqn:Ho.
  2: { eapply (wfCore_aside s _ n bs bs' 0 Hwf Hs); try done;
         [|pose proof (wf_next _ Hwf); lia|by left|by left].
       intros h' l' i' Hl' Hi' E.
       destruct (wf_entry _ Hwf _ _ Hl') as (j & bsj & Hj & _ & Hsj & Hoj & _).
       assert (j = i') as -> by congruence. rewrite E, Hs in Hsj. injection Hsj as <-.
       congruence. }
  destruct (wf_closure _ Hwf _ _ Hs _ _ Ho) as (Hr & [i Hi] & Hu).
  unfold onended. st_simpl. rewrite Hi.
  assert (∀ s1, (instances s1 = instances s ∧ (inst_stopped i = true ∨ inst_loop i = true))
                ∨ instances s1 = delete h (instances s) →
            heap s1 = heap s → audioContext s1 = markEnded n (audioContext s) →
            initialized s1 = initialized s → nextInstanceHandle s1 = nextInstanceHandle s →
            (∀ x, x ∈ finishedCallbacks s1 → x ∈ finishedCallbacks s ∨ x = h) →
            nextObj s1 = nextObj s → sources s1 = sources s →
            nextSourceHandle s1 = nextSourceHandle s → decoding s1 = decoding s →
            buses s1 = buses s → masterGain s1 = masterGain s →
            wfCore s1) as Hgen.
  { intros s1 Hinst Hheap Hctx Hinit1 Hnext1 Hfin1 Hobj1 Hsrcs1 Hns1 Hdec1 Hbus1 Hm1.
    assert (instances s1 = instances s ∨ instances s1 = delete h (instances s)) as Hinst'
      by (destruct Hinst as [[? _]|?]; auto).
    destruct (instances s !! h) as [l'|] eqn:Hl.
    - assert (l' = l) as -> by (by apply Hu).
      destruct (wf_entry _ Hwf _ _ Hl) as (j & bsj & Hj & Hst & Hsj & Hoj & Hlo & Hsp & Hej & Hstaj & Hk).
      assert (j = i) as -> by congruence.
      destruct (decide (inst_sourceNode i = n)) as [Hn|Hn].
      + rewrite Hn, Hs in Hsj. injection Hsj as <-.
        eapply (wfCore_local s s1 h l i i bs' Hwf Hl Hi); try done.
        * rewrite Hheap. symmetry. by apply insert_id.
        * rewrite Hctx, Hn. apply Hsrc.
        * by rewrite Hctx.
        * by rewrite Hctx.
        * destruct Hinst as [[E Hkeep]|E]; [|by right]. left. split_and!; try done.
          intros _. destruct Hkeep as [?|Hloop]; [congruence|].
          destruct Hcond as [?|?]; congruence.
      + eapply (wfCore_aside s s1 n bs bs' h Hwf Hs); try done.
        * intros h' l' i' Hl' Hi' E.
          destruct (wf_entry _ Hwf _ _ Hl') as (j & bsj' & Hj' & _ & Hsj' & Hoj' & _).
          assert (j = i') as -> by congruence. rewrite E, Hs in Hsj'. injection Hsj' as <-.
          rewrite Ho in Hoj'. injection Hoj' as -> ->.
          assert (i' = i) as -> by congruence. done.
        * rewrite Hctx. apply Hsrc.
        * by rewrite Hctx.
        * by rewrite Hctx.
        * lia.
    - eapply (wfCore_aside s s1 n bs bs' h Hwf Hs); try done.
      + intros h' l' i' Hl' Hi' E.
        destruct (wf_entry _ Hwf _ _ Hl') as (j & bsj' & Hj' & _ & Hsj' & Hoj' & _).
        assert (j = i') as -> by congruence. rewrite E, Hs in Hsj'. injection Hsj' as <-.
        rewrite Ho in Hoj'. injection Hoj' as -> ->. congruence.
      + rewrite Hctx. apply Hsrc.
      + by rewrite Hctx.
      + by rewrite Hctx.
      + lia. }
  destruct (negb (inst_stopped i) && negb (inst_loop i)) eqn:Hfire.
  - destruct (inst_hasCallback i); apply Hgen; st_simpl; try done; try (by right).
    + intros x [?| ->%list_elem_of_singleton]%elem_of_app; [by left|by right].
    + by left.
  - apply Hgen; st_simpl; try done; [|by left].
    left. split; [done|].
    destruct (inst_stopped i), (inst_loop i); cbn in Hfire; auto; done.
Qed.
End LocalSteps.

(** ** [resumeAudio] *)

Lemma resumeAudio_eq s h l i source :
  getInstance s h = Some (l, i) →
  inst_paused i = true → inst_stopped i = false →
  sources s !! inst_sourceHandle i = Some source →
  resumeAudio s h
  = set_audioContext (λ _, resumeContext s h l i source)
      (set_heap (<[l := resumeInstance s i]>) s).
Proof.
  intros Hg Hp Hs Hsrc. unfold resumeAudio. rewrite Hg, Hp, Hs, Hsrc. cbn [negb orb].
  unfold resumeContext, resumeInstance, resumeConnect.
  by destruct (inst_spatialPanner i), (inst_pannerNode i).
Qed.

Lemma resumeAudio_noop s h :
  (∀ l i, getInstance s h = Some (l, i) →
     inst_paused i = false ∨ inst_stopped i = true
     ∨ sources s !! inst_sourceHandle i = None) →
  resumeAudio s h = s.
Proof.
  intros H. unfold resumeAudio. destruct (getInstance s h) as [[l i]|]; [|done].
  destruct (H l i eq_refl) as [-> | [-> | ->]]; [done|by destruct (inst_paused i)|].
  by destruct (negb (inst_paused i) || inst_stopped i).
Qed.

Section Resume.
Context (s : state) (h l : Z) (i : Instance) (source : Source).
Let c := audioContext s.
Let c' := resumeContext s h l i source.

Ltac resume_cases :=
  subst c' c; unfold resumeContext, resumeConnect, resumeLast;
  destruct (inst_spatialPanner i), (inst_pannerNode i), (inst_pauseTime i <? 0) eqn:?; cbn.

Lemma resumeContext_currentTime : currentTime c' = currentTime c.
Proof. by resume_cases. Qed.

Lemma resumeContext_nodes n : n ≠ nextNode c → nodes c' !! n = nodes c !! n.
Proof. intros Hn. resume_cases; by map_simp. Qed.

Lemma resumeContext_source :
  sourceOf c' (nextNode c)
  = Some (mkBufferSource (Some (src_buffer source)) (inst_loop i) (inst_pitch i)
            (if inst_pauseTime i <? 0 then None else Some (0, inst_pauseTime i))
            false false (Some (l, h))).
Proof.
  unfold sourceOf. subst c' c; unfold resumeContext, resumeConnect, resumeLast.
  destruct (inst_spatialPanner i), (inst_pannerNode i), (inst_pauseTime i <? 0); cbn;
    by map_simp.
Qed.

Lemma resumeContext_ctxOk : ctxOk c → ctxOk c'.
Proof.
  intros Hok n. resume_cases; intros Hn; map_simp.
  all: rewrite ?lookup_alter_None; map_simp; apply Hok; lia.
Qed.

Lemma resumeContext_sourceOf n :
  ctxOk c →
  sourceOf c' n = if decide (n = nextNode c) then sourceOf c' (nextNode c) else sourceOf c n.
Proof.
  intros Hok. case_decide; [by subst|]. unfold sourceOf. by rewrite resumeContext_nodes.
Qed.

Lemma resumeContext_kindAt n k : ctxOk c → kindAt c n = Some k → kindAt c' n = Some k.
Proof.
  intros Hok Hk. pose proof (kindAt_lt _ _ _ Hok Hk).
  unfold kindAt in *. rewrite resumeContext_nodes by lia. done.
Qed.
End Resume.

Lemma resumeAudioRaises_eq s h l i source :
  getInstance s h = Some (l, i) →
  inst_paused i = true → inst_stopped i = false →
  sources s !! inst_sourceHandle i = Some source →
  resumeAudioRaises s h = (inst_pauseTime i <? 0).
Proof. intros Hg Hp Hs Hsrc. unfold resumeAudioRaises. by rewrite Hg, Hp, Hs, Hsrc. Qed.

Lemma wfCore_resumeAudio s h :
  wfCore s → hostOk s (ResumeAudio h) = true → wfCore (resumeAudio s h).
Proof.
  intros Hwf Hhost. pose proof (wf_nodes _ Hwf) as Hok.
  destruct (getInstance s h) as [[l i]|] eqn:Hg; [|by rewrite resumeAudio_noop by (intros; congruence)].
  destruct (inst_paused i) eqn:Hp;
    [|rewrite resumeAudio_noop; [done|intros ? ? E; rewrite Hg in E; injection E as <- <-; by left]].
  destruct (inst_stopped i) eqn:Hs;
    [rewrite resumeAudio_noop; [done|intros ? ? E; rewrite Hg in E; injection E as <- <-; by right; left]|].
  destruct (sources s !! inst_sourceHandle i) as [source|] eqn:Hsrc;
    [|rewrite resumeAudio_noop; [done|intros ? ? E; rewrite Hg in E; injection E as <- <-; by right; right]].
  rewrite (resumeAudio_eq _ _ _ _ _ Hg Hp Hs Hsrc).
  cbn [hostOk] in Hhost. rewrite (resumeAudioRaises_eq _ _ _ _ _ Hg Hp Hs Hsrc) in Hhost.
  apply negb_true_iff in Hhost.
  apply getInstance_Some in Hg as [Hl Hi].
  destruct (wf_entry _ Hwf _ _ Hl) as (j & bs & Hj & _ & Hbs & Ho & Hlo & Hsp & He & Hsta & Hk).
  assert (j = i) as -> by congruence.
  pose proof (sourceOf_lt _ _ _ Hok Hbs) as Hlt.
  destruct (wf_closure _ Hwf _ _ Hbs _ _ Ho) as (Hr & _ & Hu).
  split; unfold entryOk, closureOk; st_simpl.
  - apply Hwf.
  - apply Hwf.
  - apply Hwf.
  - apply Hwf.
  - intros h' l' Hl'. destruct (decide (h' = h)) as [->|Hne].
    + assert (l' = l) as -> by congruence.
      eexists _, _. rewrite lookup_insert_eq. split; [done|]. split; [done|].
      split; [apply resumeContext_source|]. rewrite Hhost. split_and!; try done.
      eapply instNodesOk_mono; [|exact Hk]. intros. by apply resumeContext_kindAt.
    + destruct (wf_entry _ Hwf _ _ Hl') as (j & bs' & Hj' & ? & Hbs' & ? & ? & ? & ? & ? & Hk').
      assert (l' ≠ l) by (intros ->; apply Hne; by eapply entry_obj_inj).
      exists j, bs'. rewrite lookup_insert_ne by done.
      pose proof (sourceOf_lt _ _ _ Hok Hbs').
      rewrite resumeContext_sourceOf, decide_False by (done || lia).
      split_and!; try done.
      eapply instNodesOk_mono; [|exact Hk']. intros. by apply resumeContext_kindAt.
  - intros n bs'. rewrite resumeContext_sourceOf by done. case_decide as Hn.
    + subst n. rewrite resumeContext_source. intros [= <-] l2 h2 [= <- <-].
      split; [done|]. split; [rewrite lookup_insert_eq; by eexists|done].
    + intros Hbs' l2 h2 Ho2.
      destruct (wf_closure _ Hwf _ _ Hbs' _ _ Ho2) as (? & Hh2 & ?).
      split; [done|]. split; [|done].
      destruct (decide (l = l2)) as [->|];
        [rewrite lookup_insert_eq; by eexists|by rewrite lookup_insert_ne].
  - by apply resumeContext_ctxOk.
  - intros l' Hl'. rewrite lookup_insert_ne; [by apply (wf_heap _ Hwf)|].
    intros <-. by rewrite (wf_heap _ Hwf) in Hi.
  - apply Hwf.
  - apply Hwf.
  - intros. apply resumeContext_kindAt; [done|]. by eapply wf_bus.
  - apply resumeContext_kindAt; [done|]. apply Hwf.
Qed.

Lemma wfCore_set_nextInstanceHandle s :
  wfCore s → wfCore (set_nextInstanceHandle (nextInstanceHandle s + 1) s).
Proof.
  intros Hwf. pose proof (wf_nodes _ Hwf).
  apply (wfCore_frame s); try (frame_tac; fail); try apply Hwf. st_simpl. lia.
Qed.

(** The next handle names no entry and is captured by no closure. *)
Lemma next_handle_fresh s :
  wfCore s →
  instances s !! nextInstanceHandle s = None ∧ ¬ captured s (nextInstanceHandle s).
Proof.
  intros Hwf. split.
  - destruct (instances s !! nextInstanceHandle s) as [l|] eqn:E; [|done].
    pose proof (wf_inst_lt _ Hwf _ _ E). lia.
  - intros (n & bs & l & Hs & Ho). destruct (wf_closure _ Hwf _ _ Hs _ _ Ho). lia.
Qed.

Lemma wfCore_playAudio s a :
  wfCore s → hostOk s (PlayAudio a) = true → wfCore (playAudio s a).2.
Proof.
  intros Hwf Hhost. unfold playAudio. rewrite (wf_init _ Hwf). cbn [negb].
  cbn [hostOk] in Hhost. apply Z.leb_le in Hhost.
  destruct (next_handle_fresh s Hwf) as [Hfresh Hnocl].
  destruct (sources s !! pa_sourceHandle a) as [source|]; cbn [snd].
  - apply wfCore_playAudioInternal; try done.
    + by apply wfCore_set_nextInstanceHandle.
    + st_simpl. pose proof (wf_next _ Hwf). lia.
  - pose proof (wf_nodes _ Hwf).
    match goal with |- context [if ?b then _ else _] => destruct b end.
    all: apply (wfCore_frame s); try (frame_tac; fail); try apply Hwf.
    all: st_simpl; lia.
Qed.

(** ** [stopAllAudio] *)

Lemma stopInstance_frame s l :
  let s' := stopInstance s l in
  instances s' = instances s ∧ finishedCallbacks s' = finishedCallbacks s
  ∧ pendingPlays s' = pendingPlays s ∧ timers s' = timers s
  ∧ nextInstanceHandle s' = nextInstanceHandle s ∧ sources s' = sources s
  ∧ buses s' = buses s ∧ nextSourceHandle s' = nextSourceHandle s
  ∧ decoding s' = decoding s ∧ initialized s' = initialized s
  ∧ currentTime (audioContext s') = currentTime (audioContext s)
  ∧ nextBusHandle s' = nextBusHandle s ∧ masterGain s' = masterGain s.
Proof.
  unfold stopInstance. destruct (heap s !! l) as [i|]; [|done].
  destruct (inst_stopped i); [done|]. st_simpl. split_and!; try done.
  by destruct (inst_spatialPanner i), (inst_pannerNode i).
Qed.

Lemma stopInstance_heap_ne s l l' : l' ≠ l → heap (stopInstance s l) !! l' = heap s !! l'.
Proof.
  intros Hne. unfold stopInstance. destruct (heap s !! l) as [i|]; [|done].
  destruct (inst_stopped i); [done|]. st_simpl. by rewrite lookup_insert_ne.
Qed.

Lemma sameOutside_refl s : sameOutside s s.
Proof. by split. Qed.

Lemma sameOutside_trans s1 s2 s3 : sameOutside s1 s2 → sameOutside s2 s3 → sameOutside s1 s3.
Proof. intros [] []. split; congruence. Qed.

Lemma sameOutside_stopEntry s h l :
  sameOutside s (set_instances (delete h) (stopInstance s l)).
Proof.
  destruct (stopInstance_frame s l) as (?&?&?&?&?&?&?&?&?&?&?&?&?). by split.
Qed.

Lemma stopAll_fold b es : ∀ s,
  wfCore s → NoDup es.*1 →
  (∀ h l, (h, l) ∈ es → instances s !! h = Some l) →
  let s' := foldl (stopAllStep b) s es in
  wfCore s' ∧ sameOutside s s'
  ∧ (∀ h, instances s !! h = None → instances s' !! h = None)
  ∧ (∀ h l i, instances s !! h = Some l → heap s !! l = Some i →
       if bool_decide ((h, l) ∈ es) && stopAllMatch b i
       then instances s' !! h = None
       else instances s' !! h = Some l ∧ heap s' !! l = Some i).
Proof.
  induction es as [|[h0 l0] es IH]; intros s Hwf Hnd Hin.
  - cbn. split_and!; [done|apply sameOutside_refl|done|].
    intros h l i Hl Hi. rewrite bool_decide_eq_false_2 by set_solver. done.
  - apply NoDup_cons in Hnd as [Hnotin Hnd]. cbn [foldl].
    assert (instances s !! h0 = Some l0) as Hl0 by (apply Hin; left).
    destruct (wf_entry _ Hwf _ _ Hl0) as (i0 & bs0 & Hi0 & _).
    set (s1 := stopAllStep b s (h0, l0)).
    assert (wfCore s1 ∧ sameOutside s s1
            ∧ (∀ h, instances s1 !! h = if decide (h = h0) then
                      (if stopAllMatch b i0 then None else Some l0) else instances s !! h)
            ∧ (∀ l, l ≠ l0 → heap s1 !! l = heap s !! l)
            ∧ (stopAllMatch b i0 = false → s1 = s)) as (Hwf1 & Hso1 & Hinst1 & Hheap1 & Hskip).
    { subst s1. unfold stopAllStep. cbn [fst snd]. rewrite Hi0.
      destruct (stopAllMatch b i0).
      - split_and!; [by apply wfCore_stopEntry|apply sameOutside_stopEntry| | |done].
        + intros h. st_simpl. destruct (stopInstance_frame s l0) as (-> & _).
          rewrite lookup_delete. destruct (decide (h0 = h)); [by rewrite decide_True|by rewrite decide_False].
        + intros l Hne. st_simpl. by apply stopInstance_heap_ne.
      - split_and!; [done|apply sameOutside_refl| |done|done].
        intros h. case_decide; by subst. }
    destruct (IH s1 Hwf1 Hnd) as (Hwf' & Hso' & Hnone' & Hkeep').
    { intros h l Hhl. rewrite Hinst1. rewrite decide_False; [apply Hin; by right|].
      intros ->. apply Hnotin. apply list_elem_of_fmap. by exists (h0, l). }
    split_and!; [done|by eapply sameOutside_trans| |].
    + intros h Hh. apply Hnone'. rewrite Hinst1. case_decide; [subst; congruence|done].
    + intros h l i Hl Hi. destruct (decide (h = h0)) as [->|Hne].
      * assert (l = l0) as -> by congruence. assert (i = i0) as -> by congruence.
        rewrite bool_decide_eq_true_2 by left. cbn [andb].
        destruct (stopAllMatch b i0) eqn:Hm.
        -- apply Hnone'. by rewrite Hinst1, decide_True.
        -- pose proof (Hskip eq_refl) as Es1.
           rewrite <- Es1 in Hl0, Hi0.
           specialize (Hkeep' h0 l0 i0 Hl0 Hi0).
           rewrite bool_decide_eq_false_2 in Hkeep'; [done|].
           intros Hx. apply Hnotin. apply list_elem_of_fmap. by exists (h0, l0).
      * assert (l ≠ l0) by (intros ->; exact (Hne (entry_obj_inj s h h0 l0 Hwf Hl Hl0))).
        assert (instances s1 !! h = Some l) as Hl1 by (by rewrite Hinst1, decide_False).
        assert (heap s1 !! l = Some i) as Hi1 by (by rewrite Hheap1).
        specialize (Hkeep' h l i Hl1 Hi1).
        assert (bool_decide ((h, l) ∈ (h0, l0) :: es) = bool_decide ((h, l) ∈ es)) as ->; [|done].
        apply bool_decide_ext. rewrite elem_of_cons. split; [|by right].
        intros [[= -> ->]|?]; done.
Qed.

Lemma stopAllAudio_spec s b :
  wfCore s →
  let s' := stopAllAudio s b in
  wfCore s' ∧ sameOutside s s'
  ∧ (∀ h, instances s !! h = None → instances s' !! h = None)
  ∧ (∀ h l i, instances s !! h = Some l → heap s !! l = Some i →
       if stopAllMatch b i then instances s' !! h = None
       else instances s' !! h = Some l ∧ heap s' !! l = Some i).
Proof.
  intros Hwf. unfold stopAllAudio.
  destruct (stopAll_fold b (map_to_list (instances s)) s Hwf) as (Hwf' & Hso & Hnone & Hkeep).
  - apply NoDup_fst_map_to_list.
  - intros h l. by rewrite elem_of_map_to_list.
  - split_and!; try done. intros h l i Hl Hi. specialize (Hkeep h l i Hl Hi).
    rewrite bool_decide_eq_true_2 in Hkeep by (by apply elem_of_map_to_list). done.
Qed.

(** ** [processPendingPlays] *)

Lemma sameOutside_playAudioInternal s h a src :
  sameOutside s (playAudioInternal s h a src).
Proof.
  destruct (playAudioInternal_table s h a src) as (_&_&?&?&?&?&?&?&?&?&?&?&?).
  split; try done. apply playAudioInternal_currentTime.
Qed.

Lemma playAudioInternal_built s h a src :
  initialized s = true → pannerRejected a = false →
  ∃ i, instances (playAudioInternal s h a src) !! h = Some (nextObj s)
    ∧ heap (playAudioInternal s h a src) !! nextObj s = Some i
    ∧ builtFrom a (currentTime (audioContext s)) i.
Proof.
  intros Hinit Hacc.
  destruct (playAudioInternal_heap s h a src Hinit Hacc)
    as (i & Hheap & ? & ? & ? & ? & ? & ? & ? & ? & ? & ? & ? & ? & ? & Hpn & Hsp & _).
  exists i. rewrite playAudioInternal_instances, Hheap, !lookup_insert_eq by done.
  unfold builtFrom. do 12 (split; [done|]). split.
  - rewrite Hsp. by destruct (pa_isSpatial a).
  - rewrite Hpn. destruct (pa_isSpatial a); [split; [by left|done]|].
    destruct (pa_pan a =? 0) eqn:Hpan; cbn.
    + apply Z.eqb_eq in Hpan. split; [by right|done].
    + apply Z.eqb_neq in Hpan. split; [done|]. by intros [?|?].
Qed.

Lemma playAudioInternal_keeps s h a src h' l' :
  wfCore s → h' ≠ h → instances s !! h' = Some l' →
  instances (playAudioInternal s h a src) !! h' = Some l'
  ∧ heap (playAudioInternal s h a src) !! l' = heap s !! l'.
Proof.
  intros Hwf Hne Hl'. destruct (playAudioInternal_table s h a src) as (-> & Hheap & _).
  split.
  - destruct (initialized s && negb (pannerRejected a)); [|done].
    by rewrite lookup_insert_ne.
  - apply Hheap. intros ->.
    destruct (wf_entry _ Hwf _ _ Hl') as (j & ? & Hj & _).
    by rewrite (wf_heap _ Hwf) in Hj.
Qed.

(** Refused, [playAudioInternal] registers nothing. *)
Lemma playAudioInternal_rejected s h a src :
  pannerRejected a = true →
  instances (playAudioInternal s h a src) = instances s
  ∧ heap (playAudioInternal s h a src) = heap s.
Proof.
  intros Hr. destruct (playAudioInternal_refused s h a src (or_intror Hr)) as (c1 & -> & _).
  done.
Qed.

Lemma processPending_ready s still p src :
  sources s !! pa_sourceHandle (pp_args p) = Some src →
  processPending (s, still) p
  = (playAudioInternal s (pp_handle p) (pp_args p) src, still).
Proof. unfold processPending. cbn [fst snd]. by intros ->. Qed.

Lemma processPending_absent s still p :
  sources s !! pa_sourceHandle (pp_args p) = None →
  processPending (s, still) p
  = (s, still ++ match sweepKeep s p with Some p' => [p'] | None => [] end).
Proof.
  unfold processPending, sweepKeep. cbn [fst snd]. intros ->.
  destruct (pp_retries p + 1 <? 10); [done|]. by rewrite app_nil_r.
Qed.

Lemma playAudioInternal_captured_rejected s h a src h' :
  ctxOk (audioContext s) → pannerRejected a = true →
  captured (playAudioInternal s h a src) h' → captured s h'.
Proof.
  intros Hok Hacc (n & bs & l & Hs & Ho).
  destruct (playAudioInternal_refused s h a src (or_intror Hacc)) as (c1 & E & Hc1).
  rewrite E in Hs. st_simpl_in Hs.
  destruct (Hc1 n bs Hok Hs) as [Hs'|Hn]; [|congruence]. by exists n, bs, l.
Qed.

Lemma processPending_fold ps : ∀ s still,
  wfCore s → NoDup (pp_handle <$> ps) →
  (∀ p, p ∈ ps → waitingOk s p) →
  let r := foldl processPending (s, still) ps in
  wfCore r.1 ∧ sameOutside s r.1
  ∧ r.2 = still ++ omap (sweepKeep s) ps
  ∧ (∀ h, instances s !! h = None → ¬ promoted s ps h → instances r.1 !! h = None)
  ∧ (∀ h l, instances s !! h = Some l →
       instances r.1 !! h = Some l ∧ heap r.1 !! l = heap s !! l)
  ∧ (∀ p, p ∈ ps → is_Some (sources s !! pa_sourceHandle (pp_args p)) →
       pannerRejected (pp_args p) = false →
       ∃ l i, instances r.1 !! pp_handle p = Some l ∧ heap r.1 !! l = Some i
         ∧ builtFrom (pp_args p) (currentTime (audioContext s)) i)
  ∧ (∀ h, captured r.1 h → captured s h ∨ promoted s ps h)
  ∧ (∀ h, captured s h → captured r.1 h).
Proof.
  induction ps as [|p0 ps IH]; intros s still Hwf Hnd Hfresh.
  - cbn. split_and!; try done; [by rewrite app_nil_r| |by left].
    intros p Hp. by apply elem_of_nil in Hp.
  - cbn [fmap list_fmap] in Hnd. apply NoDup_cons in Hnd as [Hnotin Hnd].
    destruct (Hfresh p0) as (Hlt0 & Hnone0 & Hncl0 & Hstart0); [by left|].
    cbn [foldl].
    destruct (sources s !! pa_sourceHandle (pp_args p0)) as [src|] eqn:Hsrc.
    + rewrite (processPending_ready _ _ _ _ Hsrc).
      set (s1 := playAudioInternal s (pp_handle p0) (pp_args p0) src).
      assert (wfCore s1) as Hwf1 by (by apply wfCore_playAudioInternal).
      pose proof (sameOutside_playAudioInternal s (pp_handle p0) (pp_args p0) src) as Hso1.
      fold s1 in Hso1.
      destruct (playAudioInternal_table s (pp_handle p0) (pp_args p0) src) as (Hinst1 & _).
      fold s1 in Hinst1. rewrite (wf_init _ Hwf) in Hinst1. cbn [andb] in Hinst1.
      assert (∀ p, p ∈ ps → pp_handle p ≠ pp_handle p0) as Hne.
      { intros p Hp E. apply Hnotin. rewrite <- E. by apply list_elem_of_fmap_2. }
      destruct (IH s1 still Hwf1 Hnd) as (Hwf' & Hso' & Hstill & Hnone & Hkeep & Hnew & Hcap & Hcap').
      { intros p Hp. destruct (Hfresh p) as (? & ? & Hncl & ?); [by right|].
        unfold waitingOk. rewrite (so_next _ _ Hso1), (so_time _ _ Hso1).
        split_and!; try done; try lia.
        - rewrite Hinst1. destruct (negb (pannerRejected (pp_args p0))); [|done].
          rewrite lookup_insert_ne; [done|]. apply not_eq_sym. by apply Hne.
        - intros [?|E]%playAudioInternal_captured; [done| |apply Hwf].
          by apply (Hne p Hp). }
      assert (∀ p, sweepKeep s1 p = sweepKeep s p) as Hsk.
      { intros p. unfold sweepKeep. by rewrite (so_sources _ _ Hso1). }
      assert (∀ h, promoted s1 ps h → promoted s (p0 :: ps) h) as Hprom.
      { intros h (p & Hp & ? & Hs & ?). exists p. rewrite (so_sources _ _ Hso1) in Hs.
        split_and!; try done. by right. }
      split_and!.
      * done.
      * exact (sameOutside_trans _ _ _ Hso1 Hso').
      * rewrite Hstill. f_equal.
        assert (sweepKeep s p0 = None) as E0 by (unfold sweepKeep; by rewrite Hsrc).
        cbn [omap list_omap]. rewrite E0.
        clear -Hsk. induction ps as [|p ps IHps]; [done|].
        cbn [omap list_omap]. by rewrite Hsk, IHps.
      * intros h Hh Hp. apply Hnone.
        -- rewrite Hinst1. destruct (pannerRejected (pp_args p0)) eqn:Hrej; [done|].
           cbn [negb]. rewrite lookup_insert_ne; [done|].
           intros E. apply Hp. exists p0. rewrite Hsrc. split_and!; first [done|by left|by eexists].
        -- intros Hx. by apply Hp, Hprom.
      * intros h l Hl.
        assert (h ≠ pp_handle p0) as Hh by congruence.
        destruct (playAudioInternal_keeps s (pp_handle p0) (pp_args p0) src h l Hwf Hh Hl)
          as [Hl1 Hh1]. fold s1 in Hl1, Hh1.
        destruct (Hkeep _ _ Hl1) as [? Hh2]. split; [done|]. by rewrite Hh2.
      * intros p [->|Hp]%elem_of_cons Hs Hacc.
        -- destruct (playAudioInternal_built s (pp_handle p0) (pp_args p0) src
                       (wf_init _ Hwf) Hacc)
             as (i & Hl1 & Hi1 & Hb). fold s1 in Hl1, Hi1.
           destruct (Hkeep _ _ Hl1) as [? Hh2].
           exists (nextObj s), i. by rewrite Hh2.
        -- rewrite <- (so_sources _ _ Hso1) in Hs.
           destruct (Hnew p Hp Hs Hacc) as (l & i & ? & ? & Hb). exists l, i.
           by rewrite <- (so_time _ _ Hso1).
      * intros h [Hc|Hc]%Hcap; [|right; by apply Hprom].
        destruct (pannerRejected (pp_args p0)) eqn:Hrej.
        -- left. by eapply playAudioInternal_captured_rejected; [apply Hwf|exact Hrej|].
        -- apply playAudioInternal_captured in Hc as [?| ->]; [by left| |apply Hwf].
           right. exists p0. rewrite Hsrc. split_and!; first [done|by left|by eexists].
      * intros h Hc. apply Hcap'. by apply captured_playAudioInternal; [apply Hwf|].
    + rewrite (processPending_absent _ _ _ Hsrc).
      destruct (IH s (still ++ match sweepKeep s p0 with Some p' => [p'] | None => [] end)
                  Hwf Hnd) as (Hwf' & Hso' & Hstill & Hnone & Hkeep & Hnew & Hcap & Hcap');
        [intros p Hp; apply Hfresh; by right|].
      assert (∀ h, promoted s ps h → promoted s (p0 :: ps) h) as Hprom.
      { intros h (p & Hp & ?). exists p. split; [by right|done]. }
      split_and!; try done.
      * rewrite Hstill. cbn [omap list_omap]. rewrite <- app_assoc.
        by destruct (sweepKeep s p0).
      * intros h Hh Hp. apply Hnone; [done|]. intros Hx. by apply Hp, Hprom.
      * intros p [->|Hp]%elem_of_cons Hs; [|by apply Hnew].
        rewrite Hsrc in Hs. by destruct Hs.
      * intros h [?|?]%Hcap; [by left|right; by apply Hprom].
Qed.

(** ** Delivery of [ended] *)

Lemma captured_closureOf s h :
  captured s h ↔ ∃ n l, closureOf (audioContext s) n = Some (l, h).
Proof.
  unfold captured, closureOf. split.
  - intros (n & bs & l & Hs & Ho). exists n, l. by rewrite Hs.
  - intros (n & l & H). destruct (sourceOf (audioContext s) n) as [bs|] eqn:Hs; [|done].
    by exists n, bs, l.
Qed.

Lemma captured_same s s' h :
  (∀ n, closureOf (audioContext s') n = closureOf (audioContext s) n) →
  captured s' h → captured s h.
Proof.
  intros E. rewrite !captured_closureOf. intros (n & l & H). exists n, l. by rewrite <- E.
Qed.

Lemma closureOf_sourceCore c c' n :
  sourceCore <$> sourceOf c' n = sourceCore <$> sourceOf c n →
  closureOf c' n = closureOf c n.
Proof.
  unfold closureOf. destruct (sourceOf c' n), (sourceOf c n); try done.
  by intros [= -> _].
Qed.

Lemma closureOf_updSource f n0 c n :
  (∀ bs, bs_onended (f bs) = bs_onended bs) →
  closureOf (updSource f n0 c) n = closureOf c n.
Proof.
  intros Hf. unfold closureOf. rewrite sourceOf_updSource. case_decide; [|done].
  destruct (sourceOf c n); cbn; [apply Hf|done].
Qed.

(** The two outcomes of the delivery: the handler is idle (no closure, or
    an instance stopped or looping), or it pushes and deletes. *)
Lemma deliverEnded_cases s n bs :
  sourceOf (audioContext s) n = Some bs →
  (deliverEnded s n = set_audioContext (markEnded n) s
   ∧ ∀ l h i, bs_onended bs = Some (l, h) → heap s !! l = Some i →
       inst_stopped i = true ∨ inst_loop i = true)
  ∨ ∃ l h i, bs_onended bs = Some (l, h) ∧ heap s !! l = Some i
      ∧ inst_stopped i = false ∧ inst_loop i = false
      ∧ deliverEnded s n = endedState s n h i.
Proof.
  intros Hs. rewrite (deliverEnded_eq s n bs Hs).
  destruct (bs_onended bs) as [[l h]|]; [|left; by split].
  unfold onended. st_simpl. destruct (heap s !! l) as [i|] eqn:Hi;
    [|left; split; [done|]; intros ? ? ? [= <- <-]; by rewrite Hi].
  destruct (inst_stopped i) eqn:Hst;
    [left; split; [done|]; intros ? ? ? [= <- <-]; rewrite Hi; intros [= <-]; auto|].
  destruct (inst_loop i) eqn:Hlo;
    [left; split; [done|]; intros ? ? ? [= <- <-]; rewrite Hi; intros [= <-]; auto|].
  right. exists l, h, i. split_and!; try done. cbn [negb andb]. unfold endedState.
  by destruct (inst_hasCallback i).
Qed.

(** ** The deferred queue under the steps that do not touch it *)

Lemma wfPending_quiet s s' : wfPending s → quiet s s' → wfPending s'.
Proof.
  intros Hp Hq. split.
  - rewrite (q_pending _ _ Hq), (q_next _ _ Hq). apply Hp.
  - rewrite (q_pending _ _ Hq). apply Hp.
  - rewrite (q_pending _ _ Hq). intros p Hin. apply (q_inst _ _ Hq). by apply Hp.
  - rewrite (q_pending _ _ Hq). intros p Hin Hfin.
    destruct (q_fin _ _ Hq _ Hfin) as [?|Hc].
    + by apply (wf_pend_fin _ Hp p).
    + by apply (wf_pend_closure _ Hp p).
  - rewrite (q_pending _ _ Hq). apply Hp.
  - rewrite (q_pending _ _ Hq). apply Hp.
  - rewrite (q_pending _ _ Hq). intros p Hin Hc%(q_captured _ _ Hq).
    by apply (wf_pend_closure _ Hp p).
  - rewrite (q_pending _ _ Hq). intros p Hin.
    pose proof (wf_pend_start _ Hp p Hin). pose proof (q_time _ _ Hq). lia.
  - rewrite (q_pending _ _ Hq), (q_timers _ _ Hq). apply Hp.
Qed.

Lemma quiet_refl s : quiet s s.
Proof. split; auto. lia. Qed.

Lemma quiet_same s s' :
  pendingPlays s' = pendingPlays s → timers s' = timers s →
  nextInstanceHandle s' = nextInstanceHandle s →
  instances s' = instances s → finishedCallbacks s' = finishedCallbacks s →
  (∀ n, closureOf (audioContext s') n = closureOf (audioContext s) n) →
  currentTime (audioContext s) ≤ currentTime (audioContext s') →
  quiet s s'.
Proof.
  intros ? ? ? Hi Hf Hc ?. split; try done; rewrite ?Hi, ?Hf; auto.
  intros h. by apply captured_same.
Qed.

Lemma closureOf_stopInstance s l n :
  closureOf (audioContext (stopInstance s l)) n = closureOf (audioContext s) n.
Proof.
  unfold stopInstance. destruct (heap s !! l) as [i|]; [|done].
  destruct (inst_stopped i); [done|]. st_simpl. unfold closureOf.
  rewrite !sourceOf_disconnectOpt. unfold disconnect, stopNode.
  change (sourceOf (set_edges ?f (set_edges ?g ?c)) n) with (sourceOf c n).
  rewrite sourceOf_updSource. case_decide; [|done].
  by destruct (sourceOf (audioContext s) n).
Qed.

Lemma closureOf_stopAllAudio s b n :
  closureOf (audioContext (stopAllAudio s b)) n = closureOf (audioContext s) n.
Proof.
  unfold stopAllAudio. generalize (map_to_list (instances s)). intros es. revert s.
  induction es as [|e es IH]; intros s; [done|]. cbn [foldl]. rewrite IH.
  unfold stopAllStep. destruct (heap s !! e.2) as [i|]; [|done].
  destruct (stopAllMatch b i); [|done]. st_simpl. apply closureOf_stopInstance.
Qed.

Lemma closureOf_resumeContext s h l i source n bs :
  ctxOk (audioContext s) →
  sourceOf (audioContext s) (inst_sourceNode i) = Some bs → bs_onended bs = Some (l, h) →
  closureOf (resumeContext s h l i source) n
  = if decide (n = nextNode (audioContext s)) then Some (l, h)
    else closureOf (audioContext s) n.
Proof.
  intros Hok Hs Ho. unfold closureOf. rewrite resumeContext_sourceOf by done.
  case_decide; [|done]. by rewrite resumeContext_source.
Qed.

Ltac closure_tac :=
  intros; st_simpl; ctx_unfold; unfold closureOf;
  rewrite ?sourceOf_onGain, ?sourceOf_onStereo, ?sourceOf_onPanner; try done;
  fold (closureOf); first [by apply closureOf_updSource | done].

Lemma step_quiet s e :
  wfCore s → hostOk s e = true → touchesQueue e = false → quiet s (step s e).
Proof.
  intros Hwf Hok Hq. destruct e; try done; cbn [step].
  - rewrite (js_load_audio_eq _ (wf_init _ Hwf)). by apply quiet_same.
  - by apply quiet_same.
  - by apply quiet_same.
  - by apply quiet_same.
  - unfold stopAudio. destruct (instances s !! instanceHandle) as [l|] eqn:Hl;
      [|apply quiet_refl].
    destruct (stopInstance_frame s l) as (Hi & Hf & Hp & Ht & Hn & _ & _ & _ & _ & _ & Htime & _).
    split; st_simpl; try done.
    + intros h Hh. rewrite Hi, lookup_delete. by case_decide.
    + intros x. rewrite Hf. by left.
    + intros h. apply captured_same. intros n. apply closureOf_stopInstance.
    + lia.
  - unfold pauseAudio. destruct (getInstance s instanceHandle) as [[l i]|]; [|apply quiet_refl].
    destruct (inst_paused i || inst_stopped i); [apply quiet_refl|].
    apply quiet_same; try done. intros n. st_simpl. unfold stopNode.
    by apply closureOf_updSource.
  - destruct (getInstance s instanceHandle) as [[l i]|] eqn:Hg;
      [|rewrite resumeAudio_noop; [apply quiet_refl|intros; congruence]].
    destruct (inst_paused i) eqn:Hpa;
      [|rewrite resumeAudio_noop; [apply quiet_refl|
         intros ? ? E; rewrite Hg in E; injection E as <- <-; by left]].
    destruct (inst_stopped i) eqn:Hst;
      [rewrite resumeAudio_noop; [apply quiet_refl|
         intros ? ? E; rewrite Hg in E; injection E as <- <-; by right; left]|].
    destruct (sources s !! inst_sourceHandle i) as [source|] eqn:Hsrc;
      [|rewrite resumeAudio_noop; [apply quiet_refl|
         intros ? ? E; rewrite Hg in E; injection E as <- <-; by right; right]].
    rewrite (resumeAudio_eq _ _ _ _ _ Hg Hpa Hst Hsrc).
    apply getInstance_Some in Hg as [Hl Hi].
    destruct (wf_entry _ Hwf _ _ Hl) as (j & bs & Hj & _ & Hbs & Ho & _).
    assert (j = i) as -> by congruence.
    split; st_simpl; try done; [by left| |by rewrite resumeContext_currentTime].
    intros h. rewrite !captured_closureOf. st_simpl. intros (n & l' & Hc).
    rewrite (closureOf_resumeContext _ _ _ _ _ _ bs (wf_nodes _ Hwf) Hbs Ho) in Hc.
    case_decide; [|by exists n, l'].
    injection Hc as <- <-. exists (inst_sourceNode i), l. unfold closureOf. by rewrite Hbs.
  - destruct (stopAllAudio_spec s busHandle Hwf) as (_ & Hso & Hnone & _).
    split; try apply Hso; [done| | |].
    + intros x. rewrite (so_finished _ _ Hso). by left.
    + intros h. apply captured_same. intros n. apply closureOf_stopAllAudio.
    + rewrite (so_time _ _ Hso). lia.
  - unfold setAudioVolume. destruct (getInstance s instanceHandle) as [[l i]|];
      [|apply quiet_refl]. apply quiet_same; try done. closure_tac.
  - unfold setAudioPan. destruct (getInstance s instanceHandle) as [[l i]|];
      [|apply quiet_refl]. destruct (inst_pannerNode i); [|apply quiet_refl].
    apply quiet_same; try done. closure_tac.
  - unfold setAudioPitch. destruct (getInstance s instanceHandle) as [[l i]|];
      [|apply quiet_refl]. apply quiet_same; try done. closure_tac.
  - unfold setAudioLooping. destruct (getInstance s instanceHandle) as [[l i]|];
      [|apply quiet_refl]. apply quiet_same; try done. closure_tac.
  - unfold setAudioPosition. destruct (getInstance s instanceHandle) as [[l i]|];
      [|apply quiet_refl]. destruct (inst_spatialPanner i); [|apply quiet_refl].
    apply quiet_same; try done. closure_tac.
  - unfold createAudioBus. rewrite (wf_init _ Hwf). apply quiet_same; try done.
    intros n. unfold closureOf, sourceOf. cbn. rewrite lookup_insert.
    case_decide; [subst|done]. by rewrite (wf_nodes _ Hwf).
  - unfold destroyAudioBus. destruct (busHandle <=? 1); [apply quiet_refl|].
    destruct (buses s !! busHandle); [|apply quiet_refl]. by apply quiet_same.
  - unfold setAudioBusVolume. destruct (buses s !! busHandle) as [bus|]; [|apply quiet_refl].
    destruct (negb (bus_muted bus)); apply quiet_same; try done. closure_tac.
  - unfold setAudioBusMuted. destruct (buses s !! busHandle) as [bus|]; [|apply quiet_refl].
    apply quiet_same; try done. closure_tac.
  - unfold setListenerPosition. destruct (negb (initialized s)); [apply quiet_refl|].
    by apply quiet_same.
  - unfold pollFinishedCallback. destruct (finishedCallbacks s) as [|x rest] eqn:E;
      [apply quiet_refl|].
    split; st_simpl; try done. intros y Hy. left. rewrite E. by right.
  - destruct (hostOk_ended s node Hok) as (bs & Hs & _).
    assert (∀ n, closureOf (markEnded node (audioContext s)) n = closureOf (audioContext s) n)
      as Hcl by (intros n; unfold markEnded; by apply closureOf_updSource).
    destruct (deliverEnded_cases s node bs Hs) as [[-> _]|(l & h & i & Ho & Hi & _ & _ & ->)].
    + by apply quiet_same.
    + unfold endedState. destruct (inst_hasCallback i); split; st_simpl; try done.
      * intros h' Hh. rewrite lookup_delete. by case_decide.
      * intros x [?| ->%list_elem_of_singleton]%elem_of_app; [by left|right].
        by exists node, bs, l.
      * intros h'. by apply captured_same.
      * intros h' Hh. rewrite lookup_delete. by case_decide.
      * intros x ?. by left.
      * intros h'. by apply captured_same.
  - apply quiet_same; try done. cbn. lia.
Qed.

(** ** The invariant along the steps of the engine *)

Lemma sweepKeep_Some s p p' :
  sweepKeep s p = Some p' →
  pp_handle p' = pp_handle p ∧ pp_args p' = pp_args p
  ∧ pp_retries p' = pp_retries p + 1 ∧ pp_retries p + 1 < 10
  ∧ sources s !! pa_sourceHandle (pp_args p) = None.
Proof.
  unfold sweepKeep. destruct (sources s !! _); [done|].
  destruct (pp_retries p + 1 <? 10) eqn:E; [|done]. intros [= <-]. cbn.
  apply Z.ltb_lt in E. done.
Qed.

Lemma sweepKeep_handles s ps :
  (pp_handle <$> omap (sweepKeep s) ps) `sublist_of` (pp_handle <$> ps).
Proof.
  induction ps as [|p ps IH]; [done|]. cbn [omap list_omap fmap list_fmap].
  destruct (sweepKeep s p) as [p'|] eqn:E.
  - apply sweepKeep_Some in E as (<- & _). by apply sublist_skip.
  - by apply sublist_cons.
Qed.

Lemma wfPending_playAudio s a :
  wf s → hostOk s (PlayAudio a) = true → wfPending (playAudio s a).2.
Proof.
  intros [Hwf Hp] Hhost. unfold playAudio. rewrite (wf_init _ Hwf). cbn [negb].
  cbn [hostOk] in Hhost. apply Z.leb_le in Hhost.
  destruct (next_handle_fresh s Hwf) as [Hnone Hncl].
  destruct (sources s !! pa_sourceHandle a) as [source|]; cbn [snd].
  - set (s0 := set_nextInstanceHandle (nextInstanceHandle s + 1) s).
    destruct (playAudioInternal_table s0 (nextInstanceHandle s) a source)
      as (Hinst & _ & Hfin & Hpend & Htim & Hnext & _).
    pose proof (playAudioInternal_currentTime s0 (nextInstanceHandle s) a source) as Htime.
    split; rewrite ?Hpend, ?Hfin, ?Htim, ?Hnext, ?Htime.
    + intros p Hin. cbn. pose proof (wf_pend_lt _ Hp p Hin). lia.
    + apply Hp.
    + intros p Hin. rewrite Hinst. pose proof (wf_pend_lt _ Hp p Hin).
      destruct (initialized s0 && negb (pannerRejected a)); [|by apply Hp].
      rewrite lookup_insert_ne by lia. by apply Hp.
    + apply Hp.
    + apply Hp.
    + apply Hp.
    + intros p Hin [Hc|E]%playAudioInternal_captured; [|pose proof (wf_pend_lt _ Hp p Hin); lia
                                                       |apply Hwf].
      by apply (wf_pend_closure _ Hp p).
    + apply Hp.
    + apply Hp.
  - assert (∀ s', pendingPlays s' = pendingPlays s ++ [mkPendingPlay (nextInstanceHandle s) a 0] →
      nextInstanceHandle s' = nextInstanceHandle s + 1 →
      instances s' = instances s → finishedCallbacks s' = finishedCallbacks s →
      audioContext s' = audioContext s →
      timers s' = (if (length (pendingPlays s') =? 1)%nat then S (timers s) else timers s) →
      wfPending s') as Hgen.
    { intros s' Epend Enext Einst Efin Ectx Etim.
      assert (∀ h, captured s' h ↔ captured s h) as Ecap.
      { intros h. unfold captured. by rewrite Ectx. }
      split; rewrite ?Epend, ?Enext, ?Einst, ?Efin, ?Ectx.
      - intros p [Hin| ->%list_elem_of_singleton]%elem_of_app; cbn; [|lia].
        pose proof (wf_pend_lt _ Hp p Hin). lia.
      - rewrite fmap_app. apply NoDup_app. split_and!; [apply Hp| |apply NoDup_singleton].
        intros x (p & -> & Hin)%list_elem_of_fmap [= E]%list_elem_of_singleton.
        pose proof (wf_pend_lt _ Hp p Hin). cbn in E. lia.
      - intros p [Hin| ->%list_elem_of_singleton]%elem_of_app; [by apply Hp|done].
      - intros p [Hin| ->%list_elem_of_singleton]%elem_of_app; [by apply Hp|].
        cbn. intros Hf. pose proof (wf_fin_lt _ Hwf _ Hf). lia.
      - intros p [Hin| ->%list_elem_of_singleton]%elem_of_app; [by apply Hp|]. cbn. lia.
      - intros p [Hin| ->%list_elem_of_singleton]%elem_of_app; [by apply Hp|]. cbn.
        apply Hwf.
      - intros p [Hin| ->%list_elem_of_singleton]%elem_of_app; rewrite Ecap;
          [by apply Hp|done].
      - intros p [Hin| ->%list_elem_of_singleton]%elem_of_app; [by apply Hp|done].
      - rewrite Etim, Epend, (wf_timers _ Hp). destruct (pendingPlays s) as [|p [|q ps]]; done. }
    match goal with |- context [if ?b then _ else _] => destruct b eqn:Eb end;
      apply Hgen; st_simpl; try done; st_simpl_in Eb; by rewrite Eb.
Qed.

Lemma wfCore_set_timers s t : wfCore s → wfCore (set_timers t s).
Proof.
  intros Hwf. pose proof (wf_nodes _ Hwf).
  apply (wfCore_frame s); try (frame_tac; fail); apply Hwf.
Qed.

Lemma wfCore_set_pendingPlays s ps : wfCore s → wfCore (set_pendingPlays ps s).
Proof.
  intros Hwf. pose proof (wf_nodes _ Hwf).
  apply (wfCore_frame s); try (frame_tac; fail); apply Hwf.
Qed.

(** The sweep, as seen from the state before it. *)
Lemma processPendingPlays_spec s :
  wfCore s →
  NoDup (pp_handle <$> pendingPlays s) →
  (∀ p, p ∈ pendingPlays s → waitingOk s p) →
  let s' := processPendingPlays s in
  wfCore s'
  ∧ pendingPlays s' = omap (sweepKeep s) (pendingPlays s)
  ∧ timers s' = (if (0 <? length (pendingPlays s'))%nat then S (timers s) else timers s)
  ∧ finishedCallbacks s' = finishedCallbacks s
  ∧ nextInstanceHandle s' = nextInstanceHandle s
  ∧ sources s' = sources s ∧ decoding s' = decoding s
  ∧ nextSourceHandle s' = nextSourceHandle s
  ∧ currentTime (audioContext s') = currentTime (audioContext s)
  ∧ (∀ h, instances s !! h = None → ¬ promoted s (pendingPlays s) h →
       instances s' !! h = None)
  ∧ (∀ h l, instances s !! h = Some l →
       instances s' !! h = Some l ∧ heap s' !! l = heap s !! l)
  ∧ (∀ p, p ∈ pendingPlays s → is_Some (sources s !! pa_sourceHandle (pp_args p)) →
       pannerRejected (pp_args p) = false →
       ∃ l i, instances s' !! pp_handle p = Some l ∧ heap s' !! l = Some i
         ∧ builtFrom (pp_args p) (currentTime (audioContext s)) i)
  ∧ (∀ h, captured s' h → captured s h ∨ promoted s (pendingPlays s) h)
  ∧ (∀ h, captured s h → captured s' h).
Proof.
  intros Hwf Hnd Hfresh.
  destruct (processPending_fold (pendingPlays s) s [] Hwf Hnd Hfresh)
    as (Hwf' & Hso & Hstill & Hnone & Hkeep & Hnew & Hcap & Hcap').
  cbn zeta. unfold processPendingPlays.
  set (r := foldl processPending (s, []) (pendingPlays s)) in *.
  cbn [app] in Hstill.
  destruct (0 <? length r.2)%nat eqn:El.
  all: split_and!; st_simpl; rewrite ?El; try done; try apply Hso.
  all: try (by apply wfCore_set_timers, wfCore_set_pendingPlays).
  all: try (by apply wfCore_set_pendingPlays).
  all: by rewrite (so_timers _ _ Hso).
Qed.

(** The requests of a well-formed queue are ready for the sweep. *)
Lemma wf_waitingOk s p : wf s → p ∈ pendingPlays s → waitingOk s p.
Proof.
  intros [Hwf Hp] Hin. unfold waitingOk. split_and!.
  - by apply (wf_pend_pos _ Hp).
  - by apply (wf_pend_lt _ Hp).
  - by apply (wf_pend_inst _ Hp).
  - by apply (wf_pend_closure _ Hp).
  - by apply (wf_pend_start _ Hp).
Qed.

(** In a queue without duplicate handles, a request the sweep keeps is
    not one it promotes. *)
Lemma kept_not_promoted s ps p p' :
  NoDup (pp_handle <$> ps) → p ∈ ps → sweepKeep s p = Some p' →
  ¬ promoted s ps (pp_handle p).
Proof.
  intros Hnd Hin (_ & _ & _ & _ & Hsrc)%sweepKeep_Some (q & Hq & Eq & Hs & _).
  assert (q = p) as ->; [|rewrite Hsrc in Hs; by destruct Hs].
  apply list_elem_of_lookup in Hq as [k Hk]. apply list_elem_of_lookup in Hin as [k' Hk'].
  assert (k = k') as ->; [|congruence].
  eapply NoDup_lookup; [exact Hnd|..]; rewrite list_lookup_fmap.
  + by rewrite Hk.
  + rewrite Hk'. cbn. by rewrite Eq.
Qed.

Lemma wf_timerFired s :
  wf s → hostOk s TimerFired = true → wf (step s TimerFired).
Proof.
  intros Hwfs Hok. pose proof Hwfs as [Hwf Hp]. cbn in Hok. cbn [step].
  assert (timers s = 1%nat ∧ pendingPlays s ≠ []) as [Ht Hne].
  { pose proof (wf_timers _ Hp) as E. destruct (pendingPlays s); [|done].
    rewrite E in Hok. done. }
  rewrite Ht. cbn [Nat.pred].
  set (s0 := set_timers 0 s).
  destruct (processPendingPlays_spec s0)
    as (Hwf' & Hpend & Htim & Hfin & Hnext & _ & _ & _ & Htime & Hnone & _ & _ & Hcap & _).
  { by apply wfCore_set_timers. }
  { apply Hp. }
  { intros p Hin. by apply (wf_waitingOk s). }
  change (pendingPlays s0) with (pendingPlays s) in *.
  change (sources s0) with (sources s) in *.
  change (instances s0) with (instances s) in *.
  assert (∀ h, promoted s0 (pendingPlays s) h ↔ promoted s (pendingPlays s) h) as Hprom by done.
  assert (∀ h, captured s0 h ↔ captured s h) as Hcap0 by done.
  split; [done|]. split.
  - rewrite Hpend, Hnext. intros p' (p & Hin & (-> & _)%sweepKeep_Some)%list_elem_of_omap.
    by apply (wf_pend_lt _ Hp).
  - rewrite Hpend. eapply sublist_NoDup; [apply Hp|apply sweepKeep_handles].
  - rewrite Hpend. intros p' (p & Hin & Hk)%list_elem_of_omap.
    pose proof Hk as (E & _)%sweepKeep_Some.
    rewrite E. apply Hnone; [by apply (wf_pend_inst _ Hp)|].
    rewrite Hprom. eapply kept_not_promoted; [apply Hp|done|done].
  - rewrite Hpend, Hfin.
    intros p' (p & Hin & (-> & _)%sweepKeep_Some)%list_elem_of_omap.
    by apply (wf_pend_fin _ Hp).
  - rewrite Hpend. intros p' (p & Hin & (_ & _ & -> & ? & _)%sweepKeep_Some)%list_elem_of_omap.
    pose proof (wf_pend_retries _ Hp p Hin). lia.
  - rewrite Hpend. intros p' (p & Hin & (-> & _)%sweepKeep_Some)%list_elem_of_omap.
    by apply (wf_pend_pos _ Hp).
  - rewrite Hpend. intros p' (p & Hin & Hk)%list_elem_of_omap.
    pose proof Hk as (E & _)%sweepKeep_Some. rewrite E.
    intros [Hc|Hc]%Hcap.
    + by apply (wf_pend_closure _ Hp p).
    + revert Hc. rewrite Hprom. eapply kept_not_promoted; [apply Hp|done|done].
  - rewrite Hpend, Htime.
    intros p' (p & Hin & (_ & -> & _)%sweepKeep_Some)%list_elem_of_omap.
    by apply (wf_pend_start _ Hp).
  - rewrite Htim. by destruct (pendingPlays (processPendingPlays s0)).
Qed.

Lemma wf_step s e : wf s → hostOk s e = true → wf (step s e).
Proof.
  intros Hwf Hok.
  destruct (touchesQueue e) eqn:Hq.
  - destruct e; try done.
    + split; [apply wfCore_playAudio; [apply Hwf|done]|by apply wfPending_playAudio].
    + by apply wf_timerFired.
  - destruct Hwf as [Hwf Hp]. split.
    + destruct e; try done; cbn [step].
      * by apply wfCore_js_load_audio.
      * by apply wfCore_decodeResolved.
      * by apply wfCore_decodeRejected.
      * by apply wfCore_destroyAudio.
      * by apply wfCore_stopAudio.
      * by apply wfCore_pauseAudio.
      * by apply wfCore_resumeAudio.
      * by apply stopAllAudio_spec.
      * by apply wfCore_setAudioVolume.
      * by apply wfCore_setAudioPan.
      * by apply wfCore_setAudioPitch.
      * by apply wfCore_setAudioLooping.
      * by apply wfCore_setAudioPosition.
      * by apply wfCore_createAudioBus.
      * by apply wfCore_destroyAudioBus.
      * by apply wfCore_setAudioBusVolume.
      * by apply wfCore_setAudioBusMuted.
      * by apply wfCore_setListenerPosition.
      * by apply wfCore_pollFinishedCallback.
      * by apply wfCore_deliverEnded.
      * by apply wfCore_advance.
    + eapply wfPending_quiet; [done|]. by apply step_quiet.
Qed.

Lemma wf_started : wf started.
Proof.
  assert (∀ n, nodes (audioContext started) !! n
    = if decide (n = 1) then Some (NGain 1)
      else if decide (n = 0) then Some NDestination else None) as Hnodes.
  { intros n. unfold started, init, init_in, initial, newContext, destination. cbn.
    rewrite lookup_insert. destruct (decide (1 = n)) as [<-|]; [done|].
    rewrite decide_False by done. rewrite lookup_singleton.
    destruct (decide (0 = n)) as [<-|]; [done|]. by rewrite decide_False. }
  split; split; try done.
  - intros h Hh. by apply elem_of_nil in Hh.
  - intros n bs. unfold sourceOf. rewrite Hnodes. by repeat case_decide.
  - intros n Hn. rewrite Hnodes. change (nextNode (audioContext started)) with 2 in Hn.
    rewrite !decide_False by lia. done.
  - intros b bus. change (buses started) with (<[1 := mkBus 1 1 false]> (∅ : gmap Z Bus)).
    rewrite lookup_insert_Some, lookup_empty. intros [[<- <-]|[_ ?]]; done.
  - intros p Hp. by apply elem_of_nil in Hp.
  - apply NoDup_nil_2.
  - intros p Hp. by apply elem_of_nil in Hp.
  - intros p Hp. by apply elem_of_nil in Hp.
  - intros p Hp. by apply elem_of_nil in Hp.
  - intros p Hp. by apply elem_of_nil in Hp.
  - intros p Hp. by apply elem_of_nil in Hp.
Qed.

Lemma wf_run t : ∀ s, wf s → traceOk s t = true → wf (run s t).
Proof.
  induction t as [|e t IH]; intros s Hwf Hok; [done|].
  cbn in Hok. apply andb_prop in Hok as [He Ht]. cbn. apply IH; [|done].
  by apply wf_step.
Qed.

(** ** Pause and resume *)

Lemma getInstance_insert s f h l i' :
  instances s !! h = Some l →
  getInstance (set_audioContext f (set_heap (<[l := i']>) s)) h = Some (l, i').
Proof. intros Hl. unfold getInstance. st_simpl. by rewrite Hl, lookup_insert_eq. Qed.

Lemma getAudioTime_playing s h l i :
  getInstance s h = Some (l, i) → inst_paused i = false → inst_stopped i = false →
  getAudioTime s h
  = let elapsed := currentTime (audioContext s) - inst_startTime i in
    match sources s !! inst_sourceHandle i with
    | Some source =>
        if inst_loop i then js_rem elapsed (src_duration source)
        else Z.min elapsed (src_duration source)
    | None => elapsed
    end.
Proof.
  intros Hg Hp Hs. unfold getAudioTime. rewrite Hg, Hp, Hs. cbn zeta.
  destruct (sources s !! inst_sourceHandle i); [done|]. apply Z.min_id.
Qed.

Lemma getAudioTime_paused s h l i :
  getInstance s h = Some (l, i) → inst_paused i = true →
  getAudioTime s h = inst_pauseTime i.
Proof. intros Hg Hp. unfold getAudioTime. by rewrite Hg, Hp. Qed.



(** ** [getAudioTime] *)

(** Claim C4, with the case of a source no longer registered: what
    [getAudioTime] returns.  It returns 0 for a handle with no entry,
    [pauseTime] for a paused instance, 0 for a stopped one; for an instance
    neither paused nor stopped, with [elapsed = currentTime - startTime]:
    while its source is registered, with duration [duration], it returns
    [min(elapsed, duration)] when the instance does not loop and the
    remainder [elapsed % duration] when it loops (which is
    [elapsed mod duration] once [elapsed] is not negative and the duration
    is positive); when its source is no longer registered it returns
    [elapsed] itself, looping or not. *)
Theorem getAudioTime_cases s h :
  (getInstance s h = None → getAudioTime s h = 0)
  ∧ ∀ l i, getInstance s h = Some (l, i) →
      (inst_paused i = true → getAudioTime s h = inst_pauseTime i)
      ∧ (inst_paused i = false → inst_stopped i = true → getAudioTime s h = 0)
      ∧ (inst_paused i = false → inst_stopped i = false →
         let elapsed := currentTime (audioContext s) - inst_startTime i in
         (∀ source, sources s !! inst_sourceHandle i = Some source →
            let duration := getAudioDuration s (inst_sourceHandle i) in
            duration = src_duration source
            ∧ (inst_loop i = false → getAudioTime s h = Z.min elapsed duration)
            ∧ (inst_loop i = true →
               getAudioTime s h = js_rem elapsed duration
               ∧ (0 ≤ elapsed → 0 < duration → getAudioTime s h = elapsed mod duration)))
         ∧ (sources s !! inst_sourceHandle i = None → getAudioTime s h = elapsed)).
Proof.
  split; [unfold getAudioTime; by intros ->|].
  intros l i Hg. split_and!.
  - by apply (getAudioTime_paused _ _ l).
  - intros Hp Hs. unfold getAudioTime. by rewrite Hg, Hp, Hs.
  - intros Hp Hs elapsed. rewrite (getAudioTime_playing _ _ _ _ Hg Hp Hs). cbn zeta.
    fold elapsed. split.
    + intros source Hsrc. unfold getAudioDuration.
      rewrite Hsrc. split_and!; [done|by intros ->|]. intros ->. split; [done|].
      intros He Hd. unfold js_rem. by apply Z.rem_mod_nonneg.
    + by intros ->.
Qed.

(** The non-looping case at [exPlaying]: three ticks after the start of a
    buffer of ten. *)
Lemma getAudioTime_cases_witness : getAudioTime exPlaying 1 = 3.
Proof.
  destruct (getAudioTime_cases exPlaying 1) as [_ H].
  destruct (H 0 _ eq_refl) as (_ & _ & H3).
  destruct (H3 eq_refl eq_refl) as [H4 _].
  destruct (H4 _ eq_refl) as (_ & H5 & _).
  rewrite (H5 eq_refl). reflexivity.
Defined.

(** Claim C4 as worded does not hold once the source of a playing instance
    is destroyed: the duration of the referenced source then reads 0, and
    [getAudioTime] returns [elapsed] (3, and 13 for the looping instance),
    neither [min(elapsed, duration)] nor [elapsed % duration]. *)
Lemma getAudioTime_destroyed_source :
  (∃ l i, getInstance exDestroyed 1 = Some (l, i)
     ∧ inst_paused i = false ∧ inst_stopped i = false ∧ inst_loop i = false
     ∧ currentTime (audioContext exDestroyed) - inst_startTime i = 3
     ∧ getAudioDuration exDestroyed (inst_sourceHandle i) = 0
     ∧ getAudioTime exDestroyed 1 = 3
     ∧ getAudioTime exDestroyed 1
       ≠ Z.min (currentTime (audioContext exDestroyed) - inst_startTime i)
               (getAudioDuration exDestroyed (inst_sourceHandle i)))
  ∧ (∃ l i, getInstance exLoopDestroyed 1 = Some (l, i)
       ∧ inst_paused i = false ∧ inst_stopped i = false ∧ inst_loop i = true
       ∧ currentTime (audioContext exLoopDestroyed) - inst_startTime i = 13
       ∧ getAudioDuration exLooping (inst_sourceHandle i) = 10
       ∧ getAudioTime exLooping 1 = 3
       ∧ getAudioTime exLoopDestroyed 1 = 13
       ∧ getAudioTime exLoopDestroyed 1
         ≠ js_rem (currentTime (audioContext exLoopDestroyed) - inst_startTime i) 10).
Proof.
  split; eexists _, _; (split; [vm_compute; reflexivity|]); by vm_compute.
Qed.


(** immediate play *)
Lemma playAudio_ready s a source :
  initialized s = true → sources s !! pa_sourceHandle a = Some source →
  playAudio s a
  = (nextInstanceHandle s,
     playAudioInternal (set_nextInstanceHandle (nextInstanceHandle s + 1) s)
       (nextInstanceHandle s) a source).
Proof. intros Hi Hs. unfold playAudio. by rewrite Hi, Hs. Qed.

Lemma playAudio_deferred s a :
  initialized s = true → sources s !! pa_sourceHandle a = None →
  let h := nextInstanceHandle s in
  (playAudio s a).1 = h
  ∧ pendingPlays (playAudio s a).2 = pendingPlays s ++ [mkPendingPlay h a 0]
  ∧ instances (playAudio s a).2 = instances s
  ∧ heap (playAudio s a).2 = heap s
  ∧ finishedCallbacks (playAudio s a).2 = finishedCallbacks s
  ∧ sources (playAudio s a).2 = sources s
  ∧ nextInstanceHandle (playAudio s a).2 = h + 1
  ∧ audioContext (playAudio s a).2 = audioContext s.
Proof.
  intros Hi Hs. unfold playAudio. rewrite Hi, Hs. cbn [negb fst snd].
  match goal with |- context [if ?b then _ else _] => destruct b end; by split_and!.
Qed.

Lemma getInstance_eq s h l i :
  instances s !! h = Some l → heap s !! l = Some i → getInstance s h = Some (l, i).
Proof. intros. by apply getInstance_Some. Qed.

(** Claim C9, with the looping case told apart: an instance built by
    [playAudioInternal] on an initialized engine, from arguments the host
    accepts, with a positive delay [d], has [startTime = currentTime + d],
    and while the clock has moved by [dt < d] only, it counts as playing
    and [elapsed = dt - d] is negative.  [getAudioTime] then returns
    [elapsed], a negative number, when the instance does not loop; when it
    loops it returns the remainder [elapsed % duration], which lies in
    [(-duration, 0]] and is 0 exactly when the duration divides [elapsed].
    The immediate play of a registered source and the promotion of a
    deferred request both build the instance by this function.  And in
    any state, for any playing instance whose start time the clock has not
    reached, [getAudioTime] returns [elapsed = currentTime - startTime],
    which is negative, when the instance does not loop or its source is
    no longer registered, and the remainder [elapsed % duration], in
    [(-duration, 0]], when it loops. *)
Theorem getAudioTime_before_start s handle a source (dt : N) :
  initialized s = true → pannerRejected a = false →
  sources s !! pa_sourceHandle a = Some source → 0 < src_duration source →
  0 < pa_delay a → Z.of_N dt < pa_delay a →
  let s1 := playAudioInternal s handle a source in
  let s2 := step s1 (Advance dt) in
  let elapsed := Z.of_N dt - pa_delay a in
  (∃ l i,
     getInstance s2 handle = Some (l, i)
     ∧ inst_startTime i = currentTime (audioContext s) + pa_delay a
     ∧ currentTime (audioContext s2) < inst_startTime i
     ∧ isAudioPlaying s2 handle = true
     ∧ (pa_loop a = false → getAudioTime s2 handle = elapsed ∧ getAudioTime s2 handle < 0)
     ∧ (pa_loop a = true →
        getAudioTime s2 handle = js_rem elapsed (src_duration source)
        ∧ - src_duration source < getAudioTime s2 handle ≤ 0
        ∧ (getAudioTime s2 handle = 0 ↔ (src_duration source | elapsed))))
  ∧ playAudio s a
    = (nextInstanceHandle s,
       playAudioInternal (set_nextInstanceHandle (nextInstanceHandle s + 1) s)
         (nextInstanceHandle s) a source)
  ∧ (∀ still retries,
       processPending (s, still) (mkPendingPlay handle a retries)
       = (playAudioInternal s handle a source, still))
  ∧ (∀ s' h l i, getInstance s' h = Some (l, i) →
       inst_paused i = false → inst_stopped i = false →
       currentTime (audioContext s') < inst_startTime i →
       let e := currentTime (audioContext s') - inst_startTime i in
       match sources s' !! inst_sourceHandle i with
       | Some src =>
           0 < src_duration src →
           if inst_loop i
           then getAudioTime s' h = js_rem e (src_duration src)
                ∧ - src_duration src < getAudioTime s' h ≤ 0
           else getAudioTime s' h = e ∧ getAudioTime s' h < 0
       | None => getAudioTime s' h = e ∧ getAudioTime s' h < 0
       end).
Proof.
  intros Hinit Hacc Hsrc Hdur Hd Hdt s1 s2 elapsed.
  split; [|split; [by apply playAudio_ready|split;
    [intros still retries; by apply (processPending_ready s still (mkPendingPlay handle a retries))|]]].
  2: { intros s' h l i Hg Hp Hst Hlt e.
       rewrite (getAudioTime_playing _ _ _ _ Hg Hp Hst). cbn zeta. fold e.
       assert (e < 0) as He by (subst e; lia).
       destruct (sources s' !! inst_sourceHandle i) as [src|]; [|by split].
       intros Hdur'. destruct (inst_loop i).
       - split; [done|]. unfold js_rem.
         pose proof (Z.rem_bound_pos_neg e (src_duration src) Hdur' (Z.lt_le_incl _ _ He)).
         lia.
       - split; lia. }
  destruct (playAudioInternal_built s handle a source Hinit Hacc)
    as (i & Hl & Hi & Hsh & Hbus & Hst & Hpt & Hp & Hstop & Hloop & _).
  fold s1 in Hl, Hi.
  assert (getInstance s2 handle = Some (nextObj s, i)) as Hg by (by apply getInstance_eq).
  assert (currentTime (audioContext s2) = currentTime (audioContext s) + Z.of_N dt) as Enow.
  { subst s2. cbn [step]. st_simpl. cbn [currentTime set_currentTime].
    subst s1. by rewrite playAudioInternal_currentTime. }
  assert (sources s2 !! inst_sourceHandle i = Some source) as Hsrc'.
  { rewrite Hsh. subst s2 s1. cbn [step]. st_simpl.
    by destruct (playAudioInternal_table s handle a source) as (_&_&_&_&_&_&->&_). }
  exists (nextObj s), i. split_and!; try done.
  - rewrite Enow, Hst. lia.
  - unfold isAudioPlaying. by rewrite Hg, Hp, Hstop.
  - intros Hl0. rewrite (getAudioTime_playing _ _ _ _ Hg Hp Hstop). cbn zeta.
    rewrite Hsrc', Hloop, Hl0, Enow, Hst.
    replace (currentTime (audioContext s) + Z.of_N dt - (currentTime (audioContext s) + pa_delay a))
      with elapsed by (subst elapsed; lia).
    subst elapsed. lia.
  - intros Hl1. rewrite (getAudioTime_playing _ _ _ _ Hg Hp Hstop). cbn zeta.
    rewrite Hsrc', Hloop, Hl1, Enow, Hst.
    replace (currentTime (audioContext s) + Z.of_N dt - (currentTime (audioContext s) + pa_delay a))
      with elapsed by (subst elapsed; lia).
    unfold js_rem. split; [done|].
    assert (elapsed ≤ 0) as Hle by (subst elapsed; lia).
    pose proof (Z.rem_bound_pos_neg elapsed (src_duration source) Hdur Hle) as Hb.
    split; [lia|]. rewrite Z.rem_divide by lia. done.
Qed.

(** ** Delayed start, buses *)


(** A delay of five, two ticks after the call: the reading is -3. *)
Lemma getAudioTime_before_start_witness : getAudioTime exDelayed 1 = -3.
Proof.
  assert (sources (set_nextInstanceHandle 2 exLoaded) !! pa_sourceHandle exDelayArgs
          = Some (mkSource 7 10)) as Hsrc by (by vm_compute).
  destruct (getAudioTime_before_start (set_nextInstanceHandle 2 exLoaded) 1 exDelayArgs
              (mkSource 7 10) 2 eq_refl eq_refl Hsrc eq_refl eq_refl eq_refl)
    as [(l & i & _ & _ & _ & _ & H & _) _].
  destruct (H eq_refl) as [H1 _]. vm_compute in H1. vm_compute. exact H1.
Defined.

(** Claim C9 as worded does not hold for a looping instance: played with
    a delay of 10 on a buffer of duration 10 and queried at once, before
    its start time, [getAudioTime] returns 0, not a negative number. *)
Lemma getAudioTime_looping_before_start_zero :
  ∃ l i, getInstance exLoopDelayed 1 = Some (l, i)
    ∧ inst_startTime i = 10
    ∧ currentTime (audioContext exLoopDelayed) = 0
    ∧ currentTime (audioContext exLoopDelayed) < inst_startTime i
    ∧ isAudioPlaying exLoopDelayed 1 = true
    ∧ getAudioTime exLoopDelayed 1 = 0
    ∧ ¬ getAudioTime exLoopDelayed 1 < 0.
Proof. eexists _, _. split; [vm_compute; reflexivity|]. by vm_compute. Qed.

Lemma gainOf_setGain c n v g :
  gainOf c n = Some g → gainOf (setGain n v c) n = Some v.
Proof. intros Hg. unfold setGain. rewrite gainOf_onGain, decide_True, Hg; done. Qed.

Lemma kindAt_gainOf c n : kindAt c n = Some KGain → ∃ g, gainOf c n = Some g.
Proof.
  unfold kindAt, gainOf. destruct (nodes c !! n) as [[]|]; try done. eauto.
Qed.

(** Claim C6: the mute round trip of a bus.  For a registered bus [b],
    muting sets the gain of its node to 0 and leaves the stored volume as
    it was; unmuting then sets the gain to the stored volume, the one from
    before the mute; and [setAudioBusVolume] on the muted bus stores the
    new volume and leaves the gain of the node as it is, the new volume
    reaching the node at the unmute. *)
Theorem bus_mute_round_trip s b bus :
  wf s → buses s !! b = Some bus →
  let g := bus_gainNode bus in
  let s1 := setAudioBusMuted s b true in
  let s2 := setAudioBusMuted s1 b false in
  (gainOf (audioContext s1) g = Some 0
   ∧ getAudioBusVolume s1 b = bus_volume bus
   ∧ isAudioBusMuted s1 b = true)
  ∧ (gainOf (audioContext s2) g = Some (bus_volume bus)
     ∧ getAudioBusVolume s2 b = bus_volume bus
     ∧ isAudioBusMuted s2 b = false)
  ∧ ∀ v, let s1' := setAudioBusVolume s1 b v in
      getAudioBusVolume s1' b = v
      ∧ isAudioBusMuted s1' b = true
      ∧ gainOf (audioContext s1') g = gainOf (audioContext s1) g
      ∧ gainOf (audioContext (setAudioBusMuted s1' b false)) g = Some v.
Proof.
  intros [Hwf _] Hb g s1 s2.
  destruct (kindAt_gainOf _ _ (wf_bus _ Hwf _ _ Hb)) as [g0 Hg0]. fold g in Hg0.
  assert (s1 = set_audioContext (setGain g 0)
                 (set_buses (<[b := mkBus g (bus_volume bus) true]>) s)) as Es1.
  { subst s1. unfold setAudioBusMuted. by rewrite Hb. }
  assert (buses s1 !! b = Some (mkBus g (bus_volume bus) true)) as Hb1.
  { rewrite Es1. st_simpl. by rewrite lookup_insert_eq. }
  assert (gainOf (audioContext s1) g = Some 0) as Hg1.
  { rewrite Es1. st_simpl. by eapply gainOf_setGain. }
  split_and!.
  - done.
  - unfold getAudioBusVolume. by rewrite Hb1.
  - unfold isAudioBusMuted. by rewrite Hb1.
  - subst s2. unfold setAudioBusMuted at 1. rewrite Hb1. st_simpl.
    by eapply gainOf_setGain.
  - subst s2. unfold setAudioBusMuted at 1, getAudioBusVolume. rewrite Hb1. st_simpl.
    by rewrite lookup_insert_eq.
  - subst s2. unfold setAudioBusMuted at 1, isAudioBusMuted. rewrite Hb1. st_simpl.
    by rewrite lookup_insert_eq.
  - intros v s1'. subst s1'. unfold setAudioBusVolume. rewrite Hb1. cbn [bus_muted negb].
    unfold getAudioBusVolume, isAudioBusMuted, setAudioBusMuted. st_simpl.
    rewrite !lookup_insert_eq. st_simpl. cbn [bus_gainNode bus_volume bus_muted].
    split_and!; try done. by eapply gainOf_setGain.
Qed.

(** The round trip on a bus of volume 40. *)
Lemma bus_mute_round_trip_witness :
  gainOf (audioContext (setAudioBusMuted (setAudioBusMuted exBus 2 true) 2 false)) 2
  = Some 40.
Proof.
  assert (wf exBus) as Hwf by (apply wf_run; [apply wf_started|reflexivity]).
  destruct (bus_mute_round_trip exBus 2 (mkBus 2 40 false) Hwf eq_refl)
    as (_ & (H & _) & _).
  exact H.
Defined.

(** ** Live control *)





(** ** Unknown handles, the panner stage *)




(** Claim C5: the panner stage of the chain [playAudioInternal] builds on
    an initialized engine.  When the host accepts the arguments, the
    instance gets a new source node (started at [currentTime + delay]
    unless that time is negative) and a new gain node, the gain node
    feeding the output node only, and exactly one of three shapes: a
    spatial instance gets one distance panner (linear model, rolloff
    factor 1, the distances and the position of the arguments) and no
    stereo panner, with source -> panner -> gain; a non-spatial instance
    with a pan other than 0 gets one stereo panner holding the pan and no
    distance panner, with source -> panner -> gain; a non-spatial instance
    with pan 0 gets neither, with source -> gain (three nodes are created
    in the first two cases, two in the third).  When the host refuses the
    distances of a spatial play (a negative minimal or a non-positive
    maximal distance), the call is caught: there is no instance, and the
    three nodes created are left unconnected.  Both the immediate play and
    the promotion of a deferred request build the instance by this
    function. *)
Theorem panner_stage_exclusive s handle a source :
  initialized s = true →
  let s' := playAudioInternal s handle a source in
  let c' := audioContext s' in
  let n := nextNode (audioContext s) in
  (pannerRejected a = false →
   ∃ i bs, getInstance s' handle = Some (nextObj s, i)
     ∧ inst_sourceNode i = n ∧ inst_gainNode i = n + 1
     ∧ sourceOf c' (inst_sourceNode i) = Some bs
     ∧ bs_started bs
       = (if currentTime (audioContext s) + pa_delay a <? 0 then None
          else Some (currentTime (audioContext s) + pa_delay a, 0))
     ∧ kindAt c' (inst_gainNode i) = Some KGain
     ∧ outputs c' (inst_gainNode i) = {[inst_outputNode i]}
     ∧ (pa_isSpatial a = true →
          inst_pannerNode i = None
          ∧ nextNode c' = n + 3
          ∧ ∃ sp p, inst_spatialPanner i = Some sp
            ∧ pannerOf c' sp = Some p
            ∧ pn_distanceModel p = LinearDistance ∧ pn_rolloffFactor p = 1
            ∧ pn_refDistance p = pa_minDistance a ∧ pn_maxDistance p = pa_maxDistance a
            ∧ pn_positionX p = pa_posX a ∧ pn_positionY p = pa_posY a
            ∧ outputs c' (inst_sourceNode i) = {[sp]}
            ∧ outputs c' sp = {[inst_gainNode i]})
     ∧ (pa_isSpatial a = false → pa_pan a ≠ 0 →
          inst_spatialPanner i = None
          ∧ nextNode c' = n + 3
          ∧ ∃ pn, inst_pannerNode i = Some pn
            ∧ panOf c' pn = Some (pa_pan a)
            ∧ outputs c' (inst_sourceNode i) = {[pn]}
            ∧ outputs c' pn = {[inst_gainNode i]})
     ∧ (pa_isSpatial a = false → pa_pan a = 0 →
          inst_spatialPanner i = None ∧ inst_pannerNode i = None
          ∧ nextNode c' = n + 2
          ∧ outputs c' (inst_sourceNode i) = {[inst_gainNode i]}))
  ∧ (pannerRejected a = true →
       pa_isSpatial a = true
       ∧ instances s' = instances s ∧ heap s' = heap s
       ∧ (∀ m, m < n → outputs c' m = outputs (audioContext s) m)
       ∧ nextNode c' = n + 3
       ∧ (∀ m, n ≤ m < n + 3 → outputs c' m = ∅))
  ∧ (sources s !! pa_sourceHandle a = Some source →
       playAudio s a
       = (nextInstanceHandle s,
          playAudioInternal (set_nextInstanceHandle (nextInstanceHandle s + 1) s)
            (nextInstanceHandle s) a source))
  ∧ (∀ still retries, sources s !! pa_sourceHandle a = Some source →
       processPending (s, still) (mkPendingPlay handle a retries)
       = (playAudioInternal s handle a source, still)).
Proof.
  intros Hinit s' c' n.
  split; [|split; [|split; [by apply playAudio_ready|
    intros still retries Hs; by apply (processPending_ready s still (mkPendingPlay handle a retries))]]].
  2: { intros Hrej. subst c' s'. unfold playAudioInternal. rewrite Hinit, Hrej. cbn [negb].
       st_simpl. split_and!; try done.
       - unfold pannerRejected in Hrej. by destruct (pa_isSpatial a).
       - intros m Hm. unfold rejectedPanner, outputs. cbn.
         destruct (pa_minDistance a <? 0); cbn; by rewrite !lookup_delete_ne by lia.
       - unfold rejectedPanner. cbn. destruct (pa_minDistance a <? 0); cbn; lia.
       - intros m Hm. unfold rejectedPanner, outputs. cbn.
         destruct (pa_minDistance a <? 0); cbn.
         all: repeat (rewrite lookup_delete; case_decide; [done|]); lia. }
  intros Hacc. subst c' s' n.
  unfold playAudioInternal, buildPanner, getInstance, kindAt, outputs, pannerOf, panOf,
    sourceOf.
  rewrite Hinit, Hacc. cbn [negb].
  assert (∀ x : Z, {[x]} ∪ (∅ : gset Z) = {[x]}) as Hu by (intros; apply union_empty_r_L).
  destruct (pa_isSpatial a) eqn:Hsp; [|destruct (pa_pan a =? 0) eqn:Hpan]; cbn.
  all: destruct (currentTime (audioContext s) + pa_delay a <? 0) eqn:Hstart; cbn.
  all: rewrite !lookup_insert_eq; eexists; eexists; (split; [reflexivity|]); cbn.
  all: try apply Z.eqb_neq in Hpan; try apply Z.eqb_eq in Hpan.
  all: (split; [done|]); (split; [done|]).
  all: (split; [by map_simp|]); (split; [done|]); (split; [by map_simp|]).
  all: (split; [map_simp; cbn; by rewrite ?Hu|]).
  all: split_and!; try (intros; congruence).
  all: try (intros _; split; [done|]; split; [lia|]; eexists _, _; split; [done|]; map_simp; cbn;
    split; [reflexivity|]; cbn; split_and!; try done; map_simp; cbn; by rewrite ?Hu).
  all: try (intros _ _; split_and!; try done; [lia|]; map_simp; cbn; by rewrite ?Hu).
  all: try (intros _ _; split; [done|]; split; [lia|]; eexists; split; [done|]; map_simp; cbn;
    split_and!; try done; map_simp; cbn; by rewrite ?Hu).
Qed.

(** A non-spatial play with pan 3: one stereo panner between the source
    node and the gain node. *)
Lemma panner_stage_exclusive_witness :
  let c' := audioContext (playAudioInternal exLoaded 1 exPanArgs (mkSource 7 10)) in
  let n := nextNode (audioContext exLoaded) in
  ∃ pn, panOf c' pn = Some 3 ∧ outputs c' n = {[pn]} ∧ outputs c' pn = {[n + 1]}.
Proof.
  intros c' n.
  destruct (panner_stage_exclusive exLoaded 1 exPanArgs (mkSource 7 10) eq_refl)
    as [H _].
  destruct (H eq_refl) as (i & bs & _ & Hn & Hg & _ & _ & _ & _ & _ & Hpan & _).
  destruct (Hpan eq_refl) as (_ & _ & pn & _ & Hp & Ho & Hi); [done|].
  exists pn. rewrite Hn in Ho. rewrite Hg in Hi. by split_and!.
Defined.

(** ** The finished queue *)

(** The sweep run by the timer, on a well-formed state. *)
Lemma sweep_spec s :
  wf s →
  let s' := step s TimerFired in
  pendingPlays s' = omap (sweepKeep s) (pendingPlays s)
  ∧ finishedCallbacks s' = finishedCallbacks s
  ∧ nextInstanceHandle s' = nextInstanceHandle s
  ∧ sources s' = sources s ∧ decoding s' = decoding s
  ∧ nextSourceHandle s' = nextSourceHandle s
  ∧ currentTime (audioContext s') = currentTime (audioContext s)
  ∧ (∀ h, instances s !! h = None → ¬ promoted s (pendingPlays s) h →
       instances s' !! h = None)
  ∧ (∀ h l, instances s !! h = Some l →
       instances s' !! h = Some l ∧ heap s' !! l = heap s !! l)
  ∧ (∀ p, p ∈ pendingPlays s → is_Some (sources s !! pa_sourceHandle (pp_args p)) →
       pannerRejected (pp_args p) = false →
       ∃ l i, instances s' !! pp_handle p = Some l ∧ heap s' !! l = Some i
         ∧ builtFrom (pp_args p) (currentTime (audioContext s)) i)
  ∧ (∀ h, captured s' h → captured s h ∨ promoted s (pendingPlays s) h)
  ∧ (∀ h, captured s h → captured s' h).
Proof.
  intros Hwf. pose proof Hwf as [Hc Hp]. cbn [step].
  destruct (processPendingPlays_spec (set_timers (Nat.pred (timers s)) s))
    as (_ & H).
  - by apply wfCore_set_timers.
  - apply Hp.
  - intros p Hin. by apply (wf_waitingOk s).
  - destruct H as (?&_&?&?&?&?&?&?&?&?&?&?&?). by split_and!.
Qed.

(** The finished queue changes at [pollFinishedCallback] and at the
    delivery of [ended] only. *)
Lemma step_finished s e :
  wf s →
  match e with
  | PollFinishedCallback => finishedCallbacks (step s e) = tail (finishedCallbacks s)
  | Ended n => True
  | _ => finishedCallbacks (step s e) = finishedCallbacks s
  end.
Proof.
  intros Hwfs. pose proof Hwfs as [Hwf Hp]. destruct e; cbn [step]; try done.
  - by rewrite (js_load_audio_eq _ (wf_init _ Hwf)).
  - unfold playAudio. rewrite (wf_init _ Hwf). cbn [negb].
    destruct (sources s !! pa_sourceHandle a); cbn [snd].
    + by destruct (playAudioInternal_table
             (set_nextInstanceHandle (nextInstanceHandle s + 1) s) (nextInstanceHandle s) a s0)
        as (_&_&->&_).
    + by match goal with |- context [if ?b then _ else _] => destruct b end.
  - unfold stopAudio. destruct (instances s !! instanceHandle) as [l|]; [|done].
    st_simpl. apply stopInstance_frame.
  - unfold pauseAudio. destruct (getInstance s instanceHandle) as [[l i]|]; [|done].
    by destruct (inst_paused i || inst_stopped i).
  - unfold resumeAudio. destruct (getInstance s instanceHandle) as [[l i]|]; [|done].
    destruct (negb (inst_paused i) || inst_stopped i); [done|].
    by destruct (sources s !! inst_sourceHandle i).
  - by destruct (stopAllAudio_spec s busHandle Hwf) as (_ & [] & _).
  - unfold setAudioVolume. by destruct (getInstance s instanceHandle) as [[l i]|].
  - unfold setAudioPan. destruct (getInstance s instanceHandle) as [[l i]|]; [|done].
    by destruct (inst_pannerNode i).
  - unfold setAudioPitch. by destruct (getInstance s instanceHandle) as [[l i]|].
  - unfold setAudioLooping. by destruct (getInstance s instanceHandle) as [[l i]|].
  - unfold setAudioPosition. destruct (getInstance s instanceHandle) as [[l i]|]; [|done].
    by destruct (inst_spatialPanner i).
  - unfold createAudioBus. by rewrite (wf_init _ Hwf).
  - unfold destroyAudioBus. destruct (busHandle <=? 1); [done|].
    by destruct (buses s !! busHandle).
  - unfold setAudioBusVolume. destruct (buses s !! busHandle) as [bus|]; [|done].
    by destruct (negb (bus_muted bus)).
  - unfold setAudioBusMuted. by destruct (buses s !! busHandle) as [bus|].
  - unfold setListenerPosition. by destruct (negb (initialized s)).
  - unfold pollFinishedCallback. destruct (finishedCallbacks s) eqn:E; cbn; [done|done].
  - by destruct (sweep_spec s Hwfs) as (_ & ? & _).
Qed.





(** ** The handler of [ended] on a paused instance *)


Lemma onended_stopped s l h i :
  heap s !! l = Some i → inst_stopped i = true → onended s l h = s.
Proof. intros Hi Hs. unfold onended. by rewrite Hi, Hs. Qed.

Lemma onended_looping s l h i :
  heap s !! l = Some i → inst_loop i = true → onended s l h = s.
Proof. intros Hi Hs. unfold onended. rewrite Hi, Hs. by destruct (inst_stopped i). Qed.

(** Claim C2 does not hold of the code.  A non-looping instance played
    with its callback is paused four ticks into a buffer of ten:
    [pauseAudio] stops its node 2, the host notifies the end of that node,
    and the handler, which does not test [paused], pushes handle 1 and
    deletes the entry although the buffer did not reach its end.  When the
    instance is resumed before the notification, handle 1 is pushed by the
    notification of node 2 and again by the natural end of the node 4 that
    [resumeAudio] created: the finished queue reads [1; 1]. *)
Lemma paused_handle_finished_twice :
  let s := run started exPausedTrace in
  (traceOk started exPausedTrace = true
   ∧ isAudioPaused s 1 = true ∧ getAudioTime s 1 = 4 ∧ getAudioDuration s 1 = 10
   ∧ stoppedEnd s 2 = true ∧ hostOk s (Ended 2) = true
   ∧ finishedCallbacks s = []
   ∧ finishedCallbacks (step s (Ended 2)) = [1]
   ∧ instances (step s (Ended 2)) !! 1 = None)
  ∧ (let t := exPausedTrace ++ [ResumeAudio 1; Ended 2; Advance 6; Ended 4] in
     traceOk started t = true
     ∧ naturalEnd (run started (exPausedTrace ++ [ResumeAudio 1; Ended 2; Advance 6])) 4 = true
     ∧ finishedCallbacks (run started t) = [1; 1]).
Proof. by vm_compute. Qed.

(** ** Deferred play *)


Lemma pending_unique s p q :
  wf s → p ∈ pendingPlays s → q ∈ pendingPlays s → pp_handle p = pp_handle q → p = q.
Proof.
  intros [_ Hp] Hin Hq E. pose proof (wf_pend_nodup _ Hp) as Hnd.
  apply list_elem_of_lookup in Hq as [k Hk]. apply list_elem_of_lookup in Hin as [k' Hk'].
  assert (k = k') as ->; [|congruence].
  eapply NoDup_lookup; [exact Hnd|..]; rewrite list_lookup_fmap.
  - by rewrite Hk.
  - rewrite Hk'. cbn. by rewrite E.
Qed.

(** One sweep on a pending request: promoted when its source is
    registered and the host accepts its panner configuration, dropped when
    the source is registered and the configuration refused, kept with one
    more retry or dropped at the tenth otherwise. *)
Lemma sweep_pending s h a k :
  wf s → mkPendingPlay h a k ∈ pendingPlays s →
  let s' := step s TimerFired in
  match sources s !! pa_sourceHandle a with
  | Some source =>
      (h ∉ pp_handle <$> pendingPlays s')
      ∧ (if pannerRejected a then instances s' !! h = None
         else ∃ l i, getInstance s' h = Some (l, i)
                ∧ builtFrom a (currentTime (audioContext s)) i
                ∧ isAudioPlaying s' h = true)
  | None =>
      instances s' !! h = None
      ∧ (k + 1 < 10 → mkPendingPlay h a (k + 1) ∈ pendingPlays s')
      ∧ (10 ≤ k + 1 → h ∉ pp_handle <$> pendingPlays s')
  end.
Proof.
  intros Hwf Hin. pose proof Hwf as [Hc Hp].
  destruct (sweep_spec s Hwf) as (Hpend & _ & _ & _ & _ & _ & _ & Hnone & _ & Hnew & _).
  cbn zeta.
  assert (∀ p', p' ∈ omap (sweepKeep s) (pendingPlays s) → pp_handle p' = h →
            sweepKeep s (mkPendingPlay h a k) = Some p') as Hkept.
  { intros p' (q & Hq & Hk)%list_elem_of_omap E.
    pose proof Hk as (E' & _)%sweepKeep_Some.
    assert (q = mkPendingPlay h a k) as ->; [|done].
    apply (pending_unique s); try done. cbn. congruence. }
  assert (∀ P : Prop, promoted s (pendingPlays s) h →
            (is_Some (sources s !! pa_sourceHandle a) → pannerRejected a = false → P) → P)
    as Hprom.
  { intros P (q & Hq & E & Hs & Hr) HP.
    assert (q = mkPendingPlay h a k) as -> by (by apply (pending_unique s)).
    by apply HP. }
  destruct (sources s !! pa_sourceHandle a) as [source|] eqn:Hsrc.
  - split.
    + rewrite Hpend. intros (p' & E & Hq)%list_elem_of_fmap.
      specialize (Hkept p' Hq (eq_sym E)). unfold sweepKeep in Hkept. cbn in Hkept.
      by rewrite Hsrc in Hkept.
    + destruct (pannerRejected a) eqn:Hrej.
      * apply Hnone; [by apply (wf_pend_inst _ Hp _ Hin)|].
        intros Hx. apply (Hprom False Hx). intros _ ?. congruence.
      * destruct (Hnew _ Hin) as (l & i & Hl & Hi & Hb); [by cbn; rewrite Hsrc|done|].
        exists l, i. cbn [pp_handle pp_args] in Hl, Hb. split_and!; try done; [by apply getInstance_eq|].
        unfold isAudioPlaying. rewrite (getInstance_eq _ _ _ _ Hl Hi).
        destruct Hb as (_ & _ & _ & _ & -> & -> & _). done.
  - split_and!.
    + apply Hnone; [by apply (wf_pend_inst _ Hp _ Hin)|].
      intros Hx. apply (Hprom False Hx). intros [? ?] _. congruence.
    + intros Hk. rewrite Hpend. apply list_elem_of_omap. exists (mkPendingPlay h a k).
      split; [done|]. unfold sweepKeep. cbn. rewrite Hsrc.
      by rewrite (proj2 (Z.ltb_lt _ _) Hk).
    + intros Hk. rewrite Hpend. intros (p' & E & Hq)%list_elem_of_fmap.
      specialize (Hkept p' Hq (eq_sym E)). unfold sweepKeep in Hkept. cbn in Hkept.
      rewrite Hsrc in Hkept. by rewrite (proj2 (Z.ltb_ge _ _) Hk) in Hkept.
Qed.





(** The states the engine reaches are well formed. *)
Lemma wf_reached t : traceOk started t = true → wf (run started t).
Proof. apply wf_run, wf_started. Qed.

Section Waiting.
Context (h : Z) (a : PlayArgs).


End Waiting.


(** ** An entry of the table along the steps *)






(** ** Paused instances and live control along the steps *)

(** The handles whose decode is outstanding and the source counter change
    at [_js_load_audio] and when a decode settles only. *)
Lemma step_decoding s e :
  wf s →
  decoding (step s e)
  = match e with
    | LoadAudio => {[nextSourceHandle s]} ∪ decoding s
    | DecodeResolved h _ _ | DecodeRejected h => decoding s ∖ {[h]}
    | _ => decoding s
    end
  ∧ nextSourceHandle (step s e)
    = match e with LoadAudio => nextSourceHandle s + 1 | _ => nextSourceHandle s end.
Proof.
  intros Hwfs. pose proof Hwfs as [Hwf Hp]. destruct e; cbn [step]; try done.
  - by rewrite (js_load_audio_eq _ (wf_init _ Hwf)).
  - unfold playAudio. rewrite (wf_init _ Hwf). cbn [negb].
    destruct (sources s !! pa_sourceHandle a) as [source|]; cbn [snd].
    + by destruct (playAudioInternal_table
             (set_nextInstanceHandle (nextInstanceHandle s + 1) s) (nextInstanceHandle s)
             a source) as (_&_&_&_&_&_&_&->&->&_).
    + by match goal with |- context [if ?b then _ else _] => destruct b end.
  - unfold stopAudio. destruct (instances s !! instanceHandle) as [l|]; [|done].
    st_simpl. destruct (stopInstance_frame s l) as (_&_&_&_&_&_&_&->&->&_). done.
  - unfold pauseAudio. destruct (getInstance s instanceHandle) as [[l i]|]; [|done].
    by destruct (inst_paused i || inst_stopped i).
  - unfold resumeAudio. destruct (getInstance s instanceHandle) as [[l i]|]; [|done].
    destruct (negb (inst_paused i) || inst_stopped i); [done|].
    by destruct (sources s !! inst_sourceHandle i).
  - by destruct (stopAllAudio_spec s busHandle Hwf) as (_ & [] & _).
  - unfold setAudioVolume. by destruct (getInstance s instanceHandle) as [[l i]|].
  - unfold setAudioPan. destruct (getInstance s instanceHandle) as [[l i]|]; [|done].
    by destruct (inst_pannerNode i).
  - unfold setAudioPitch. by destruct (getInstance s instanceHandle) as [[l i]|].
  - unfold setAudioLooping. by destruct (getInstance s instanceHandle) as [[l i]|].
  - unfold setAudioPosition. destruct (getInstance s instanceHandle) as [[l i]|]; [|done].
    by destruct (inst_spatialPanner i).
  - unfold createAudioBus. by rewrite (wf_init _ Hwf).
  - unfold destroyAudioBus. destruct (busHandle <=? 1); [done|].
    by destruct (buses s !! busHandle).
  - unfold setAudioBusVolume. destruct (buses s !! busHandle) as [bus|]; [|done].
    by destruct (negb (bus_muted bus)).
  - unfold setAudioBusMuted. by destruct (buses s !! busHandle) as [bus|].
  - unfold setListenerPosition. by destruct (negb (initialized s)).
  - unfold pollFinishedCallback. by destruct (finishedCallbacks s).
  - by destruct (sweep_spec s Hwfs) as (_ & _ & _ & _ & ? & ? & _).
  - unfold deliverEnded. destruct (nodes (audioContext s) !! node) as [[bs| | | |]|]; try done.
    destruct (bs_onended bs) as [[l h]|]; [|done]. unfold onended. st_simpl.
    destruct (heap s !! l) as [i|]; [|done].
    destruct (negb (inst_stopped i) && negb (inst_loop i)); [|done].
    by destruct (inst_hasCallback i).
Qed.












(** Claim C1 does not hold of the code.  [pauseAudio] stops the source
    node, the host then notifies the end of that node, and the handler
    installed by [playAudioInternal] tests [stopped] and [loop] but not
    [paused].  On the non-looping instance of [exPlaying], three ticks into
    a buffer of ten: when the notification comes before the resume, the
    entry is deleted, [resumeAudio] does nothing and the reading is 0 where
    it was 3; when the resume comes first, the reading is 3 and the
    instance plays on node 4, until the notification of the old node 2
    deletes its entry (the reading drops to 0 and handle 1 is pushed) while
    node 4 still plays.  And for a pause before the start time (reading
    -3), [resumeAudio] calls [start(0, -3)], which the host refuses: the
    call raises and the new node never plays. *)
Lemma pause_resume_round_trip_broken :
  (traceOk started
     [LoadAudio; DecodeResolved 1 7 10; PlayAudio exArgs; Advance 3;
      PauseAudio 1; Ended 2; ResumeAudio 1] = true
   ∧ getAudioTime exPlaying 1 = 3
   ∧ let s1 := pauseAudio exPlaying 1 in
     getAudioTime s1 1 = 3 ∧ hostOk s1 (Ended 2) = true
     ∧ let s2 := resumeAudio (step s1 (Ended 2)) 1 in
       instances s2 = ∅ ∧ getAudioTime s2 1 = 0 ∧ isAudioPlaying s2 1 = false
       ∧ resumeAudio (step s1 (Ended 2)) 1 = step s1 (Ended 2))
  ∧ (let s3 := resumeAudio (pauseAudio exPlaying 1) 1 in
     getAudioTime s3 1 = 3 ∧ isAudioPlaying s3 1 = true
     ∧ hostOk s3 (Ended 2) = true
     ∧ let s4 := step s3 (Ended 2) in
       instances s4 = ∅ ∧ getAudioTime s4 1 = 0 ∧ isAudioPlaying s4 1 = false
       ∧ finishedCallbacks s4 = [1]
       ∧ naturalEnd s4 4 = true)
  ∧ (let s5 := pauseAudio exDelayed 1 in
     getAudioTime exDelayed 1 = -3 ∧ getAudioTime s5 1 = -3
     ∧ resumeAudioRaises s5 1 = true
     ∧ let s6 := resumeAudio s5 1 in
       isAudioPlaying s6 1 = true
       ∧ (isStarted <$> sourceOf (audioContext s6) 4) = Some false).
Proof. by vm_compute. Qed.

(** * Further properties of the engine *)

(** ** The bus registry and the handles along the steps *)

(** The bus registry, the bus counter and the master gain change at the
    bus operations only. *)
Lemma step_buses s e :
  wf s →
  buses (step s e)
  = match e with
    | CreateAudioBus =>
        <[nextBusHandle s := mkBus (nextNode (audioContext s)) 1 false]> (buses s)
    | DestroyAudioBus b => if b <=? 1 then buses s else delete b (buses s)
    | SetAudioBusVolume b v =>
        match buses s !! b with
        | Some bus => <[b := mkBus (bus_gainNode bus) v (bus_muted bus)]> (buses s)
        | None => buses s
        end
    | SetAudioBusMuted b m =>
        match buses s !! b with
        | Some bus => <[b := mkBus (bus_gainNode bus) (bus_volume bus) m]> (buses s)
        | None => buses s
        end
    | _ => buses s
    end
  ∧ nextBusHandle (step s e)
    = match e with CreateAudioBus => nextBusHandle s + 1 | _ => nextBusHandle s end
  ∧ masterGain (step s e) = masterGain s.
Proof.
  intros [Hwf Hp]. destruct e; cbn [step]; try done.
  - by rewrite (js_load_audio_eq _ (wf_init _ Hwf)).
  - unfold playAudio. rewrite (wf_init _ Hwf). cbn [negb].
    destruct (sources s !! pa_sourceHandle a) as [source|]; cbn [snd].
    + by destruct (playAudioInternal_table
             (set_nextInstanceHandle (nextInstanceHandle s + 1) s) (nextInstanceHandle s)
             a source) as (_&_&_&_&_&_&_&_&_&->&->&_&->).
    + by match goal with |- context [if ?b then _ else _] => destruct b end.
  - unfold stopAudio. destruct (instances s !! instanceHandle) as [l|]; [|done].
    st_simpl. destruct (stopInstance_frame s l) as (_&_&_&_&_&_&->&_&_&_&_&->&->). done.
  - unfold pauseAudio. destruct (getInstance s instanceHandle) as [[l i]|]; [|done].
    by destruct (inst_paused i || inst_stopped i).
  - unfold resumeAudio. destruct (getInstance s instanceHandle) as [[l i]|]; [|done].
    destruct (negb (inst_paused i) || inst_stopped i); [done|].
    by destruct (sources s !! inst_sourceHandle i).
  - by destruct (stopAllAudio_spec s busHandle Hwf) as (_ & [] & _).
  - unfold setAudioVolume. by destruct (getInstance s instanceHandle) as [[l i]|].
  - unfold setAudioPan. destruct (getInstance s instanceHandle) as [[l i]|]; [|done].
    by destruct (inst_pannerNode i).
  - unfold setAudioPitch. by destruct (getInstance s instanceHandle) as [[l i]|].
  - unfold setAudioLooping. by destruct (getInstance s instanceHandle) as [[l i]|].
  - unfold setAudioPosition. destruct (getInstance s instanceHandle) as [[l i]|]; [|done].
    by destruct (inst_spatialPanner i).
  - unfold createAudioBus. by rewrite (wf_init _ Hwf).
  - unfold destroyAudioBus. destruct (busHandle <=? 1); [done|].
    destruct (buses s !! busHandle) eqn:E; [done|]. by rewrite delete_id.
  - unfold setAudioBusVolume. destruct (buses s !! busHandle) as [bus|]; [|done].
    by destruct (negb (bus_muted bus)).
  - unfold setAudioBusMuted. by destruct (buses s !! busHandle) as [bus|].
  - unfold setListenerPosition. by destruct (negb (initialized s)).
  - unfold pollFinishedCallback. by destruct (finishedCallbacks s).
  - destruct (processPending_fold (pendingPlays s) (set_timers (Nat.pred (timers s)) s) [])
      as (_ & Hso & _).
    + by apply wfCore_set_timers.
    + apply Hp.
    + intros p Hin. by apply (wf_waitingOk s).
    + unfold processPendingPlays.
      match goal with |- context [if ?b then _ else _] => destruct b end; st_simpl;
        by rewrite (so_buses _ _ Hso), (so_nextBus _ _ Hso), (so_master _ _ Hso).
  - unfold deliverEnded. destruct (nodes (audioContext s) !! node) as [[bs| | | |]|]; try done.
    destruct (bs_onended bs) as [[l h]|]; [|done]. unfold onended. st_simpl.
    destruct (heap s !! l) as [i|]; [|done].
    destruct (negb (inst_stopped i) && negb (inst_loop i)); [|done].
    by destruct (inst_hasCallback i).
Qed.

Lemma busesOk_step s e : wf s → busesOk s → busesOk (step s e).
Proof.
  intros Hwf (Hn & Hlt & bus1 & Hb1 & Hg1).
  destruct (step_buses s e Hwf) as (Eb & En & Em).
  unfold busesOk. rewrite Eb, En, Em.
  destruct e; try (split_and!; [done|done|by exists bus1]).
  - split_and!; [lia| |].
    + intros b bus [[<- _]|[_ Hb]]%lookup_insert_Some; [lia|].
      pose proof (Hlt _ _ Hb). lia.
    + exists bus1. by rewrite lookup_insert_ne by lia.
  - destruct (busHandle <=? 1) eqn:E; [split_and!; [done|done|by exists bus1]|].
    apply Z.leb_gt in E. split_and!; [done| |].
    + intros b bus [_ Hb]%lookup_delete_Some. by apply (Hlt _ _ Hb).
    + exists bus1. by rewrite lookup_delete_ne by lia.
  - destruct (buses s !! busHandle) as [bus|] eqn:E;
      [|split_and!; [done|done|by exists bus1]].
    split_and!; [done| |].
    + intros b bus' [[<- _]|[_ Hb]]%lookup_insert_Some; [by apply (Hlt _ _ E)|].
      by apply (Hlt _ _ Hb).
    + destruct (decide (busHandle = 1)) as [->|Hne].
      * rewrite lookup_insert_eq. eexists. split; [done|]. cbn. congruence.
      * exists bus1. by rewrite lookup_insert_ne.
  - destruct (buses s !! busHandle) as [bus|] eqn:E;
      [|split_and!; [done|done|by exists bus1]].
    split_and!; [done| |].
    + intros b bus' [[<- _]|[_ Hb]]%lookup_insert_Some; [by apply (Hlt _ _ E)|].
      by apply (Hlt _ _ Hb).
    + destruct (decide (busHandle = 1)) as [->|Hne].
      * rewrite lookup_insert_eq. eexists. split; [done|]. cbn. congruence.
      * exists bus1. by rewrite lookup_insert_ne.
Qed.

Lemma busesOk_started : busesOk started.
Proof.
  split_and!; [done| |by eexists]. intros b bus Hb.
  unfold started, init, init_in, initial in Hb. cbn in Hb.
  apply lookup_insert_Some in Hb as [[<- _]|[_ Hb]]; [done|]. by rewrite lookup_empty in Hb.
Qed.

Lemma busesOk_run t : ∀ s, wf s → busesOk s → traceOk s t = true → busesOk (run s t).
Proof.
  induction t as [|e t IH]; intros s Hwf Hb Hok; [done|].
  cbn in Hok. apply andb_prop in Hok as [He Ht]. cbn. apply IH; [by apply wf_step| |done].
  by apply busesOk_step.
Qed.

Lemma handlesPos_step s e : wf s → hostOk s e = true → handlesPos s → handlesPos (step s e).
Proof.
  intros Hwf Hok (Hi & Hf & Hq). pose proof Hwf as [Hc Hp].
  pose proof (wf_step s e Hwf Hok) as [Hc' Hp'].
  split_and!.
  - intros h l Hl. destruct (wf_entry _ Hc' _ _ Hl) as (i & bs & _ & _ & Hs & Ho & _).
    by destruct (wf_closure _ Hc' _ _ Hs _ _ Ho) as ([? _] & _).
  - destruct (touchesQueue e) eqn:Ht.
    + pose proof (step_finished s e Hwf) as E. destruct e; try done; by rewrite E.
    + pose proof (step_quiet s e Hc Hok Ht) as Hqu.
      intros h Hh. destruct (q_fin _ _ Hqu _ Hh) as [?|(n & bs & l & Hs & Ho)]; [by apply Hf|].
      by destruct (wf_closure _ Hc _ _ Hs _ _ Ho) as ([? _] & _).
  - intros p Hin. by apply (wf_pend_pos _ Hp').
Qed.

Lemma handlesPos_started : handlesPos started.
Proof.
  split_and!.
  - intros h l Hl. unfold started, init, init_in, initial in Hl. cbn in Hl.
    by rewrite lookup_empty in Hl.
  - intros h Hh. by apply elem_of_nil in Hh.
  - intros p Hp. by apply elem_of_nil in Hp.
Qed.

Lemma handlesPos_run t : ∀ s,
  wf s → handlesPos s → traceOk s t = true → handlesPos (run s t).
Proof.
  induction t as [|e t IH]; intros s Hwf Hb Hok; [done|].
  cbn in Hok. apply andb_prop in Hok as [He Ht]. cbn. apply IH; [by apply wf_step| |done].
  by apply handlesPos_step.
Qed.

(** ** Polling the finished queue *)

(** ** The bridge to the host module ([karl2dAudioJsImports]) *)

Lemma set_finishedCallbacks_id s : set_finishedCallbacks (finishedCallbacks s) s = s.
Proof. by destruct s. Qed.

(** [pollFinishedCallback] is a queue: successive calls return the handles
    in the order they were pushed, then 0 for ever, and change nothing but
    the queue. *)
Theorem pollMany_drains n : ∀ s,
  (pollMany n s).1
  = take n (finishedCallbacks s) ++ replicate (n - length (finishedCallbacks s)) 0
  ∧ (pollMany n s).2 = set_finishedCallbacks (drop n (finishedCallbacks s)) s.
Proof.
  induction n as [|n IH]; intros s.
  - cbn. split; [done|]. by rewrite drop_0, set_finishedCallbacks_id.
  - cbn [pollMany fst snd]. destruct (IH (pollFinishedCallback s).2) as [E1 E2].
    rewrite E1, E2. unfold pollFinishedCallback.
    destruct (finishedCallbacks s) as [|h q] eqn:E; cbn [fst snd].
    + rewrite E. cbn. by rewrite take_nil, drop_nil, Nat.sub_0_r.
    + st_simpl. split; [done|]. by rewrite skipn_cons.
Qed.

(** Through the bridge, 0 means that the queue is empty: in a state the
    engine reaches, with fewer than 2^31 handles given out, the poll
    returns the handle at the head of the queue, which is at least 1, as it
    is, and removes it; it returns 0 only on an empty queue, which it
    leaves as it is. *)
Theorem js_poll_zero_iff_empty t :
  traceOk started t = true →
  let s := run started t in
  nextInstanceHandle s ≤ 2 ^ 31 →
  match finishedCallbacks s with
  | [] => js_poll_finished_callback s = (0, s)
  | h :: rest =>
      (js_poll_finished_callback s).1 = h ∧ 1 ≤ h
      ∧ finishedCallbacks (js_poll_finished_callback s).2 = rest
  end
  ∧ ((js_poll_finished_callback s).1 = 0 ↔ finishedCallbacks s = []).
Proof.
  intros Ht s Hn.
  assert (wf s) as [Hc _] by (apply wf_run; [apply wf_started|done]).
  assert (handlesPos s) as (_ & Hf & _)
    by (apply handlesPos_run; [apply wf_started|apply handlesPos_started|done]).
  unfold js_poll_finished_callback, pollFinishedCallback.
  destruct (finishedCallbacks s) as [|h q] eqn:E; cbn [fst snd].
  - done.
  - assert (h ∈ finishedCallbacks s) as Hin by (rewrite E; apply list_elem_of_here).
    pose proof (Hf h (list_elem_of_here _ _)). pose proof (wf_fin_lt _ Hc _ Hin).
    assert (toInt32 h = h) as ->.
    { unfold toInt32. rewrite Z.mod_small; lia. }
    split_and!; try done. split; [lia|done].
Qed.

Lemma js_poll_zero_iff_empty_witness :
  (js_poll_finished_callback (run started exTwoFinished)).1 = 2.
Proof.
  assert (traceOk started exTwoFinished = true) as Ht by (by vm_compute).
  assert (nextInstanceHandle (run started exTwoFinished) ≤ 2 ^ 31) as Hn by (by vm_compute).
  destruct (js_poll_zero_iff_empty exTwoFinished Ht Hn) as [H _].
  vm_compute in H. vm_compute. exact (proj1 H).
Defined.

(** ** States the engine reaches *)

(** An entry of the instance table is never in the stopped state: a stop
    removes the entry in the same call.  So in a state the engine reaches a
    handle of the table reads as playing or as paused, exactly one of the
    two, through the bridge, and a handle without entry reads as neither,
    with time 0. *)
Theorem js_status_flags t h :
  traceOk started t = true →
  let s := run started t in
  match instances s !! h with
  | Some l =>
      ∃ i, getInstance s h = Some (l, i) ∧ inst_stopped i = false
        ∧ js_is_audio_playing s h + js_is_audio_paused s h = 1
        ∧ (js_is_audio_paused s h = 1 ↔ inst_paused i = true)
  | None =>
      js_is_audio_playing s h = 0 ∧ js_is_audio_paused s h = 0 ∧ getAudioTime s h = 0
  end.
Proof.
  intros Ht s. pose proof (wf_reached t Ht) as [Hc _]. fold s in Hc.
  destruct (instances s !! h) as [l|] eqn:Hl.
  - destruct (wf_entry _ Hc _ _ Hl) as (i & bs & Hi & Hst & _).
    exists i. assert (getInstance s h = Some (l, i)) as Hg by (by apply getInstance_Some).
    unfold js_is_audio_playing, js_is_audio_paused, isAudioPlaying, isAudioPaused.
    rewrite Hg, Hst. split_and!; try done; by destruct (inst_paused i).
  - unfold js_is_audio_playing, js_is_audio_paused, isAudioPlaying, isAudioPaused,
      getAudioTime. by rewrite (getInstance_None _ _ Hl).
Qed.

Lemma js_status_flags_witness :
  js_is_audio_playing (run started exMixed) 2 + js_is_audio_paused (run started exMixed) 2 = 1.
Proof.
  assert (traceOk started exMixed = true) as Ht by (by vm_compute).
  pose proof (js_status_flags exMixed 2 Ht) as H. cbv zeta in H.
  destruct (instances (run started exMixed) !! 2) as [l|] eqn:E; [|by vm_compute in E].
  destruct H as (i & _ & _ & H & _). exact H.
Defined.

(** At most one sweep of the deferred queue is scheduled at any time, and
    one is scheduled exactly when the queue is not empty: the timer can
    fire exactly then. *)
Theorem one_sweep_timer t :
  traceOk started t = true →
  let s := run started t in
  timers s = (if decide (pendingPlays s = []) then 0 else 1)%nat
  ∧ (hostOk s TimerFired = true ↔ pendingPlays s ≠ []).
Proof.
  intros Ht s. pose proof (wf_reached t Ht) as [_ Hp]. fold s in Hp.
  pose proof (wf_timers _ Hp) as E. cbn [hostOk]. rewrite E.
  destruct (pendingPlays s); [by split|]. split; [done|]. by split.
Qed.

Lemma one_sweep_timer_witness : timers (run started exMixed) = 1%nat.
Proof.
  assert (traceOk started exMixed = true) as Ht by (by vm_compute).
  destruct (one_sweep_timer exMixed Ht) as [H _].
  destruct (decide (pendingPlays (run started exMixed) = [])) as [E|_];
    [by vm_compute in E|exact H].
Defined.

(** Within one session of the engine [playAudio] never gives out a handle
    twice: in a state reached from [init] the handle returned is the
    counter, at least 1, names no entry of the table, no request of the
    deferred queue and no finished event, is captured by no closure, and
    the counter moves past it.  Afterwards the handle names an entry when
    the source is registered and the host accepts the panner configuration,
    nothing when the source is registered and the configuration is
    refused, and a request of the deferred queue when the source is not
    registered. *)
Theorem playAudio_handle_fresh t a :
  traceOk started t = true →
  let s := run started t in
  let h := (playAudio s a).1 in
  let s' := (playAudio s a).2 in
  h = nextInstanceHandle s ∧ 1 ≤ h
  ∧ instances s !! h = None
  ∧ (h ∉ pp_handle <$> pendingPlays s)
  ∧ (h ∉ finishedCallbacks s)
  ∧ ¬ captured s h
  ∧ nextInstanceHandle s' = h + 1
  ∧ (playAudio s' a).1 = h + 1
  ∧ (match sources s !! pa_sourceHandle a with
     | Some _ =>
         pendingPlays s' = pendingPlays s
         ∧ (if pannerRejected a then instances s' = instances s
            else is_Some (getInstance s' h))
     | None => instances s' = instances s
               ∧ pendingPlays s' = pendingPlays s ++ [mkPendingPlay h a 0]
     end).
Proof.
  intros Ht s h s'. pose proof (wf_reached t Ht) as Hwf. fold s in Hwf.
  pose proof Hwf as [Hc Hp].
  assert (h = nextInstanceHandle s ∧ nextInstanceHandle s' = h + 1 ∧ initialized s' = true ∧
          match sources s !! pa_sourceHandle a with
          | Some _ =>
              pendingPlays s' = pendingPlays s
              ∧ (if pannerRejected a then instances s' = instances s
                 else is_Some (getInstance s' h))
          | None => instances s' = instances s
                    ∧ pendingPlays s' = pendingPlays s ++ [mkPendingPlay h a 0]
          end) as (Eh & En & Ei & Hcase).
  { subst h s'. destruct (sources s !! pa_sourceHandle a) as [source|] eqn:Hsrc.
    - rewrite (playAudio_ready _ _ _ (wf_init _ Hc) Hsrc). cbn [fst snd].
      set (s0 := set_nextInstanceHandle (nextInstanceHandle s + 1) s).
      destruct (playAudioInternal_table s0 (nextInstanceHandle s) a source)
        as (Hi & _ & _ & -> & _ & -> & _ & _ & _ & _ & _ & -> & _).
      split_and!; try done; [apply Hc|].
      destruct (pannerRejected a) eqn:Hrej.
      + rewrite Hi. by rewrite andb_false_r.
      + destruct (playAudioInternal_built s0 (nextInstanceHandle s) a source
                    (wf_init _ Hc) Hrej) as (i & Hl & Hh & _).
        exists (nextObj s0, i). by apply getInstance_eq.
    - destruct (playAudio_deferred s a (wf_init _ Hc) Hsrc)
        as (E1 & E2 & E3 & _ & _ & _ & E4 & _). rewrite E1. split_and!; try done.
      unfold playAudio. rewrite (wf_init _ Hc), Hsrc. cbn [negb snd].
      match goal with |- context [if ?b then _ else _] => destruct b end; apply Hc. }
  destruct (next_handle_fresh s Hc) as [Hnone Hncl]. rewrite <- Eh in Hnone, Hncl.
  split_and!; try done.
  - rewrite Eh. apply Hc.
  - intros (p & E & Hin)%list_elem_of_fmap. pose proof (wf_pend_lt _ Hp p Hin). lia.
  - intros Hin. pose proof (wf_fin_lt _ Hc _ Hin). lia.
  - unfold playAudio. rewrite Ei. cbn [negb].
    destruct (sources s' !! pa_sourceHandle a); cbn [fst]; by rewrite En.
Qed.

Lemma playAudio_handle_fresh_witness :
  (playAudio (run started exMixed) exArgs).1 = 4.
Proof.
  assert (traceOk started exMixed = true) as Ht by (by vm_compute).
  destruct (playAudio_handle_fresh exMixed exArgs Ht) as [H _].
  vm_compute in H. vm_compute. exact H.
Defined.

(** ** Buses, [stopAllAudio], requests waiting *)

Lemma busesOk_reached t : traceOk started t = true → busesOk (run started t).
Proof. intros Ht. apply busesOk_run; [apply wf_started|apply busesOk_started|done]. Qed.

(** [createAudioBus] in a state the engine reaches: the handle is the
    counter, at least 2 and unused; the bus gets a new gain node of gain 1
    feeding the master gain only, volume 1, not muted; the other buses and
    the instances are left alone; and a play on the new handle, of a
    registered source, gives an instance routed to the gain node of the
    bus, unless the host refuses the distances of its panner, in which case
    the table is left as it is. *)
Theorem createAudioBus_routes t :
  traceOk started t = true →
  let s := run started t in
  let b := (createAudioBus s).1 in
  let s1 := (createAudioBus s).2 in
  let g := nextNode (audioContext s) in
  b = nextBusHandle s ∧ 2 ≤ b ∧ buses s !! b = None
  ∧ buses s1 !! b = Some (mkBus g 1 false)
  ∧ (∀ b', b' ≠ b → buses s1 !! b' = buses s !! b')
  ∧ gainOf (audioContext s1) g = Some 1
  ∧ outputs (audioContext s1) g = {[masterGain s]}
  ∧ getAudioBusVolume s1 b = 1 ∧ isAudioBusMuted s1 b = false
  ∧ instances s1 = instances s ∧ heap s1 = heap s
  ∧ (∀ a source, pa_busHandle a = b → sources s1 !! pa_sourceHandle a = Some source →
       if pannerRejected a
       then instances (playAudio s1 a).2 = instances s1
       else ∃ l i, getInstance (playAudio s1 a).2 (playAudio s1 a).1 = Some (l, i)
              ∧ inst_busHandle i = b ∧ inst_outputNode i = g).
Proof.
  intros Ht s b s1 g. pose proof (wf_reached t Ht) as Hwf. fold s in Hwf.
  pose proof Hwf as [Hc _].
  pose proof (busesOk_reached t Ht) as (Hn & Hlt & _). fold s in Hn, Hlt.
  assert (createAudioBus s
          = (nextBusHandle s,
             set_buses (<[nextBusHandle s := mkBus g 1 false]>)
               (set_audioContext (λ _, connect g (masterGain s) (createGain (audioContext s)).2)
                  (set_nextBusHandle (nextBusHandle s + 1) s)))) as E.
  { unfold createAudioBus. by rewrite (wf_init _ Hc). }
  subst b s1. rewrite E. cbn [fst snd].
  assert (buses s !! nextBusHandle s = None) as Hfresh.
  { destruct (buses s !! nextBusHandle s) as [bus|] eqn:Eb; [|done].
    pose proof (Hlt _ _ Eb). lia. }
  split_and!; try done.
  - st_simpl. apply lookup_insert_eq.
  - intros b' Hne. st_simpl. by rewrite lookup_insert_ne.
  - st_simpl. unfold gainOf, connect, createGain, createNode. cbn.
    by rewrite lookup_insert_eq.
  - st_simpl. unfold outputs, connect, createGain, createNode. cbn.
    rewrite lookup_insert_eq, lookup_delete_eq. cbn. apply union_empty_r_L.
  - unfold getAudioBusVolume. st_simpl. by rewrite lookup_insert_eq.
  - unfold isAudioBusMuted. st_simpl. by rewrite lookup_insert_eq.
  - intros a source Hb Hsrc.
    match goal with |- context [playAudio ?x a] => set (s1 := x) in * end.
    assert (initialized s1 = true) as Hi1 by apply Hc.
    rewrite (playAudio_ready _ _ _ Hi1 Hsrc). cbn [fst snd].
    set (s2 := set_nextInstanceHandle (nextInstanceHandle s1 + 1) s1).
    destruct (pannerRejected a) eqn:Hacc.
    { pose proof (playAudioInternal_table s2 (nextInstanceHandle s1) a source) as [E' _].
      rewrite Hacc, andb_false_r in E'. exact E'. }
    destruct (playAudioInternal_heap s2 (nextInstanceHandle s1) a source Hi1 Hacc)
      as (i & Hheap & _ & _ & _ & Hout & Hbus & _).
    exists (nextObj s2), i. split_and!.
    + apply getInstance_Some. rewrite playAudioInternal_instances, Hheap by done.
      by rewrite !lookup_insert_eq.
    + by rewrite Hbus.
    + rewrite Hout, Hb. unfold resolveOutput.
      assert ((1 <? nextBusHandle s) = true) as -> by (apply Z.ltb_lt; lia).
      subst s2 s1. st_simpl. by rewrite lookup_insert_eq.
Qed.

Lemma createAudioBus_routes_witness :
  (createAudioBus (run started exTwoBuses)).1 = 3.
Proof.
  assert (traceOk started exTwoBuses = true) as Ht by (by vm_compute).
  destruct (createAudioBus_routes exTwoBuses Ht) as [H _].
  vm_compute in H. vm_compute. exact H.
Defined.

(** [destroyAudioBus]: the master bus cannot be destroyed (a handle at most
    1 is refused, and bus 1 stays registered on the master gain whatever is
    destroyed); destroying another registered bus drops it from the
    registry and disconnects its gain node, and touches no instance: the
    instances routed to it stay in the table, reading as playing, while a
    later play on the handle goes to the master gain. *)
Theorem destroyAudioBus_effects t b :
  traceOk started t = true →
  let s := run started t in
  let s' := destroyAudioBus s b in
  (b ≤ 1 → s' = s)
  ∧ (∃ bus, buses s' !! 1 = Some bus ∧ bus_gainNode bus = masterGain s')
  ∧ (∀ bus, 1 < b → buses s !! b = Some bus →
       buses s' !! b = None
       ∧ (∀ b', b' ≠ b → buses s' !! b' = buses s !! b')
       ∧ outputs (audioContext s') (bus_gainNode bus) = ∅
       ∧ instances s' = instances s ∧ heap s' = heap s
       ∧ (∀ h, isAudioPlaying s' h = isAudioPlaying s h)
       ∧ getAudioBusVolume s' b = 1 ∧ isAudioBusMuted s' b = false
       ∧ resolveOutput s' b = masterGain s').
Proof.
  intros Ht s s'. pose proof (wf_reached t Ht) as Hwf. fold s in Hwf.
  pose proof (busesOk_reached t Ht) as Hb. fold s in Hb.
  split_and!.
  - intros Hle. subst s'. unfold destroyAudioBus.
    assert ((b <=? 1) = true) as -> by (by apply Z.leb_le). done.
  - by destruct (busesOk_step s (DestroyAudioBus b) Hwf Hb) as (_ & _ & H).
  - intros bus Hlt Hbus. subst s'. unfold destroyAudioBus.
    assert ((b <=? 1) = false) as -> by (by apply Z.leb_gt). rewrite Hbus.
    split_and!; try done.
    + st_simpl. apply lookup_delete_eq.
    + intros b' Hne. st_simpl. by rewrite lookup_delete_ne.
    + st_simpl. unfold outputs, disconnect. cbn. by rewrite lookup_delete_eq.
    + unfold getAudioBusVolume. st_simpl. by rewrite lookup_delete_eq.
    + unfold isAudioBusMuted. st_simpl. by rewrite lookup_delete_eq.
    + unfold resolveOutput. st_simpl. rewrite lookup_delete_eq.
      by destruct (1 <? b).
Qed.

Lemma destroyAudioBus_effects_witness :
  isAudioPlaying (destroyAudioBus (run started exTwoBuses) 2) 2 = true.
Proof.
  assert (traceOk started exTwoBuses = true) as Ht by (by vm_compute).
  destruct (destroyAudioBus_effects exTwoBuses 2 Ht) as (_ & _ & H).
  destruct (buses (run started exTwoBuses) !! 2) as [bus|] eqn:E; [|by vm_compute in E].
  destruct (H bus) as (_ & _ & _ & _ & _ & Hp & _); [done|done|].
  rewrite Hp. by vm_compute.
Defined.

(** [stopAllAudio]: with handle 0 it empties the instance table; with
    another handle it removes exactly the entries played with that bus
    handle and keeps the others as they are.  The handles removed then read
    as not playing, with time 0.  It pushes no finished event and leaves
    the deferred queue, with its timer, the sources and the buses alone: a
    request not yet promoted is not cancelled. *)
Theorem stopAllAudio_effects t b :
  traceOk started t = true →
  let s := run started t in
  let s' := stopAllAudio s b in
  (b = 0 → instances s' = ∅)
  ∧ (∀ h l i, getInstance s h = Some (l, i) →
       if stopAllMatch b i
       then instances s' !! h = None ∧ isAudioPlaying s' h = false
            ∧ isAudioPaused s' h = false ∧ getAudioTime s' h = 0
       else getInstance s' h = Some (l, i))
  ∧ (∀ h, instances s !! h = None → instances s' !! h = None)
  ∧ finishedCallbacks s' = finishedCallbacks s
  ∧ pendingPlays s' = pendingPlays s ∧ timers s' = timers s
  ∧ sources s' = sources s ∧ buses s' = buses s.
Proof.
  intros Ht s s'. pose proof (wf_reached t Ht) as [Hc _]. fold s in Hc.
  destruct (stopAllAudio_spec s b Hc) as (_ & Hso & Hnone & Hkeep). fold s' in Hso, Hnone, Hkeep.
  split_and!; try apply Hso; try done.
  - intros ->. apply map_eq. intros h. rewrite lookup_empty.
    destruct (instances s !! h) as [l|] eqn:Hl; [|by apply Hnone].
    destruct (wf_entry _ Hc _ _ Hl) as (i & bs & Hi & _).
    by specialize (Hkeep h l i Hl Hi).
  - intros h l i [Hl Hi]%getInstance_Some. specialize (Hkeep h l i Hl Hi).
    destruct (stopAllMatch b i).
    + unfold isAudioPlaying, isAudioPaused, getAudioTime.
      by rewrite (getInstance_None _ _ Hkeep).
    + by apply getInstance_Some.
Qed.

Lemma stopAllAudio_effects_witness :
  instances (stopAllAudio (run started exTwoBuses) 0) = ∅.
Proof.
  assert (traceOk started exTwoBuses = true) as Ht by (by vm_compute).
  exact (proj1 (stopAllAudio_effects exTwoBuses 0 Ht) eq_refl).
Defined.

(** A play request waiting in the deferred queue cannot be reached through
    its handle: [stopAudio], [pauseAudio] and the setters on it change
    nothing, it reads as not playing, and [stopAllAudio] leaves it in the
    queue; so if its source is registered by the time of the next sweep of
    the session, the instance starts playing even after such calls, unless
    the host refuses the distances of its panner: the request is then
    dropped by the sweep with no instance made. *)
Theorem deferred_play_not_cancellable t h a k :
  traceOk started t = true →
  let s := run started t in
  mkPendingPlay h a k ∈ pendingPlays s →
  stopAudio s h = s ∧ pauseAudio s h = s ∧ resumeAudio s h = s
  ∧ (∀ v, setAudioVolume s h v = s)
  ∧ isAudioPlaying s h = false ∧ isAudioPaused s h = false
  ∧ (∀ b, mkPendingPlay h a k ∈ pendingPlays (stopAllAudio s b))
  ∧ (∀ b, is_Some (sources s !! pa_sourceHandle a) →
       isAudioPlaying (run s [StopAudio h; StopAllAudio b; TimerFired]) h
       = negb (pannerRejected a)).
Proof.
  intros Ht s Hin. pose proof (wf_reached t Ht) as Hwf. fold s in Hwf.
  pose proof Hwf as [Hc Hp].
  pose proof (wf_pend_inst _ Hp _ Hin) as Hl. cbn in Hl.
  pose proof (getInstance_None _ _ Hl) as Hg.
  assert (stopAudio s h = s) as Estop by (unfold stopAudio; by rewrite Hl).
  assert (∀ b, mkPendingPlay h a k ∈ pendingPlays (stopAllAudio s b)) as Hall.
  { intros b. destruct (stopAllAudio_spec s b Hc) as (_ & Hso & _).
    by rewrite (so_pending _ _ Hso). }
  split_and!; try done.
  - unfold pauseAudio. by rewrite Hg.
  - unfold resumeAudio. by rewrite Hg.
  - intros v. unfold setAudioVolume. by rewrite Hg.
  - unfold isAudioPlaying. by rewrite Hg.
  - unfold isAudioPaused. by rewrite Hg.
  - intros b [source Hsrc]. cbn [run foldl step]. rewrite Estop.
    assert (wf (stopAllAudio s b)) as Hwf' by (by apply (wf_step s (StopAllAudio b))).
    pose proof (sweep_pending (stopAllAudio s b) h a k Hwf' (Hall b)) as H. cbv zeta in H.
    destruct (stopAllAudio_spec s b Hc) as (_ & Hso & _).
    rewrite (so_sources _ _ Hso), Hsrc in H. destruct H as [_ H].
    cbn [step] in H.
    destruct (pannerRejected a); [|by destruct H as (l & i & _ & _ & H)].
    unfold isAudioPlaying. by rewrite (getInstance_None _ _ H).
Qed.

Lemma deferred_play_not_cancellable_witness :
  stopAudio (run started exMixed) 3 = run started exMixed.
Proof.
  assert (traceOk started exMixed = true) as Ht by (by vm_compute).
  assert (mkPendingPlay 3 exGhostArgs 0 ∈ pendingPlays (run started exMixed)) as Hin.
  { assert (pendingPlays (run started exMixed) = [mkPendingPlay 3 exGhostArgs 0]) as ->
      by (by vm_compute).
    apply list_elem_of_here. }
  exact (proj1 (deferred_play_not_cancellable exMixed 3 exGhostArgs 0 Ht Hin)).
Defined.

(** ** Playback time, loading *)

Lemma destroyAudio_absent s h : sources s !! h = None → destroyAudio s h = s.
Proof.
  intros Hh. unfold destroyAudio, set_sources. rewrite delete_id by done. by destruct s.
Qed.

(** The reading of [getAudioTime] on a playing instance whose source is
    registered, in a state the engine reaches.  The duration is positive.
    Without loop the reading never exceeds the duration, does not decrease
    when the clock moves on, and stays at the duration once the end of the
    buffer is passed.  With loop, from the start time on, it lies in
    [[0, duration)] and comes back to the same value one duration later. *)
Theorem getAudioTime_range t h l i source (dt : N) :
  traceOk started t = true →
  let s := run started t in
  getInstance s h = Some (l, i) → inst_paused i = false →
  sources s !! inst_sourceHandle i = Some source →
  let d := src_duration source in
  let now := currentTime (audioContext s) in
  0 < d
  ∧ (inst_loop i = false →
       getAudioTime s h = Z.min (now - inst_startTime i) d
       ∧ getAudioTime s h ≤ getAudioTime (step s (Advance dt)) h ≤ d
       ∧ (inst_startTime i + d ≤ now →
          getAudioTime s h = d ∧ getAudioTime (step s (Advance dt)) h = d))
  ∧ (inst_loop i = true → inst_startTime i ≤ now →
       0 ≤ getAudioTime s h < d
       ∧ getAudioTime s h = (now - inst_startTime i) mod d
       ∧ getAudioTime (step s (Advance (Z.to_N d))) h = getAudioTime s h).
Proof.
  intros Ht s Hg Hpa Hsrc d now.
  pose proof (wf_reached t Ht) as [Hc _]. fold s in Hc.
  pose proof Hg as [Hl Hi]%getInstance_Some.
  destruct (wf_entry _ Hc _ _ Hl) as (i' & bs & Hi' & Hst & _).
  assert (i' = i) as -> by congruence.
  destruct (wf_src _ Hc _ _ Hsrc) as [_ Hd]. fold d in Hd.
  assert (∀ k : N, getAudioTime (step s (Advance k)) h
            = if inst_loop i then js_rem (now + Z.of_N k - inst_startTime i) d
              else Z.min (now + Z.of_N k - inst_startTime i) d) as Hadv.
  { intros k. erewrite getAudioTime_playing; [|by apply getInstance_Some|done|done].
    cbn. by rewrite Hsrc. }
  pose proof (getAudioTime_playing _ _ _ _ Hg Hpa Hst) as Hnow. cbn zeta in Hnow.
  rewrite Hsrc in Hnow. fold now d in Hnow.
  split_and!; [done| |].
  - intros Hlo. rewrite Hlo in Hnow. rewrite Hadv, Hlo, Hnow. split_and!; try done; lia.
  - intros Hlo Hle. rewrite Hlo in Hnow. rewrite Hadv, Hlo, Hnow. unfold js_rem.
    rewrite !Z.rem_mod_nonneg by lia. rewrite Z2N.id by lia.
    split_and!; try done; try (apply Z.mod_pos_bound; lia).
    replace (now + d - inst_startTime i) with (now - inst_startTime i + 1 * d) by lia.
    apply Z_mod_plus_full.
Qed.

Lemma getAudioTime_range_witness : getAudioTime (run started exLoopTrace) 1 = 4.
Proof.
  assert (traceOk started exLoopTrace = true) as Ht by (by vm_compute).
  destruct (getInstance (run started exLoopTrace) 1) as [[l i]|] eqn:Hg;
    [|by vm_compute in Hg].
  pose proof Hg as Hv. vm_compute in Hv. injection Hv as <- <-.
  match type of Hg with _ = Some (_, ?i) =>
    assert (sources (run started exLoopTrace) !! inst_sourceHandle i
            = Some (mkSource 7 10)) as Hsrc by (by vm_compute)
  end.
  destruct (getAudioTime_range exLoopTrace 1 0 _ (mkSource 7 10) 0 Ht Hg eq_refl Hsrc)
    as (_ & _ & H).
  destruct H as (_ & H & _); [done|by vm_compute|].
  rewrite H. by vm_compute.
Defined.

(** [_js_load_audio] in a state the engine reaches within a session (the
    engine is initialized, so the host context is not asked for again).
    Without the memory of the module it returns 0 and changes nothing.
    With it, it gives out the next source handle, which names no source
    until its decode resolves: the duration reads 0 and [destroyAudio] on
    it changes nothing, so that a destroy issued before the decode resolves
    is lost and the source is registered all the same afterwards. *)
Theorem destroy_before_decode_is_lost t buffer duration hostAudio :
  traceOk started t = true → 0 < duration →
  let s := run started t in
  let h := (js_load_audio_in true hostAudio s).1 in
  let s1 := (js_load_audio_in true hostAudio s).2 in
  js_load_audio_in false hostAudio s = (0, s)
  ∧ js_load_audio_in true hostAudio s = js_load_audio s
  ∧ h = nextSourceHandle s ∧ 1 ≤ h
  ∧ sources s !! h = None ∧ sources s1 = sources s
  ∧ getAudioDuration s1 h = 0
  ∧ destroyAudio s1 h = s1
  ∧ traceOk s1 [DestroyAudio h; DecodeResolved h buffer duration] = true
  ∧ getAudioDuration (run s1 [DestroyAudio h; DecodeResolved h buffer duration]) h
    = duration.
Proof.
  intros Ht Hd s h s1. pose proof (wf_reached t Ht) as Hwf. fold s in Hwf.
  pose proof Hwf as [Hc _].
  assert (js_load_audio s
          = (nextSourceHandle s,
             set_decoding (λ d, {[nextSourceHandle s]} ∪ d)
               (set_nextSourceHandle (nextSourceHandle s + 1) s))) as E.
  { by apply js_load_audio_eq, (wf_init _ Hc). }
  assert (js_load_audio_in true hostAudio s = js_load_audio s) as Ein.
  { rewrite E. unfold js_load_audio_in. cbn [negb]. rewrite (wf_init _ Hc). cbn.
    by rewrite (wf_init _ Hc). }
  assert (sources s !! nextSourceHandle s = None) as Hnone.
  { destruct (sources s !! nextSourceHandle s) as [src|] eqn:Es; [|done].
    destruct (wf_src _ Hc _ _ Es). lia. }
  assert (1 ≤ nextSourceHandle s) as Hpos.
  { clear -Ht. subst s. revert Ht. generalize wf_started.
    assert (1 ≤ nextSourceHandle started) as H0 by done. revert H0.
    generalize started. induction t as [|e t IH]; intros s0 H0 Hwf Ht; [done|].
    cbn in Ht. apply andb_prop in Ht as [He Ht]. cbn. apply IH; [|by apply wf_step|done].
    rewrite (proj2 (step_decoding s0 e Hwf)). destruct e; lia. }
  subst h s1. rewrite Ein, E. cbn [fst snd].
  assert (destroyAudio
            (set_decoding (λ d, {[nextSourceHandle s]} ∪ d)
               (set_nextSourceHandle (nextSourceHandle s + 1) s)) (nextSourceHandle s)
          = set_decoding (λ d, {[nextSourceHandle s]} ∪ d)
              (set_nextSourceHandle (nextSourceHandle s + 1) s)) as Edes
    by (by apply destroyAudio_absent).
  split_and!; try done.
  - unfold getAudioDuration. st_simpl. by rewrite Hnone.
  - cbn [traceOk hostOk step andb]. rewrite Edes. st_simpl.
    rewrite bool_decide_eq_true_2 by (apply elem_of_union_l; by apply elem_of_singleton).
    cbn. rewrite andb_true_r. by apply Z.ltb_lt.
  - cbn [run foldl step]. rewrite Edes. unfold getAudioDuration, decodeResolved. st_simpl.
    by rewrite lookup_insert_eq.
Qed.

Lemma destroy_before_decode_is_lost_witness :
  getAudioDuration
    (run (js_load_audio_in true true (run started exLoopTrace)).2
       [DestroyAudio 2; DecodeResolved 2 8 5]) 2 = 5.
Proof.
  assert (traceOk started exLoopTrace = true) as Ht by (by vm_compute).
  assert (0 < 5) as Hd by lia.
  destruct (destroy_before_decode_is_lost exLoopTrace 8 5 true Ht Hd)
    as (_ & _ & _ & _ & _ & _ & _ & _ & _ & H).
  vm_compute in H. vm_compute. exact H.
Defined.

(** [loadAudio] once its decode has settled, in a well-formed state: a
    rejected decode returns 0 and changes nothing; a decoded buffer of
    positive duration is registered under the counter, a handle that names
    no source and is not one reserved by [_js_load_audio] for a decode
    still running; its duration can be read back, the other sources are
    kept, the state stays well formed and the next [_js_load_audio]
    reserves the handle after it. *)
Theorem loadAudioSettled_registers s buffer duration :
  wf s → 0 < duration →
  let h := (loadAudioSettled s (Some (buffer, duration))).1 in
  let s' := (loadAudioSettled s (Some (buffer, duration))).2 in
  loadAudioCall s = None
  ∧ loadAudioSettled s None = (0, s)
  ∧ h = nextSourceHandle s
  ∧ sources s !! h = None ∧ (h ∉ decoding s)
  ∧ getAudioDuration s' h = duration
  ∧ (∀ h', h' ≠ h → sources s' !! h' = sources s !! h')
  ∧ wf s'
  ∧ (js_load_audio s').1 = h + 1
  ∧ getAudioDuration (destroyAudio s' h) h = 0.
Proof.
  intros [Hc Hp] Hd h s'. subst h s'. cbn [loadAudioSettled fst snd].
  assert (sources s !! nextSourceHandle s = None) as Hnone.
  { destruct (sources s !! nextSourceHandle s) as [src|] eqn:Es; [|done].
    destruct (wf_src _ Hc _ _ Es). lia. }
  split_and!; try done.
  - unfold loadAudioCall. by rewrite (wf_init _ Hc).
  - intros Hin. destruct (wf_dec _ Hc _ Hin). lia.
  - unfold getAudioDuration. st_simpl. by rewrite lookup_insert_eq.
  - intros h' Hne. st_simpl. by rewrite lookup_insert_ne.
  - split.
    + pose proof (wf_nodes _ Hc).
      apply (wfCore_frame s); try (frame_tac; fail); try apply Hc.
      * cbn. intros h src. rewrite lookup_insert_Some. intros [[<- <-]|[_ Hh]].
        -- split; [lia|done].
        -- destruct (wf_src _ Hc _ _ Hh). split; [lia|done].
      * cbn. intros h Hh. destruct (wf_dec _ Hc _ Hh) as [Hlt Hs]. split; [lia|].
        rewrite lookup_insert_ne by lia. done.
    + by destruct Hp.
  - rewrite js_load_audio_eq by (st_simpl; apply (wf_init _ Hc)). done.
  - unfold getAudioDuration, destroyAudio. st_simpl. by rewrite lookup_delete_eq.
Qed.

Lemma loadAudioSettled_registers_witness :
  getAudioDuration (loadAudioSettled (run started exLoopTrace) (Some (8, 5))).2 2 = 5.
Proof.
  assert (wf (run started exLoopTrace)) as Hwf by (apply wf_reached; by vm_compute).
  assert (0 < 5) as Hd by lia.
  destruct (loadAudioSettled_registers (run started exLoopTrace) 8 5 Hwf Hd)
    as (_ & _ & _ & _ & _ & H & _).
  vm_compute in H. vm_compute. exact H.
Defined.

(** ** Loop flag, pause and resume *)

Lemma setAudioLooping_eq s h l i b :
  getInstance s h = Some (l, i) →
  setAudioLooping s h b
  = set_audioContext (setLoop (inst_sourceNode i) b)
      (set_heap (<[l := inst_set_loop b i]>) s).
Proof. intros Hg. unfold setAudioLooping. by rewrite Hg. Qed.

(** The loop flag of a playing instance decides whether it can finish.
    After [setAudioLooping(h, true)] the node of the instance loops and
    the host has no end of buffer to notify; after
    [setAudioLooping(h, false)] the end of the buffer can be notified, and
    the notification removes the entry and pushes the handle on the
    finished queue exactly when the instance was created with a
    callback. *)
Theorem looping_flag_decides_finish t h l i :
  traceOk started t = true →
  let s := run started t in
  getInstance s h = Some (l, i) → inst_paused i = false →
  let n := inst_sourceNode i in
  let s0 := setAudioLooping s h false in
  hostOk (setAudioLooping s h true) (Ended n) = false
  ∧ hostOk s0 (Ended n) = true
  ∧ finishedCallbacks (step s0 (Ended n))
    = finishedCallbacks s ++ (if inst_hasCallback i then [h] else [])
  ∧ instances (step s0 (Ended n)) !! h = None
  ∧ isAudioPlaying (step s0 (Ended n)) h = false.
Proof.
  intros Ht s Hg Hpa n s0. pose proof (wf_reached t Ht) as Hwf. fold s in Hwf.
  pose proof Hwf as [Hc _]. pose proof Hg as [Hl Hi]%getInstance_Some.
  destruct (wf_entry _ Hc _ _ Hl) as (i' & bs & Hi' & Hst & Hs & Hon & Hlo & Hsp & Hen & Hsta & _).
  assert (i' = i) as -> by congruence. fold n in Hs.
  assert (∀ b, nodes (audioContext (setAudioLooping s h b)) !! n
            = Some (NSource (mkBufferSource (bs_buffer bs) b (bs_playbackRate bs)
                (bs_started bs) (bs_stopped bs) (bs_ended bs) (bs_onended bs)))) as Hnode.
  { intros b. rewrite (setAudioLooping_eq _ _ _ _ _ Hg). st_simpl. apply sourceOf_nodes.
    unfold setLoop. fold n. by rewrite (sourceOf_updSource_at _ _ _ _ _ Hs), decide_True. }
  assert (bs_ended bs = false) as Hen'.
  { destruct (bs_ended bs); [|done]. rewrite Hen in Hpa; done. }
  assert (hostOk s0 (Ended n) = true) as Hok.
  { cbn [hostOk]. unfold naturalEnd. subst s0. rewrite Hnode. cbn.
    change (isStarted (mkBufferSource (bs_buffer bs) false (bs_playbackRate bs)
              (bs_started bs) (bs_stopped bs) (bs_ended bs) (bs_onended bs)))
      with (isStarted bs).
    by rewrite Hsta, Hsp, Hpa, Hen'. }
  assert (step s0 (Ended n) = endedState s0 n h (inst_set_loop false i)) as E.
  { cbn [step]. pose proof (Hnode false) as Hs0. fold s0 in Hs0.
    assert (sourceOf (audioContext s0) n
            = Some (mkBufferSource (bs_buffer bs) false (bs_playbackRate bs)
                (bs_started bs) (bs_stopped bs) (bs_ended bs) (bs_onended bs))) as Hs0'
      by (unfold sourceOf; by rewrite Hs0).
    assert (heap s0 !! l = Some (inst_set_loop false i)) as Hi0.
    { subst s0. rewrite (setAudioLooping_eq _ _ _ _ _ Hg). st_simpl.
      by rewrite lookup_insert_eq. }
    destruct (deliverEnded_cases s0 n _ Hs0')
      as [[_ Hno]|(l' & h' & i' & Hon' & Hi2 & _ & _ & E)].
    - destruct (Hno l h _ Hon Hi0) as [H|H]; cbn in H; [congruence|done].
    - cbn in Hon'. rewrite Hon in Hon'. injection Hon' as <- <-.
      rewrite Hi0 in Hi2. by injection Hi2 as <-. }
  split_and!.
  - cbn [hostOk]. unfold naturalEnd, stoppedEnd. rewrite Hnode. cbn.
    by rewrite Hsp, Hpa, !andb_false_r.
  - done.
  - rewrite E. unfold endedState. cbn [inst_hasCallback inst_set_loop].
    subst s0. rewrite (setAudioLooping_eq _ _ _ _ _ Hg).
    destruct (inst_hasCallback i); st_simpl; [done|by rewrite app_nil_r].
  - rewrite E. unfold endedState. st_simpl. apply lookup_delete_eq.
  - rewrite E. unfold isAudioPlaying. rewrite getInstance_None; [done|].
    unfold endedState. st_simpl. apply lookup_delete_eq.
Qed.

Lemma looping_flag_decides_finish_witness :
  finishedCallbacks
    (step (setAudioLooping (run started exLoopCallback) 1 false) (Ended 2)) = [1].
Proof.
  assert (traceOk started exLoopCallback = true) as Ht by (by vm_compute).
  destruct (getInstance (run started exLoopCallback) 1) as [[l i]|] eqn:Hg;
    [|by vm_compute in Hg].
  pose proof Hg as Hv. vm_compute in Hv. injection Hv as <- <-.
  destruct (looping_flag_decides_finish exLoopCallback 1 0 _ Ht Hg eq_refl)
    as (_ & _ & H & _).
  vm_compute in H. vm_compute. exact H.
Defined.

(** The guards of [pauseAudio] and [resumeAudio]: once [pauseAudio] was
    called, a second call changes nothing, however far the clock has moved,
    and the reading of [getAudioTime] does not move with the clock; and
    once [resumeAudio] was called, a second call changes nothing. *)
Theorem pause_and_resume_are_idempotent s h (dt : N) :
  let s1 := step (pauseAudio s h) (Advance dt) in
  let s2 := resumeAudio s1 h in
  pauseAudio s1 h = s1
  ∧ getAudioTime s1 h = getAudioTime (pauseAudio s h) h
  ∧ resumeAudio s2 h = s2.
Proof.
  intros s1 s2.
  assert (∀ s0, resumeAudio (resumeAudio s0 h) h = resumeAudio s0 h) as Hres.
  { intros s0. destruct (getInstance s0 h) as [[l i]|] eqn:Hg.
    2: { rewrite (resumeAudio_noop s0) by (intros ? ? E; by rewrite Hg in E).
         apply resumeAudio_noop. intros ? ? E. by rewrite Hg in E. }
    destruct (inst_paused i) eqn:Hpa.
    2: { rewrite (resumeAudio_noop s0)
           by (intros ? ? E; rewrite Hg in E; injection E as <- <-; by left).
         apply resumeAudio_noop. intros ? ? E. rewrite Hg in E. injection E as <- <-.
         by left. }
    destruct (inst_stopped i) eqn:Hst.
    { rewrite (resumeAudio_noop s0)
        by (intros ? ? E; rewrite Hg in E; injection E as <- <-; by right; left).
      apply resumeAudio_noop. intros ? ? E. rewrite Hg in E. injection E as <- <-.
      by right; left. }
    destruct (sources s0 !! inst_sourceHandle i) as [source|] eqn:Hsrc.
    2: { rewrite (resumeAudio_noop s0)
           by (intros ? ? E; rewrite Hg in E; injection E as <- <-; by right; right).
         apply resumeAudio_noop. intros ? ? E. rewrite Hg in E. injection E as <- <-.
         by right; right. }
    rewrite (resumeAudio_eq _ _ _ _ _ Hg Hpa Hst Hsrc).
    apply resumeAudio_noop. intros l' i' E.
    rewrite getInstance_insert in E by (by apply getInstance_Some in Hg as [? _]).
    injection E as <- <-. by left. }
  assert (getAudioTime s1 h = getAudioTime (pauseAudio s h) h ∧ pauseAudio s1 h = s1)
    as [? ?]; [|split_and!; [done|done|apply Hres]].
  subst s1. clear s2 Hres.
  assert (∀ s0, getInstance (step s0 (Advance dt)) h = getInstance s0 h) as Hadv by done.
  destruct (getInstance s h) as [[l i]|] eqn:Hg.
  2: { assert (pauseAudio s h = s) as -> by (unfold pauseAudio; by rewrite Hg).
       unfold getAudioTime, pauseAudio. by rewrite Hadv, Hg. }
  destruct (inst_paused i || inst_stopped i) eqn:Hps.
  { assert (pauseAudio s h = s) as -> by (unfold pauseAudio; by rewrite Hg, Hps).
    unfold getAudioTime, pauseAudio. rewrite Hadv, Hg, Hps. split; [|done].
    destruct (inst_paused i); [done|]. cbn in Hps. by rewrite Hps. }
  pose proof Hg as [Hl _]%getInstance_Some.
  set (i1 := inst_set_pauseTime (currentTime (audioContext s) - inst_startTime i)
               (inst_set_paused true i)).
  assert (pauseAudio s h
          = set_audioContext (stopNode (inst_sourceNode i)) (set_heap (<[l := i1]>) s)) as ->
    by (unfold pauseAudio; by rewrite Hg, Hps).
  unfold getAudioTime, pauseAudio. rewrite Hadv, getInstance_insert by done. done.
Qed.

Lemma gainOf_updSource f n0 c n : gainOf (updSource f n0 c) n = gainOf c n.
Proof.
  unfold gainOf, updSource. rewrite nodes_alter.
  case_decide; [|done]. by destruct (nodes c !! n) as [[]|].
Qed.

(** Pitch and loop flag set while an instance is paused reach the node that
    [resumeAudio] creates: the resumed instance plays on a new source node
    carrying the buffer of the source, the pitch and the loop flag set
    during the pause, and keeps its gain node, whose gain is left as it
    was. *)
Theorem paused_settings_applied_at_resume t h l i source pitch loop :
  traceOk started t = true →
  let s := run started t in
  getInstance s h = Some (l, i) → inst_paused i = true →
  sources s !! inst_sourceHandle i = Some source →
  let s1 := setAudioLooping (setAudioPitch s h pitch) h loop in
  let s2 := resumeAudio s1 h in
  ∃ i2 bs,
    getInstance s2 h = Some (l, i2)
    ∧ inst_paused i2 = false ∧ isAudioPlaying s2 h = true
    ∧ inst_pitch i2 = pitch ∧ inst_loop i2 = loop
    ∧ inst_sourceNode i2 = nextNode (audioContext s)
    ∧ inst_sourceNode i2 ≠ inst_sourceNode i
    ∧ sourceOf (audioContext s2) (inst_sourceNode i2) = Some bs
    ∧ bs_buffer bs = Some (src_buffer source)
    ∧ bs_playbackRate bs = pitch ∧ bs_loop bs = loop
    ∧ inst_gainNode i2 = inst_gainNode i
    ∧ gainOf (audioContext s2) (inst_gainNode i) = gainOf (audioContext s) (inst_gainNode i).
Proof.
  intros Ht s Hg Hpa Hsrc s1 s2. pose proof (wf_reached t Ht) as [Hc _]. fold s in Hc.
  pose proof Hg as [Hl Hi]%getInstance_Some.
  destruct (wf_entry _ Hc _ _ Hl) as (i' & bs0 & Hi' & Hst & Hs & _ & _ & _ & _ & _ & Hk & _).
  assert (i' = i) as -> by congruence.
  pose proof (sourceOf_lt _ _ _ (wf_nodes _ Hc) Hs) as Hlt.
  pose proof (kindAt_lt _ _ _ (wf_nodes _ Hc) Hk) as Hgl.
  set (il := inst_set_loop loop (inst_set_pitch pitch i)).
  assert (s1 = set_audioContext (λ c, setLoop (inst_sourceNode i) loop
                                   (setPlaybackRate (inst_sourceNode i) pitch c))
                 (set_heap (<[l := il]>) s)) as Es1.
  { subst s1. unfold setAudioPitch at 1. rewrite Hg.
    rewrite (setAudioLooping_eq _ _ l (inst_set_pitch pitch i))
      by (by apply getInstance_insert).
    st_simpl. unfold set_audioContext, set_heap. st_simpl. by rewrite insert_insert_eq. }
  assert (getInstance s1 h = Some (l, il)) as Hg1.
  { rewrite Es1. by apply getInstance_insert. }
  assert (sources s1 !! inst_sourceHandle il = Some source) as Hsrc1 by (by rewrite Es1).
  assert (instances s1 !! h = Some l) as Hl1 by (by rewrite Es1).
  subst s2. rewrite (resumeAudio_eq _ _ _ _ _ Hg1 Hpa Hst Hsrc1).
  exists (resumeInstance s1 il),
    (mkBufferSource (Some (src_buffer source)) (inst_loop il) (inst_pitch il)
       (if inst_pauseTime il <? 0 then None else Some (0, inst_pauseTime il))
       false false (Some (l, h))).
  assert (nextNode (audioContext s1) = nextNode (audioContext s)) as En by (by rewrite Es1).
  unfold isAudioPlaying. rewrite getInstance_insert by done. st_simpl.
  split_and!; try done.
  - cbn. by rewrite Hst.
  - cbn. lia.
  - apply (resumeContext_source s1 h l il source).
  - unfold gainOf. rewrite resumeContext_nodes by (rewrite En; lia).
    rewrite Es1. st_simpl. fold (gainOf (setLoop (inst_sourceNode i) loop
      (setPlaybackRate (inst_sourceNode i) pitch (audioContext s))) (inst_gainNode i)).
    unfold setLoop, setPlaybackRate. by rewrite !gainOf_updSource.
Qed.

Lemma paused_settings_applied_at_resume_witness :
  ∃ i2, getInstance
          (resumeAudio (setAudioLooping (setAudioPitch (run started exPausedTrace) 1 2) 1 true) 1)
          1 = Some (0, i2)
    ∧ inst_pitch i2 = 2 ∧ inst_loop i2 = true.
Proof.
  assert (traceOk started exPausedTrace = true) as Ht by (by vm_compute).
  destruct (getInstance (run started exPausedTrace) 1) as [[l i]|] eqn:Hg;
    [|by vm_compute in Hg].
  pose proof Hg as Hv. vm_compute in Hv. injection Hv as <- <-.
  match type of Hg with _ = Some (_, ?i) =>
    assert (sources (run started exPausedTrace) !! inst_sourceHandle i
            = Some (mkSource 7 10)) as Hsrc by (by vm_compute)
  end.
  destruct (paused_settings_applied_at_resume exPausedTrace 1 0 _ (mkSource 7 10) 2 true
              Ht Hg eq_refl Hsrc) as (i2 & bs & H1 & _ & _ & H2 & H3 & _).
  by exists i2.
Defined.

(** ** [init], [playAudio] *)

(** [init] is idempotent, on a host that builds the context and on one
    that refuses.  It returns whether the engine is initialized afterwards
    (1 or 0 through the bridge), and a second call returns the same and
    changes nothing.  On an initialized engine it returns true and changes
    nothing.  On an engine not yet initialized: when the host refuses, it
    returns false and leaves the engine as it is; when the host builds the
    context, it returns true and registers bus 1 on a new master gain of
    gain 1 feeding the destination, with volume 1 and not muted, and keeps
    the registries, the queues and the counters.  [_js_load_audio] returns
    0 and changes nothing without the memory of the module, and when the
    engine is not initialized and the host refuses the context; otherwise
    it initializes the engine on demand and returns the next source
    handle. *)
Theorem init_idempotent s hostAudio :
  let r := init_in hostAudio s in
  js_audio_init_in hostAudio s = ((if r.1 then 1 else 0), r.2)
  ∧ js_audio_init s = js_audio_init_in true s
  ∧ r.1 = initialized r.2
  ∧ init_in hostAudio r.2 = r
  ∧ (initialized s = true → r = (true, s))
  ∧ (initialized s = false → hostAudio = false → r = (false, s))
  ∧ (initialized s = false → hostAudio = true →
       let s' := r.2 in
       r.1 = true
       ∧ buses s' !! 1 = Some (mkBus (masterGain s') 1 false)
       ∧ (∀ b, b ≠ 1 → buses s' !! b = buses s !! b)
       ∧ gainOf (audioContext s') (masterGain s') = Some 1
       ∧ outputs (audioContext s') (masterGain s') = {[destination]}
       ∧ sources s' = sources s ∧ instances s' = instances s
       ∧ pendingPlays s' = pendingPlays s ∧ finishedCallbacks s' = finishedCallbacks s
       ∧ nextSourceHandle s' = nextSourceHandle s
       ∧ nextInstanceHandle s' = nextInstanceHandle s
       ∧ nextBusHandle s' = nextBusHandle s)
  ∧ js_load_audio_in false hostAudio s = (0, s)
  ∧ (initialized s = false → js_load_audio_in true false s = (0, s))
  ∧ (initialized s = true ∨ hostAudio = true →
       initialized (js_load_audio_in true hostAudio s).2 = true
       ∧ (js_load_audio_in true hostAudio s).1 = nextSourceHandle s
       ∧ nextSourceHandle (js_load_audio_in true hostAudio s).2 = nextSourceHandle s + 1).
Proof.
  unfold js_audio_init_in, js_audio_init, js_load_audio_in, init, init_in, boolToInt.
  destruct hostAudio, (initialized s) eqn:E; cbn; rewrite ?E; split_and!; try done.
  - intros _ _. split_and!; try done.
    + apply lookup_insert_eq.
    + intros b Hb. by rewrite lookup_insert_ne.
  - by intros [|].
Qed.

Lemma init_idempotent_witness :
  buses (init initial).2 !! 1 = Some (mkBus (masterGain (init initial).2) 1 false)
  ∧ js_load_audio_in true false initial = (0, initial).
Proof.
  pose proof (init_idempotent initial true) as (_ & _ & _ & _ & _ & _ & H & _).
  pose proof (init_idempotent initial false) as (_ & _ & _ & _ & _ & _ & _ & _ & H' & _).
  split; [exact (proj1 (proj2 (H eq_refl eq_refl)))|exact (H' eq_refl)].
Defined.

Lemma playAudioInternal_outputs_old s h a src n :
  n < nextNode (audioContext s) →
  outputs (audioContext (playAudioInternal s h a src)) n = outputs (audioContext s) n.
Proof.
  intros Hn. unfold outputs. play_all s a; by map_simp.
Qed.

(** [playAudio] touches nothing that was there: in a state the engine
    reaches, every other handle reads as before (entry, playing and paused
    flags, time), the sources, the buses, the finished queue and the clock
    are kept, and so is every node allocated before the call, with its
    connections. *)
Theorem playAudio_leaves_others t a :
  traceOk started t = true →
  let s := run started t in
  let s' := (playAudio s a).2 in
  (∀ h', h' ≠ (playAudio s a).1 →
     getInstance s' h' = getInstance s h'
     ∧ isAudioPlaying s' h' = isAudioPlaying s h'
     ∧ isAudioPaused s' h' = isAudioPaused s h'
     ∧ getAudioTime s' h' = getAudioTime s h')
  ∧ sources s' = sources s ∧ buses s' = buses s
  ∧ finishedCallbacks s' = finishedCallbacks s
  ∧ currentTime (audioContext s') = currentTime (audioContext s)
  ∧ (∀ n, n < nextNode (audioContext s) →
       nodes (audioContext s') !! n = nodes (audioContext s) !! n
       ∧ outputs (audioContext s') n = outputs (audioContext s) n).
Proof.
  intros Ht s s'. pose proof (wf_reached t Ht) as [Hc Hp]. fold s in Hc, Hp.
  assert (∀ h', h' ≠ (playAudio s a).1 → getInstance s' h' = getInstance s h') as Hget.
  { intros h' Hne. subst s'. destruct (sources s !! pa_sourceHandle a) as [source|] eqn:Hsrc.
    - rewrite (playAudio_ready _ _ _ (wf_init _ Hc) Hsrc) in Hne |- *. cbn [fst snd] in *.
      set (s0 := set_nextInstanceHandle (nextInstanceHandle s + 1) s).
      assert (wfCore s0) as Hc0 by (by apply wfCore_set_nextInstanceHandle).
      destruct (instances s !! h') as [l'|] eqn:Hl'.
      + destruct (playAudioInternal_keeps s0 (nextInstanceHandle s) a source h' l' Hc0 Hne Hl')
          as [E1 E2].
        unfold getInstance. rewrite E1, E2. st_simpl. by rewrite Hl'.
      + destruct (playAudioInternal_table s0 (nextInstanceHandle s) a source) as [E1 _].
        unfold getInstance. rewrite E1.
        destruct (initialized s0 && negb (pannerRejected a));
          rewrite ?lookup_insert_ne by congruence;
          change (instances s0) with (instances s); by rewrite Hl'.
    - destruct (playAudio_deferred s a (wf_init _ Hc) Hsrc) as (_ & _ & E1 & E2 & _).
      unfold getInstance. by rewrite E1, E2. }
  assert (sources s' = sources s ∧ buses s' = buses s
          ∧ finishedCallbacks s' = finishedCallbacks s
          ∧ currentTime (audioContext s') = currentTime (audioContext s)
          ∧ (∀ n, n < nextNode (audioContext s) →
               nodes (audioContext s') !! n = nodes (audioContext s) !! n
               ∧ outputs (audioContext s') n = outputs (audioContext s) n))
    as (Es & Eb & Ef & Et & Hn).
  { subst s'. destruct (sources s !! pa_sourceHandle a) as [source|] eqn:Hsrc.
    - rewrite (playAudio_ready _ _ _ (wf_init _ Hc) Hsrc). cbn [fst snd].
      set (s0 := set_nextInstanceHandle (nextInstanceHandle s + 1) s).
      destruct (playAudioInternal_table s0 (nextInstanceHandle s) a source)
        as (_ & _ & Ef & _ & _ & _ & Es & _ & _ & Eb & _).
      split_and!; try done.
      + apply (playAudioInternal_currentTime s0).
      + intros n Hlt. split.
        * by apply (playAudioInternal_nodes s0).
        * by apply (playAudioInternal_outputs_old s0).
    - destruct (playAudio_deferred s a (wf_init _ Hc) Hsrc)
        as (_ & _ & _ & _ & E3 & E4 & _ & E5).
      rewrite E5. split_and!; try done.
      unfold playAudio. rewrite (wf_init _ Hc), Hsrc. cbn [negb snd].
      by match goal with |- context [if ?b then _ else _] => destruct b end. }
  split_and!; try done.
  intros h' Hne. specialize (Hget h' Hne).
  unfold isAudioPlaying, isAudioPaused, getAudioTime. by rewrite Hget, Es, Et.
Qed.

Lemma playAudio_leaves_others_witness :
  getAudioTime (playAudio (run started exLoopTrace) exArgs).2 1
  = getAudioTime (run started exLoopTrace) 1.
Proof.
  assert (traceOk started exLoopTrace = true) as Ht by (by vm_compute).
  destruct (playAudio_leaves_others exLoopTrace exArgs Ht) as [H _].
  destruct (H 1) as (_ & _ & _ & E); [by vm_compute|exact E].
Defined.

(** ** [stopAudio] *)

(** [stopAudio] on a handle of the table, in a state the engine reaches:
    the entry is removed, so that the handle reads as neither playing nor
    paused, with time 0; the instance object is marked stopped; the source
    node is stopped, and the source node, the gain node and the panner of
    the instance, if any, are left without any connection.  No finished
    event is pushed, the other handles read as before, and a second
    [stopAudio] changes nothing. *)
Theorem stopAudio_tears_down t h l i :
  traceOk started t = true →
  let s := run started t in
  getInstance s h = Some (l, i) →
  let s' := stopAudio s h in
  let c' := audioContext s' in
  instances s' !! h = None
  ∧ isAudioPlaying s' h = false ∧ isAudioPaused s' h = false ∧ getAudioTime s' h = 0
  ∧ (∃ i', heap s' !! l = Some i' ∧ inst_stopped i' = true)
  ∧ (∃ bs, sourceOf c' (inst_sourceNode i) = Some bs ∧ bs_stopped bs = true)
  ∧ outputs c' (inst_sourceNode i) = ∅
  ∧ outputs c' (inst_gainNode i) = ∅
  ∧ (∀ pn, inst_pannerNode i = Some pn → outputs c' pn = ∅)
  ∧ (∀ sp, inst_spatialPanner i = Some sp → outputs c' sp = ∅)
  ∧ finishedCallbacks s' = finishedCallbacks s
  ∧ (∀ h', h' ≠ h → getInstance s' h' = getInstance s h')
  ∧ stopAudio s' h = s'.
Proof.
  intros Ht s Hg s' c'. pose proof (wf_reached t Ht) as [Hc _]. fold s in Hc.
  pose proof Hg as [Hl Hi]%getInstance_Some.
  destruct (wf_entry _ Hc _ _ Hl) as (i' & bs & Hi' & Hst & Hs & _ & _ & _ & _ & Hsta & _).
  assert (i' = i) as -> by congruence.
  assert (s' = set_instances (delete h)
                 (set_audioContext (λ c,
                    disconnectOpt (inst_spatialPanner i)
                      (disconnectOpt (inst_pannerNode i)
                        (disconnect (inst_gainNode i)
                          (disconnect (inst_sourceNode i)
                            (stopNode (inst_sourceNode i) c)))))
                    (set_heap (<[l := inst_set_stopped true i]>) s))) as Es.
  { subst s'. unfold stopAudio, stopInstance. by rewrite Hl, Hi, Hst. }
  assert (instances s' !! h = None) as Hnone by (rewrite Es; apply lookup_delete_eq).
  pose proof (getInstance_None _ _ Hnone) as Hgn.
  split_and!; try done.
  - unfold isAudioPlaying. by rewrite Hgn.
  - unfold isAudioPaused. by rewrite Hgn.
  - unfold getAudioTime. by rewrite Hgn.
  - rewrite Es. st_simpl. rewrite lookup_insert_eq. by eexists.
  - subst c'. rewrite Es. st_simpl.
    assert (∀ c, sourceOf (disconnectOpt (inst_spatialPanner i)
                   (disconnectOpt (inst_pannerNode i)
                      (disconnect (inst_gainNode i) (disconnect (inst_sourceNode i) c))))
                   (inst_sourceNode i) = sourceOf c (inst_sourceNode i)) as ->
      by (intros c; by destruct (inst_spatialPanner i), (inst_pannerNode i)).
    unfold stopNode. rewrite (sourceOf_updSource_at _ _ _ _ _ Hs), decide_True by done.
    eexists. split; [done|]. cbn. unfold isStarted in Hsta.
    by destruct (bs_started bs).
  - subst c'. rewrite Es. st_simpl. unfold outputs.
    destruct (inst_spatialPanner i), (inst_pannerNode i); cbn;
      rewrite ?lookup_delete; repeat case_decide; by rewrite ?lookup_delete_eq.
  - subst c'. rewrite Es. st_simpl. unfold outputs.
    destruct (inst_spatialPanner i), (inst_pannerNode i); cbn;
      rewrite ?lookup_delete; repeat case_decide; by rewrite ?lookup_delete_eq.
  - intros pn Hpn. subst c'. rewrite Es. st_simpl. unfold outputs. rewrite Hpn.
    destruct (inst_spatialPanner i); cbn;
      rewrite ?lookup_delete; repeat case_decide; by rewrite ?lookup_delete_eq.
  - intros sp Hsp. subst c'. rewrite Es. st_simpl. unfold outputs. rewrite Hsp.
    cbn. by rewrite lookup_delete_eq.
  - by rewrite Es.
  - intros h' Hne. rewrite Es. unfold getInstance. st_simpl. rewrite lookup_delete_ne by done.
    destruct (instances s !! h') as [l'|] eqn:Hl'; [|done].
    rewrite lookup_insert_ne; [done|]. intros <-. apply Hne.
    by apply (entry_obj_inj s h' h l Hc).
  - unfold stopAudio. by rewrite Hnone.
Qed.

Lemma stopAudio_tears_down_witness :
  outputs (audioContext (stopAudio (run started exSpatialTrace) 2)) 6 = ∅.
Proof.
  assert (traceOk started exSpatialTrace = true) as Ht by (by vm_compute).
  destruct (getInstance (run started exSpatialTrace) 2) as [[l i]|] eqn:Hg;
    [|by vm_compute in Hg].
  pose proof Hg as Hv. vm_compute in Hv. injection Hv as <- <-.
  destruct (stopAudio_tears_down exSpatialTrace 2 1 _ Ht Hg)
    as (_ & _ & _ & _ & _ & _ & _ & _ & _ & H & _).
  exact (H 6 eq_refl).
Defined.

(** ** The sweep, [shutdown] *)

(** A sweep of the deferred queue, in a state the engine reaches within
    one session (from [init], with no [shutdown]) with the timer scheduled:
    the requests kept are those whose source is still not registered and
    that have been retried fewer than 9 times before, in the order they
    had, each with one retry more (so between 1 and 9); a request whose
    source is registered leaves the queue, as an instance of its handle,
    or with no instance when the host refuses the distances of its panner;
    the entries of the table are kept as they are, no finished event is
    pushed, and a new timer is scheduled exactly when a request is
    kept. *)
Theorem sweep_keeps_queue_order t :
  traceOk started t = true →
  let s := run started t in
  hostOk s TimerFired = true →
  let s' := step s TimerFired in
  pendingPlays s' = omap (sweepKeep s) (pendingPlays s)
  ∧ (pp_handle <$> pendingPlays s') `sublist_of` (pp_handle <$> pendingPlays s)
  ∧ (∀ p', p' ∈ pendingPlays s' →
       1 ≤ pp_retries p' < 10
       ∧ sources s !! pa_sourceHandle (pp_args p') = None
       ∧ mkPendingPlay (pp_handle p') (pp_args p') (pp_retries p' - 1) ∈ pendingPlays s)
  ∧ (∀ p, p ∈ pendingPlays s → is_Some (sources s !! pa_sourceHandle (pp_args p)) →
       (pp_handle p ∉ pp_handle <$> pendingPlays s')
       ∧ (if pannerRejected (pp_args p) then instances s' !! pp_handle p = None
          else isAudioPlaying s' (pp_handle p) = true))
  ∧ (∀ h l, instances s !! h = Some l → getInstance s' h = getInstance s h)
  ∧ finishedCallbacks s' = finishedCallbacks s
  ∧ timers s' = (if decide (pendingPlays s' = []) then 0 else 1)%nat.
Proof.
  intros Ht s Hok s'. pose proof (wf_reached t Ht) as Hwf. fold s in Hwf.
  pose proof Hwf as [Hc Hp].
  assert (wf s') as [_ Hp'] by (by apply wf_step).
  destruct (sweep_spec s Hwf) as (Epend & Efin & _ & _ & _ & _ & _ & _ & Hkeep & _).
  fold s' in Epend, Efin, Hkeep.
  split_and!; try done.
  - rewrite Epend. apply sweepKeep_handles.
  - intros p' Hin. rewrite Epend in Hin.
    apply list_elem_of_omap in Hin as (p & Hin & Hk).
    apply sweepKeep_Some in Hk as (Eh & Ea & Er & Hr & Hsrc).
    pose proof (wf_pend_retries _ Hp p Hin).
    rewrite Eh, Ea, Er. split_and!; try done; [lia|].
    replace (pp_retries p + 1 - 1) with (pp_retries p) by lia. by destruct p.
  - intros [h a k] Hin [source Hsrc]. cbn [pp_handle pp_args] in *.
    pose proof (sweep_pending s h a k Hwf Hin) as H. cbv zeta in H. rewrite Hsrc in H.
    fold s' in H. destruct H as [Hout H]. split; [done|].
    destruct (pannerRejected a); [done|]. by destruct H as (l & i & _ & _ & H).
  - intros h l Hl. destruct (Hkeep h l Hl) as [E1 E2]. unfold getInstance.
    by rewrite E1, E2, Hl.
  - rewrite (wf_timers _ Hp'). by destruct (pendingPlays s').
Qed.

Lemma sweep_keeps_queue_order_witness :
  pp_handle <$> pendingPlays (step (run started exTwoWaiting) TimerFired) = [1; 3].
Proof.
  assert (traceOk started exTwoWaiting = true) as Ht by (by vm_compute).
  assert (hostOk (run started exTwoWaiting) TimerFired = true) as Hok by (by vm_compute).
  destruct (sweep_keeps_queue_order exTwoWaiting Ht Hok) as [H _].
  rewrite H. by vm_compute.
Defined.

Lemma stopInstance_marks s l0 l i :
  heap s !! l = Some i →
  ∃ i', heap (stopInstance s l0) !! l = Some i'
    ∧ (inst_stopped i = true → inst_stopped i' = true)
    ∧ (l = l0 → inst_stopped i' = true).
Proof.
  intros Hi. unfold stopInstance. destruct (heap s !! l0) as [i0|] eqn:E0.
  2: { exists i. split_and!; try done. intros ->. congruence. }
  destruct (inst_stopped i0) eqn:Hst.
  { exists i. split_and!; try done. intros ->. congruence. }
  st_simpl. destruct (decide (l = l0)) as [->|Hne].
  - rewrite lookup_insert_eq. eexists. by split_and!.
  - rewrite lookup_insert_ne by done. exists i. by split_and!.
Qed.

Lemma stopInstances_fold (es : list (Z * Z)) : ∀ s,
  let s' := foldl (λ s (entry : Z * Z), stopInstance s entry.2) s es in
  pendingPlays s' = pendingPlays s ∧ timers s' = timers s
  ∧ masterGain s' = masterGain s ∧ decoding s' = decoding s
  ∧ nextObj s' = nextObj s
  ∧ (∀ l i, heap s !! l = Some i →
       ∃ i', heap s' !! l = Some i'
         ∧ (inst_stopped i = true → inst_stopped i' = true)
         ∧ (l ∈ es.*2 → inst_stopped i' = true)).
Proof.
  induction es as [|[h0 l0] es IH]; intros s.
  - cbn. split_and!; try done. intros l i Hi. exists i. split_and!; try done.
    by intros ?%elem_of_nil.
  - cbn [foldl snd]. destruct (IH (stopInstance s l0)) as (E1 & E2 & E3 & E4 & E5 & Hm).
    destruct (stopInstance_frame s l0) as (_ & _ & F1 & F2 & _ & _ & _ & _ & F4 & _ & _ & _ & F3).
    assert (nextObj (stopInstance s l0) = nextObj s) as F5.
    { unfold stopInstance. destruct (heap s !! l0) as [i0|]; [|done].
      by destruct (inst_stopped i0). }
    split_and!; try congruence.
    intros l i Hi. destruct (stopInstance_marks s l0 l i Hi) as (i1 & Hi1 & Hk1 & Hn1).
    destruct (Hm l i1 Hi1) as (i' & Hi' & Hk' & Hn').
    exists i'. split_and!; try done; [by auto|].
    cbn. intros [->|Hin]%elem_of_cons; [by auto|by auto].
Qed.

(** [shutdown], in a state the engine reaches: the engine is no longer
    initialized, the three registries and the finished queue are empty and
    the three counters are back at their first values, so that every query
    returns its default; every instance object that had an entry is marked
    stopped, so that its [onended] handler does nothing any more;
    [playAudio] and [createAudioBus] return 0 and change nothing; a second
    [shutdown] changes nothing.  The deferred queue and its timer are left
    as they are: after a new [init] the requests are still waiting while
    the instance counter restarts from 1, at or below the handles they
    hold. *)
Theorem shutdown_effects t :
  traceOk started t = true →
  let s := run started t in
  let s' := shutdown s in
  initialized s' = false
  ∧ sources s' = ∅ ∧ instances s' = ∅ ∧ buses s' = ∅ ∧ finishedCallbacks s' = []
  ∧ nextSourceHandle s' = 1 ∧ nextInstanceHandle s' = 1 ∧ nextBusHandle s' = 2
  ∧ (∀ h, isAudioPlaying s' h = false ∧ isAudioPaused s' h = false
          ∧ getAudioTime s' h = 0 ∧ getAudioDuration s' h = 0
          ∧ getAudioBusVolume s' h = 1 ∧ isAudioBusMuted s' h = false)
  ∧ (∀ h l, instances s !! h = Some l →
       ∃ i, heap s' !! l = Some i ∧ inst_stopped i = true ∧ onended s' l h = s')
  ∧ (∀ a, playAudio s' a = (0, s'))
  ∧ createAudioBus s' = (0, s')
  ∧ shutdown s' = s'
  ∧ pendingPlays s' = pendingPlays s ∧ timers s' = timers s
  ∧ (let s'' := (init s').2 in
     pendingPlays s'' = pendingPlays s
     ∧ (∀ a, (playAudio s'' a).1 = 1)
     ∧ (∀ p, p ∈ pendingPlays s'' → 1 ≤ pp_handle p)).
Proof.
  intros Ht s s'. pose proof (wf_reached t Ht) as [Hc _]. fold s in Hc.
  assert (handlesPos s) as (_ & _ & Hpos)
    by (apply handlesPos_run; [apply wf_started|apply handlesPos_started|done]).
  destruct (stopInstances_fold (map_to_list (instances s)) s)
    as (E1 & E2 & E3 & E4 & E5 & Hm).
  set (s0 := foldl (λ s (entry : Z * Z), stopInstance s entry.2) s (map_to_list (instances s)))
    in *.
  assert (s' = mkState newContext (masterGain s0) false 1 1 2 ∅ ∅ ∅ [] (pendingPlays s0)
                 (listenerX s0) (listenerY s0) (heap s0) (nextObj s0) (timers s0)
                 (decoding s0)) as Es.
  { subst s'. unfold shutdown. by rewrite (wf_init _ Hc). }
  rewrite Es. split_and!; try done.
  - intros h l Hl. destruct (wf_entry _ Hc _ _ Hl) as (i & bs & Hi & _).
    destruct (Hm l i Hi) as (i' & Hi' & _ & Hst).
    assert (inst_stopped i' = true) as Hst'.
    { apply Hst. apply list_elem_of_fmap. exists (h, l). split; [done|].
      by apply elem_of_map_to_list. }
    exists i'. split_and!; try done. unfold onended. st_simpl. by rewrite Hi', Hst'.
  - cbn zeta. unfold init, init_in, createGain, createNode. cbn. split_and!; [done| |].
    + intros a. unfold playAudio. cbn. by rewrite lookup_empty.
    + intros p Hin. apply Hpos. by rewrite <- E1.
Qed.

Lemma shutdown_effects_witness :
  pendingPlays (shutdown (run started exMixed)) = pendingPlays (run started exMixed).
Proof.
  assert (traceOk started exMixed = true) as Ht by (by vm_compute).
  destruct (shutdown_effects exMixed Ht)
    as (_ & _ & _ & _ & _ & _ & _ & _ & _ & _ & _ & _ & _ & H & _).
  exact H.
Defined.

(** ** Entries and their nodes *)

(** The flags of an instance and its source node agree in every state the
    engine reaches within one session in which the host accepted every
    call of [start]: the node an entry points to was started, is stopped
    exactly when the instance is paused, has not ended unless the instance
    is paused (the host notifies the end of a node [pauseAudio] stopped,
    and a looping instance survives the notification), loops exactly when
    the loop flag of the instance is set, and carries the [onended]
    handler installed for this instance and this handle; the instance is
    not stopped, and its gain node and panners are nodes of these kinds.
    The handler of any source node, also of one no entry points to, is
    over a handle given out and an allocated object, which is the object
    of the entry of that handle when there is one. *)
Theorem entry_agrees_with_node t h l i :
  traceOk started t = true →
  let s := run started t in
  getInstance s h = Some (l, i) →
  let c := audioContext s in
  inst_stopped i = false
  ∧ (∃ bs, sourceOf c (inst_sourceNode i) = Some bs
       ∧ isStarted bs = true
       ∧ (bs_ended bs = true → inst_paused i = true)
       ∧ bs_stopped bs = inst_paused i
       ∧ bs_loop bs = inst_loop i
       ∧ bs_onended bs = Some (l, h))
  ∧ kindAt c (inst_gainNode i) = Some KGain
  ∧ (∀ pn, inst_pannerNode i = Some pn → kindAt c pn = Some KStereoPanner)
  ∧ (∀ sp, inst_spatialPanner i = Some sp → kindAt c sp = Some KPanner)
  ∧ (∀ h', instances s !! h' = Some l → h' = h)
  ∧ (∀ n bs l' h', sourceOf c n = Some bs → bs_onended bs = Some (l', h') →
       1 ≤ h' < nextInstanceHandle s ∧ is_Some (heap s !! l')
       ∧ (∀ l'', instances s !! h' = Some l'' → l'' = l')).
Proof.
  intros Ht s Hg c. pose proof (wf_reached t Ht) as [Hc _]. fold s in Hc.
  pose proof Hg as [Hl Hi]%getInstance_Some.
  destruct (wf_entry _ Hc _ _ Hl) as (i' & bs & Hi' & Hst & Hs & Hon & Hlo & Hsp & Hen & Hsta & Hk).
  assert (i' = i) as -> by congruence. destruct Hk as (Hk1 & Hk2 & Hk3).
  split_and!; try done.
  - by exists bs.
  - intros h' Hl'. by apply (entry_obj_inj s h' h l Hc).
  - intros n bs' l' h' Hs' Hon'. by apply (wf_closure _ Hc n bs' Hs' l' h').
Qed.

Lemma entry_agrees_with_node_witness :
  ∃ bs, sourceOf (audioContext (run started exPausedTrace)) 2 = Some bs
    ∧ bs_stopped bs = true.
Proof.
  assert (traceOk started exPausedTrace = true) as Ht by (by vm_compute).
  destruct (getInstance (run started exPausedTrace) 1) as [[l i]|] eqn:Hg;
    [|by vm_compute in Hg].
  pose proof Hg as Hv. vm_compute in Hv. injection Hv as <- <-.
  destruct (entry_agrees_with_node exPausedTrace 1 0 _ Ht Hg)
    as (_ & (bs & H1 & _ & _ & H2 & _) & _).
  exists bs. split; [exact H1|exact H2].
Defined.

(** ** The engine restarted *)

Lemma decoding_pos_run t : ∀ s,
  wf s → 1 ≤ nextSourceHandle s → (∀ h, h ∈ decoding s → 1 ≤ h) →
  traceOk s t = true → ∀ h, h ∈ decoding (run s t) → 1 ≤ h.
Proof.
  induction t as [|e t IH]; intros s Hwf Hn Hd Ht; [done|].
  cbn in Ht. apply andb_prop in Ht as [He Ht]. cbn [run foldl].
  destruct (step_decoding s e Hwf) as [Ed En].
  apply IH; [by apply wf_step| | |done].
  - rewrite En. destruct e; lia.
  - intros h. rewrite Ed. destruct e; try apply Hd.
    + intros [->%elem_of_singleton|?]%elem_of_union; [done|by apply Hd].
    + intros [? _]%elem_of_difference. by apply Hd.
    + intros [? _]%elem_of_difference. by apply Hd.
Qed.

(** A restart does not end what is outstanding.  From a state reached in a
    session, [shutdown] followed by [init] gives an initialized engine
    with empty registries and the counters back at their first values,
    while the deferred queue, its timer and the outstanding decodes are as
    they were: the next play and the next load return handle 1, at or
    below the handles of the requests still waiting and of the decodes
    still running, so that the states after a restart are not those of a
    session.  On [exRestarted]: the request of handle 1 parked before the
    restart is still waiting while handle 1 is given out again, to an
    instance playing on node 2; the next sweep promotes the request and
    puts another object, playing on node 4, under handle 1, and the end of
    node 2 then removes that entry and pushes handle 1 while node 4 still
    plays. *)
Theorem restart_keeps_requests t :
  traceOk started t = true →
  let s := run started t in
  let s' := restart s in
  (initialized s' = true
   ∧ pendingPlays s' = pendingPlays s ∧ timers s' = timers s ∧ decoding s' = decoding s
   ∧ instances s' = ∅ ∧ sources s' = ∅ ∧ finishedCallbacks s' = []
   ∧ nextInstanceHandle s' = 1 ∧ nextSourceHandle s' = 1 ∧ nextBusHandle s' = 2
   ∧ (∀ a, (playAudio s' a).1 = 1)
   ∧ (js_load_audio s').1 = 1
   ∧ (∀ p, p ∈ pendingPlays s' → nextInstanceHandle s' ≤ pp_handle p)
   ∧ (∀ h, h ∈ decoding s' → nextSourceHandle s' ≤ h))
  ∧ (pendingPlays exRestarted = [mkPendingPlay 1 exArgs 0]
     ∧ (inst_sourceNode <$> (snd <$> getInstance exRestarted 1)) = Some 2
     ∧ hostOk exRestarted TimerFired = true
     ∧ let s1 := step exRestarted TimerFired in
       (inst_sourceNode <$> (snd <$> getInstance s1 1)) = Some 4
       ∧ (fst <$> getInstance exRestarted 1) ≠ (fst <$> getInstance s1 1)
       ∧ naturalEnd s1 2 = true
       ∧ instances (step s1 (Ended 2)) = ∅
       ∧ finishedCallbacks (step s1 (Ended 2)) = [1]
       ∧ naturalEnd (step s1 (Ended 2)) 4 = true).
Proof.
  intros Ht s s'. split; [|by vm_compute].
  pose proof (wf_reached t Ht) as [Hc _]. fold s in Hc.
  assert (handlesPos s) as (_ & _ & Hpos)
    by (apply handlesPos_run; [apply wf_started|apply handlesPos_started|done]).
  assert (∀ h, h ∈ decoding s → 1 ≤ h) as Hdec.
  { apply decoding_pos_run; [apply wf_started|done| |done]. intros h Hh. by vm_compute in Hh. }
  destruct (stopInstances_fold (map_to_list (instances s)) s)
    as (E1 & E2 & E3 & E4 & E5 & Hm).
  set (s0 := foldl (λ s (entry : Z * Z), stopInstance s entry.2) s (map_to_list (instances s)))
    in *.
  assert (shutdown s = mkState newContext (masterGain s0) false 1 1 2 ∅ ∅ ∅ [] (pendingPlays s0)
                 (listenerX s0) (listenerY s0) (heap s0) (nextObj s0) (timers s0)
                 (decoding s0)) as Es.
  { unfold shutdown. by rewrite (wf_init _ Hc). }
  subst s'. unfold restart. rewrite Es. unfold init, init_in, createGain, createNode. cbn.
  split_and!; try done.
  - intros p Hin. apply Hpos. by rewrite <- E1.
  - intros h Hin. rewrite E4 in Hin. by apply Hdec.
Qed.

Lemma restart_keeps_requests_witness :
  pendingPlays (restart (run started [PlayAudio exArgs])) = [mkPendingPlay 1 exArgs 0].
Proof.
  assert (traceOk started [PlayAudio exArgs] = true) as Ht by (by vm_compute).
  destruct (restart_keeps_requests [PlayAudio exArgs] Ht) as [(_ & H & _) _].
  rewrite H. by vm_compute.
Defined.

